(** * KAT sect: per-sequence k-mer coverage and the GC/coverage histogram

    A shallow embedding of [kat::Sect] (src/src/sect.cc): the per-sequence
    analysis [processSeq], the interlaced batch partition
    [processInterlaced], the batch loop [processSeqFile], the two report
    printers and the final [merge]; besides them the block partition
    [processInBlocks] that the workers no longer use, and from
    src/src/sect.hpp the setter [setThreads] and the window test of its
    older [processSeq].

    Conventions of the embedding:
    - [uint16_t], [uint32_t] and [uint64_t] values are integers of [Z]; every
      place where the source can wrap or truncate carries an explicit
      [uint32] or [uint64] reduction;
    - [double] is Rocq's primitive binary64 [float]; integer to [double]
      conversions round to nearest even as the hardware does;
    - [std::string] is [string]; vectors are lists, written by index with
      stdpp's [<[i:=x]>]; a null [shared_ptr] is [None];
    - the worker threads of one batch are run one after the other: each
      writes only the result slots of its own indices and its own matrix.
      The error stream is the exception: the threads of the source write
      to it without synchronisation, so with two threads or more neither
      the order of the diagnostics nor their lines are those of the model,
      where a diagnostic is one element of the stream; what is stated of
      the order of the stream is stated for one thread;
    - the matrix class [ThreadedSparseMatrix] is not among the sources and
      is modelled from the spec.  The spec leaves an increment outside the
      grid undefined; the model keeps it in the matrix of the worker, where
      it is on no cell of the merged grid;
    - the run is one without [verbose]: the progress text that
      [processSeqFile] then writes to the error stream is left out, and
      nothing is stated of what that stream holds at the end of a run;
    - the source has undefined behaviour in two places that its inputs
      reach.  The conversion to [uint16_t] of a double without a value of
      that type gives a result the language leaves open: the model takes it
      from a parameter, [uint16_undefined], about which nothing is assumed.
      The call of [clear ()] through a null pointer in [destroyBatchVars]
      ends the program on the platforms at hand: the model returns
      [None]. *)

From Stdlib Require Import ZArith String Ascii List Lia.
From Stdlib Require Import PrimFloat SpecFloat FloatOps FloatAxioms DecimalString.
From Stdlib Require DecimalN DecimalPos.
From stdpp Require Import base option list gmap sorting.

Local Open Scope Z_scope.

(** * The program *)

(** ** Machine integers *)

Definition uint32 (z : Z) : Z := z mod 2 ^ 32.
Definition uint64 (z : Z) : Z := z mod 2 ^ 64.

(** ** Doubles *)

(** [(double) z] for an integer [z]: the nearest binary64 value, ties to
    even. *)
Definition double_of_int (z : Z) : float :=
  SF2Prim (binary_normalize prec emax z 0 false).

(** The literals [5.0] and [0.1] of [processSeq]; [0.1] is the binary64
    value nearest to one tenth. *)
Definition five : float := 5%float.
Definition tenth : float := 0x1.999999999999ap-4%float.

(** The integer part of a finite double, rounded towards zero; [None] for
    an infinity or a NaN. *)
Definition truncate (v : float) : option Z :=
  match Prim2SF v with
  | S754_zero _ => Some 0
  | S754_finite sign m e =>
      let magnitude := if 0 <=? e then Z.pos m * 2 ^ e else Z.pos m / 2 ^ (- e) in
      Some (if sign then - magnitude else magnitude)
  | S754_infinity _ => None
  | S754_nan => None
  end.

(** The double is neither an infinity nor a NaN. *)
Definition is_finite (v : float) : bool :=
  match Prim2SF v with
  | S754_zero _ | S754_finite _ _ _ => true
  | S754_infinity _ | S754_nan => false
  end.

(** The double is a zero or a positive finite number. *)
Definition is_nonneg_finite (v : float) : bool :=
  match Prim2SF v with
  | S754_zero _ | S754_finite false _ _ => true
  | _ => false
  end.

(** ** Input arguments of [kat::Sect] *)

Record Args := {
  gcBins : Z;          (* uint16_t *)
  cvgBins : Z;         (* uint16_t *)
  cvgLogscale : bool;
  threads : nat;       (* uint16_t *)
  canonical : bool;
  merLen : Z;          (* uint16_t *)
  noCountStats : bool;
  median : bool
}.

(** [setThreads] of sect.hpp, which [main] calls: the number of worker
    threads is set, the other arguments are kept. *)
Definition setThreads (nthreads : nat) (args : Args) : Args :=
  {| gcBins := gcBins args; cvgBins := cvgBins args;
     cvgLogscale := cvgLogscale args; threads := nthreads;
     canonical := canonical args; merLen := merLen args;
     noCountStats := noCountStats args; median := median args |}.

(** [const uint16_t BATCH_SIZE = 1024] of sect.hpp. *)
Definition BATCH_SIZE : nat := 1024.

(** ** k-mer validity: [validKmer] *)

(** The four cases of the [switch] of [validKmer]. *)
Definition isACGT (c : ascii) : bool :=
  (c =? "A")%char || (c =? "T")%char || (c =? "G")%char || (c =? "C")%char.

Fixpoint validKmer (merstr : string) : bool :=
  match merstr with
  | EmptyString => true
  | String c rest => if isACGT c then validKmer rest else false
  end.

(** ** The window test of sect.hpp *)

(** The test of the window loop of sect.hpp,
    [merstr.find ("N") != string::npos]. *)
Fixpoint hasN (merstr : string) : bool :=
  match merstr with
  | EmptyString => false
  | String c rest => (c =? "N")%char || hasN rest
  end.

(** The alphabet of [seqan::Dna5String], the type of the sequences in
    sect.hpp. *)
Definition isDna5 (c : ascii) : bool := isACGT c || (c =? "N")%char.

(** ** The threaded sparse matrix *)

Module ThreadedSparseMatrix.

(** Modelled from the spec: the class [ThreadedSparseMatrix] behind
    [contamination_mx] (inc/matrix/threaded_sparse_matrix.hpp) is not
    among the sources.  The spec gives one ThreadMatrix per worker, "a 2-D
    grid of non-negative integer accumulators, dimensions gcBins x
    cvgBins", incremented by "ThreadMatrix[t][gcBin][cvgBin] += length",
    and one merged ContaminationMatrix "produced exactly once by summing
    all ThreadMatrix grids element-wise".  Cells are kept sparsely, by
    their index pair; the cells of the grid are the pairs [(i, j)] with
    [0 <= i < width] and [0 <= j < height], so an increment at an index
    "one bin past the end" lands on no cell of the grid. *)
Record t := {
  width : Z;
  height : Z;
  final_matrix : gmap (Z * Z) Z;
  threaded_matricies : list (gmap (Z * Z) Z)
}.

(** Modelled from the spec: "T independent 2-D count matrices (one per
    worker)", every cell 0, and a merged matrix not yet made. *)
Definition make (w h : Z) (nthreads : nat) : t :=
  {| width := w; height := h; final_matrix := ∅;
     threaded_matricies := replicate nthreads ∅ |}.

(** A cell that was never incremented holds 0. *)
Definition get (m : gmap (Z * Z) Z) (i j : Z) : Z := default 0 (m !! (i, j)).

(** Modelled from the spec: the "bin-increment" of one matrix. *)
Definition inc (m : gmap (Z * Z) Z) (i j val : Z) : gmap (Z * Z) Z :=
  <[(i, j) := get m i j + val]> m.

(** The index pair [c] is a cell of the [w] x [h] grid. *)
Definition in_grid (w h : Z) (c : Z * Z) : Prop :=
  0 <= c.1 < w ∧ 0 <= c.2 < h.

#[global] Instance in_grid_dec w h c : Decision (in_grid w h c).
Proof. unfold in_grid. apply _. Defined.

(** Modelled from the spec: "Increment ThreadMatrix[t][gcBin][cvgBin] by
    r.length"; [incTM index i j val] adds [val] to cell [(i, j)] of the
    matrix of worker [index], and touches no other matrix. *)
Definition incTM (index : nat) (i j val : Z) (mx : t) : t :=
  {| width := width mx; height := height mx; final_matrix := final_matrix mx;
     threaded_matricies :=
       alter (fun m => inc m i j val) index (threaded_matricies mx) |}.

(** Modelled from the spec: the element-wise sum of two grids; the cells
    of the grid of [m] are added to [acc]. *)
Definition add_grid (w h : Z) (acc m : gmap (Z * Z) Z) : gmap (Z * Z) Z :=
  union_with (fun a b => Some (a + b)) acc
    (filter (fun kv => in_grid w h kv.1) m).

(** Modelled from the spec: "sum all T ThreadMatrix grids element-wise
    into the ContaminationMatrix" (the maximum cell value, which the merge
    also stores, is left out). *)
Definition mergeThreadedMatricies (mx : t) : t :=
  {| width := width mx; height := height mx;
     final_matrix :=
       foldl (add_grid (width mx) (height mx)) (final_matrix mx)
             (threaded_matricies mx);
     threaded_matricies := threaded_matricies mx |}.

(** Modelled from the spec: the merged matrix. *)
Definition getFinalMatrix (mx : t) : gmap (Z * Z) Z := final_matrix mx.

(** The cells of a [w] x [h] grid, row by row. *)
Definition cells (w h : Z) : list (Z * Z) :=
  i ← seqZ 0 w; (fun j => (i, j)) <$> seqZ 0 h.

Definition sumZ (l : list Z) : Z := foldr Z.add 0 l.

(** The sum of all cells of the grid of [m]. *)
Definition grid_sum (w h : Z) (m : gmap (Z * Z) Z) : Z :=
  sumZ ((fun c => get m c.1 c.2) <$> cells w h).

(** The sum of the grids of the thread matrices. *)
Definition threadSum (w h : Z) (tms : list (gmap (Z * Z) Z)) : Z :=
  sumZ (grid_sum w h <$> tms).

End ThreadedSparseMatrix.

(** ** The variables of [kat::Sect] *)

(** What [processSeq] writes to [cerr] for a sequence shorter than the
    k-mer length: the name, the sequence and the two lengths. *)
Inductive Diagnostic :=
| TooShort (name sq : string) (seqLength merLength : Z).

(** The variables of the object that the analysis reads and writes, and
    the error stream. *)
Record Sect := {
  (* refreshed for each batch *)
  names : list string;
  seqs : list string;
  counts : list (option (list Z));   (* vector<shared_ptr<vector<uint64_t>>> *)
  coverages : list float;            (* vector<double> *)
  gcs : list float;                  (* vector<double> *)
  lengths : list Z;                  (* vector<uint32_t> *)
  nonZero : list Z;                  (* vector<uint32_t> *)
  percentNonZero : list float;       (* vector<double> *)
  (* living as long as the object *)
  contamination_mx : ThreadedSparseMatrix.t;
  (* the standard error stream *)
  cerr : list Diagnostic
}.

(** [recordsInBatch = seqan::length (names)]. *)
Definition recordsInBatch (st : Sect) : nat := length (names st).

(** The assignments of [processSeq] to slot [index] of a vector, one per
    vector; those into [lengths] and [nonZero] convert a [uint64_t] to
    [uint32_t]. *)

Definition set_counts (index : nat) (v : option (list Z)) (st : Sect) : Sect :=
  {| names := names st; seqs := seqs st;
     counts := <[index := v]> (counts st);
     coverages := coverages st; gcs := gcs st; lengths := lengths st;
     nonZero := nonZero st; percentNonZero := percentNonZero st;
     contamination_mx := contamination_mx st; cerr := cerr st |}.

Definition set_coverages (index : nat) (v : float) (st : Sect) : Sect :=
  {| names := names st; seqs := seqs st; counts := counts st;
     coverages := <[index := v]> (coverages st);
     gcs := gcs st; lengths := lengths st;
     nonZero := nonZero st; percentNonZero := percentNonZero st;
     contamination_mx := contamination_mx st; cerr := cerr st |}.

Definition set_gcs (index : nat) (v : float) (st : Sect) : Sect :=
  {| names := names st; seqs := seqs st; counts := counts st;
     coverages := coverages st;
     gcs := <[index := v]> (gcs st);
     lengths := lengths st;
     nonZero := nonZero st; percentNonZero := percentNonZero st;
     contamination_mx := contamination_mx st; cerr := cerr st |}.

Definition set_lengths (index : nat) (v : Z) (st : Sect) : Sect :=
  {| names := names st; seqs := seqs st; counts := counts st;
     coverages := coverages st; gcs := gcs st;
     lengths := <[index := uint32 v]> (lengths st);
     nonZero := nonZero st; percentNonZero := percentNonZero st;
     contamination_mx := contamination_mx st; cerr := cerr st |}.

Definition set_nonZero (index : nat) (v : Z) (st : Sect) : Sect :=
  {| names := names st; seqs := seqs st; counts := counts st;
     coverages := coverages st; gcs := gcs st; lengths := lengths st;
     nonZero := <[index := uint32 v]> (nonZero st);
     percentNonZero := percentNonZero st;
     contamination_mx := contamination_mx st; cerr := cerr st |}.

Definition set_percentNonZero (index : nat) (v : float) (st : Sect) : Sect :=
  {| names := names st; seqs := seqs st; counts := counts st;
     coverages := coverages st; gcs := gcs st; lengths := lengths st;
     nonZero := nonZero st;
     percentNonZero := <[index := v]> (percentNonZero st);
     contamination_mx := contamination_mx st; cerr := cerr st |}.

Definition set_contamination_mx (mx : ThreadedSparseMatrix.t) (st : Sect) : Sect :=
  {| names := names st; seqs := seqs st; counts := counts st;
     coverages := coverages st; gcs := gcs st; lengths := lengths st;
     nonZero := nonZero st; percentNonZero := percentNonZero st;
     contamination_mx := mx; cerr := cerr st |}.

Definition write_cerr (d : Diagnostic) (st : Sect) : Sect :=
  {| names := names st; seqs := seqs st; counts := counts st;
     coverages := coverages st; gcs := gcs st; lengths := lengths st;
     nonZero := nonZero st; percentNonZero := percentNonZero st;
     contamination_mx := contamination_mx st; cerr := cerr st ++ [d] |}.

(** ** The per-sequence analysis: [processSeq] *)

Section Analyzer.

(** [JellyfishHelper::getCount (input.hash, mer, input.canonical)]: the
    count index, read only. *)
Variable getCount : bool -> string -> Z.

(** [log10] of the C library. *)
Variable log10 : float -> float.

(** What the platform yields when a double that has no [uint16_t] value
    (its integer part is outside 0..65535, or it is not finite) is converted
    to [uint16_t]; C++ leaves that conversion undefined. *)
Variable uint16_undefined : float -> Z.

Variable args : Args.

(** The conversion [uint16_t x = v]. *)
Definition uint16_of_double (v : float) : Z :=
  match truncate v with
  | Some z => if (0 <=? z) && (z <=? 65535) then z else uint16_undefined v
  | None => uint16_undefined v
  end.

(** One turn of the window loop: the count of the k-mer starting at [i]. *)
Definition count_step (sq : string) (acc : list Z * Z) (i : nat) : list Z * Z :=
  let '(seqCounts, sum) := acc in
  let merstr := substring i (Z.to_nat (merLen args)) sq in
  if negb (validKmer merstr) then (<[i := 0]> seqCounts, sum)
  else
    let count := getCount (canonical args) merstr in
    (<[i := count]> seqCounts, uint64 (sum + count)).

(** The window loop: the count vector, created with [nbCounts] zeros, and
    the running sum. *)
Definition countKmers (sq : string) (nbCounts : Z) : list Z * Z :=
  foldl (count_step sq) (replicate (Z.to_nat nbCounts) 0, 0)
        (seq 0 (Z.to_nat nbCounts)).

(** The median branch: a sorted copy, and its element at [size / 2]. *)
Definition sortedSeqCounts (seqCounts : list Z) : list Z :=
  merge_sort Z.le seqCounts.

(** [(double) (sortedSeqCounts[sortedSeqCounts.size () / 2])]. *)
Definition medianCvg (seqCounts : list Z) : float :=
  let sorted := sortedSeqCounts seqCounts in
  double_of_int (default 0 (sorted !! (length sorted / 2)%nat)).

(** The mean branch: [(double) sum / (double) nbCounts]. *)
Definition meanCvg (sum nbCounts : Z) : float :=
  PrimFloat.div (double_of_int sum) (double_of_int nbCounts).

(** The GC loop. *)
Definition gc_step (acc : Z * Z * Z) (c : ascii) : Z * Z * Z :=
  let '(gs, cs, ns) := acc in
  if (c =? "G")%char || (c =? "g")%char then (uint64 (gs + 1), cs, ns)
  else if (c =? "C")%char || (c =? "c")%char then (gs, uint64 (cs + 1), ns)
  else if (c =? "N")%char || (c =? "n")%char then (gs, cs, uint64 (ns + 1))
  else (gs, cs, ns).

(** The counters [gs], [cs] and [ns] after the loop. *)
Definition gcCounts (sq : string) : Z * Z * Z :=
  foldl gc_step (0, 0, 0) (list_ascii_of_string sq).

(** [gc_perc = ((double) (gs + cs)) / ((double) (seqLength - ns))]. *)
Definition gcPerc (sq : string) : float :=
  let seqLength := Z.of_nat (String.length sq) in
  let '(gs, cs, ns) := gcCounts sq in
  PrimFloat.div (double_of_int (uint64 (gs + cs)))
                (double_of_int (uint64 (seqLength - ns))).

(** [compressed_cvg], the coverage scaled for binning. *)
Definition compressedCvg (average_cvg : float) : float :=
  let log_cvg := if cvgLogscale args then log10 average_cvg else average_cvg in
  if cvgLogscale args
  then PrimFloat.mul log_cvg (PrimFloat.div (double_of_int (cvgBins args)) five)
  else PrimFloat.mul average_cvg tenth.

(** [uint16_t x = gc_perc * gcBins]. *)
Definition gcBin (gc_perc : float) : Z :=
  uint16_of_double (PrimFloat.mul gc_perc (double_of_int (gcBins args))).

(** [uint16_t y = compressed_cvg >= cvgBins ? cvgBins - 1 : compressed_cvg];
    both branches are doubles before the conversion. *)
Definition cvgBin (compressed_cvg : float) : Z :=
  uint16_of_double
    (if PrimFloat.leb (double_of_int (cvgBins args)) compressed_cvg
     then double_of_int (cvgBins args - 1)
     else compressed_cvg).

(** [processSeq (index, th_id)]. *)
Definition processSeq (index th_id : nat) (st : Sect) : Sect :=
  let sq := default EmptyString (seqs st !! index) in
  let seqLength := Z.of_nat (String.length sq) in
  let nbCounts := uint64 (seqLength - merLen args + 1) in
  let '(average_cvg, nbNonZero, st) :=
    if seqLength <? merLen args then
      (0%float, 0,
       write_cerr (TooShort (default EmptyString (names st !! index)) sq
                            seqLength (merLen args)) st)
    else
      let '(vec, sum) := countKmers sq nbCounts in
      let seqCounts := Some vec in
      let st := set_counts index seqCounts st in
      (* if (seqCounts != 0) nbNonZero++; on the pointer, from 0 *)
      let nbNonZero := if seqCounts is Some _ then 1 else 0 in
      let average_cvg :=
        if median args then medianCvg vec else meanCvg sum nbCounts in
      (average_cvg, nbNonZero, set_coverages index average_cvg st) in
  let st := set_lengths index seqLength st in
  let st := set_nonZero index nbNonZero st in
  let st :=
    set_percentNonZero index
      (PrimFloat.div (double_of_int nbNonZero) (double_of_int seqLength)) st in
  let gc_perc := gcPerc sq in
  let st := set_gcs index gc_perc st in
  let x := gcBin gc_perc in
  let y := cvgBin (compressedCvg average_cvg) in
  set_contamination_mx
    (ThreadedSparseMatrix.incTM th_id x y seqLength (contamination_mx st)) st.

(** ** The batch: partition, workers, buffers *)

(** The loop of [processInterlaced]:
    [for (i = start; i < end; i += threads) processSeq (i, th_id)].
    [fuel] bounds the number of turns. *)
Fixpoint interlaced_loop (fuel i end_ th_id : nat) (st : Sect) : Sect :=
  match fuel with
  | O => st
  | S fuel' =>
      if (i <? end_)%nat
      then interlaced_loop fuel' (i + threads args)%nat end_ th_id
                           (processSeq i th_id st)
      else st
  end.

(** [processInterlaced]: with at least one thread the loop makes at most
    [recordsInBatch] turns. *)
Definition processInterlaced (th_id : nat) (st : Sect) : Sect :=
  interlaced_loop (recordsInBatch st) th_id (recordsInBatch st) th_id st.

(** [bucket_size = BATCH_SIZE / threads], set by [execute]; the source
    divides by zero when there is no thread, and every statement below
    about a batch or a run is for at least one thread. *)
Definition bucket_size : nat := (BATCH_SIZE / threads args)%nat.

(** [analyseBatchSlice]: a worker without work returns at once. *)
Definition analyseBatchSlice (th_id : nat) (st : Sect) : Sect :=
  if (bucket_size <? 1)%nat && (recordsInBatch st <=? th_id)%nat then st
  else processInterlaced th_id st.

(** [analyseBatch] starts one thread per worker id and joins them all;
    here the workers run in the order of their ids. *)
Definition analyseBatch (st : Sect) : Sect :=
  foldl (fun st th_id => analyseBatchSlice th_id st) st (seq 0 (threads args)).

(** [createBatchVars]: fresh vectors of [batchSize] null pointers and
    zeros. *)
Definition createBatchVars (batchSize : nat) (st : Sect) : Sect :=
  {| names := names st; seqs := seqs st;
     counts := replicate batchSize None;
     coverages := replicate batchSize 0%float;
     gcs := replicate batchSize 0%float;
     lengths := replicate batchSize 0;
     nonZero := replicate batchSize 0;
     percentNonZero := replicate batchSize 0%float;
     contamination_mx := contamination_mx st; cerr := cerr st |}.

(** The loop of [destroyBatchVars]: [counts->at (i)->clear ()] for every
    [i].  Through a null pointer the call is undefined (a null dereference
    that ends the program): [None]. *)
Fixpoint clearCounts (vectors : list (option (list Z)))
    : option (list (option (list Z))) :=
  match vectors with
  | [] => Some []
  | Some _ :: rest => cleared ← clearCounts rest; Some (Some [] :: cleared)
  | None :: _ => None
  end.

(** The state once every vector of the batch is cleared. *)
Definition clearedBatchVars (st : Sect) : Sect :=
  {| names := names st; seqs := seqs st;
     counts := []; coverages := []; gcs := []; lengths := [];
     nonZero := []; percentNonZero := [];
     contamination_mx := contamination_mx st; cerr := cerr st |}.

(** [destroyBatchVars]: the loop over [counts], then [clear ()] on every
    vector of the batch. *)
Definition destroyBatchVars (st : Sect) : option Sect :=
  _ ← clearCounts (counts st); Some (clearedBatchVars st).

(** [readRecords (names, seqs, reader, BATCH_SIZE)] after the two
    [clear]s: the batch replaces the names and the sequences. *)
Definition loadBatch (batch : list (string * string)) (st : Sect) : Sect :=
  {| names := batch.*1; seqs := batch.*2;
     counts := counts st; coverages := coverages st; gcs := gcs st;
     lengths := lengths st; nonZero := nonZero st;
     percentNonZero := percentNonZero st;
     contamination_mx := contamination_mx st; cerr := cerr st |}.

(** ** The reports *)

(** A count as [operator<<] prints it, in decimal. *)
Definition show_uint (z : Z) : string :=
  NilZero.string_of_uint (N.to_uint (Z.to_N z)).

(** The line of counts of one sequence. *)
Definition countsLine (seqCounts : option (list Z)) : string :=
  match seqCounts with
  | Some (c0 :: rest) =>
      foldl (fun line c => line ++ " " ++ show_uint c)%string (show_uint c0) rest
  | _ => "0"%string
  end.

(** [printCounts]: two lines per sequence, in the order of the batch. *)
Definition printCounts (st : Sect) : list string :=
  i ← seq 0 (recordsInBatch st);
  [ (">" ++ default EmptyString (names st !! i))%string;
    countsLine (default None (counts st !! i)) ].

(** A line of the statistics file: its header, or the six columns of one
    sequence. *)
Inductive StatLine :=
| StatHeader
| StatRow (name : string) (coverage gc : float) (seq_length non_zero_bases : Z)
          (percent_covered : float).

(** The row of sequence [i] of the batch, read from the result vectors. *)
Definition statRow (st : Sect) (i : nat) : StatLine :=
  StatRow (default EmptyString (names st !! i))
          (default 0%float (coverages st !! i))
          (default 0%float (gcs st !! i))
          (default 0 (lengths st !! i))
          (default 0 (nonZero st !! i))
          (default 0%float (percentNonZero st !! i)).

(** [printStatTable]: one row per sequence, in the order of the batch. *)
Definition printStatTable (st : Sect) : list StatLine :=
  statRow st <$> seq 0 (recordsInBatch st).

(** ** The run: [processSeqFile], [merge], [execute] *)

(** The object, the sequence file and the two output files during
    [processSeqFile]. *)
Record Run := {
  sect : Sect;
  reader : list (string * string);     (* the records not yet read *)
  count_path_stream : list string;     (* <prefix>-counts.cvg *)
  cvg_gc_stream : list StatLine        (* <prefix>-stats.csv *)
}.

(** One turn of [while (!atEnd (reader))]; [None] when [destroyBatchVars]
    is undefined. *)
Definition processBatch (r : Run) : option Run :=
  let batch := take BATCH_SIZE (reader r) in
  let st := loadBatch batch (sect r) in
  let st := createBatchVars (recordsInBatch st) st in
  let st := analyseBatch st in
  let counts_out :=
    if noCountStats args then count_path_stream r
    else count_path_stream r ++ printCounts st in
  let stats_out := cvg_gc_stream r ++ printStatTable st in
  st ← destroyBatchVars st;
  Some {| sect := st;
          reader := drop BATCH_SIZE (reader r);
          count_path_stream := counts_out;
          cvg_gc_stream := stats_out |}.

(** The loop [while (!atEnd (reader))]; [fuel] bounds the number of
    turns. *)
Fixpoint batch_loop (fuel : nat) (r : Run) : option Run :=
  match fuel with
  | O => Some r
  | S fuel' =>
      match reader r with
      | [] => Some r
      | _ :: _ => r ← processBatch r; batch_loop fuel' r
      end
  end.

(** [processSeqFile]: every turn reads at least one record, so the number
    of records bounds the number of turns. *)
Definition processSeqFile (records : list (string * string)) (st : Sect)
    : option Run :=
  batch_loop (length records)
    {| sect := st; reader := records; count_path_stream := [];
       cvg_gc_stream := [StatHeader] |}.

(** [merge]. *)
Definition merge (st : Sect) : Sect :=
  set_contamination_mx
    (ThreadedSparseMatrix.mergeThreadedMatricies (contamination_mx st)) st.

(** The object when [execute] has created the matrix. *)
Definition newSect : Sect :=
  {| names := []; seqs := []; counts := []; coverages := []; gcs := [];
     lengths := []; nonZero := []; percentNonZero := [];
     contamination_mx :=
       ThreadedSparseMatrix.make (gcBins args) (cvgBins args) (threads args);
     cerr := [] |}.

(** [execute] once the input is validated and the hash is loaded: the
    matrix is created, the sequence file is processed, the thread matrices
    are merged. *)
Definition execute (records : list (string * string)) : option Run :=
  r ← processSeqFile records newSect;
  Some {| sect := merge (sect r); reader := reader r;
          count_path_stream := count_path_stream r;
          cvg_gc_stream := cvg_gc_stream r |}.

(** The merged matrix of a run that reaches its end, and the sum of its
    cells. *)
Definition finalMatrix (records : list (string * string))
    : option (gmap (Z * Z) Z) :=
  r ← execute records;
  Some (ThreadedSparseMatrix.getFinalMatrix (contamination_mx (sect r))).

(** The sum of all cells of the merged matrix. *)
Definition finalSum (records : list (string * string)) : option Z :=
  ThreadedSparseMatrix.grid_sum (gcBins args) (cvgBins args)
    <$> finalMatrix records.

End Analyzer.

(** ** The block partition: [processInBlocks] *)

Section Blocks.

Variable getCount : bool -> string -> Z.
Variable log10 : float -> float.
Variable uint16_undefined : float -> Z.
Variable args : Args.

(** [remaining = BATCH_SIZE % (bucket_size < 1 ? 1 : threads)], set by
    [execute]. *)
Definition remaining : nat :=
  (BATCH_SIZE mod (if (bucket_size args <? 1)%nat then 1 else threads args))%nat.

(** The loop of [processInBlocks]:
    [for (i = start; i <= end; i++) processSeq (i, th_id)].
    [fuel] bounds the number of turns. *)
Fixpoint blocks_loop (fuel i end_ th_id : nat) (st : Sect) : Sect :=
  match fuel with
  | O => st
  | S fuel' =>
      if (i <=? end_)%nat
      then blocks_loop fuel' (S i) end_ th_id
                       (processSeq getCount log10 uint16_undefined args i th_id st)
      else st
  end.

(** [processInBlocks], the partition that [analyseBatchSlice] no longer
    calls: a block of [bucket_size] indices, then one index of the
    remainder.  The loop makes [end - start + 1] turns.  An index handed to
    [processSeq] can lie past the last record of the batch, where the
    source reads and writes outside its vectors; what is proved of this
    partition is about the indices it hands out. *)
Definition processInBlocks (th_id : nat) (st : Sect) : Sect :=
  let start :=
    if (bucket_size args <? 1)%nat then th_id else (th_id * bucket_size args)%nat in
  let end_ :=
    if (bucket_size args <? 1)%nat then th_id
    else (start + bucket_size args - 1)%nat in
  let st := blocks_loop (S (end_ - start)) start end_ th_id st in
  if (th_id <? remaining)%nat
  then processSeq getCount log10 uint16_undefined args
         (threads args * bucket_size args + th_id) th_id st
  else st.

End Blocks.

(** * Reference definitions *)

(** ** In the words of the specification *)

(** The alphabet {A,C,G,T} compared without regard to case. *)
Definition isACGT_nocase (c : ascii) : bool :=
  isACGT c || (c =? "a")%char || (c =? "t")%char || (c =? "g")%char || (c =? "c")%char.

(** Every character of [s] satisfies [p]. *)
Fixpoint string_forallb (p : ascii -> bool) (s : string) : bool :=
  match s with
  | EmptyString => true
  | String c rest => p c && string_forallb p rest
  end.

(** The k-mer window starting at offset [i]. *)
Definition window (args : Args) (sq : string) (i : nat) : string :=
  substring i (Z.to_nat (merLen args)) sq.

(** The count of one window: the index is asked only for a valid k-mer. *)
Definition kmerCount (getCount : bool -> string -> Z) (args : Args)
                     (sq : string) (i : nat) : Z :=
  if validKmer (window args sq i)
  then getCount (canonical args) (window args sq i)
  else 0.

(** The number of windows of a sequence that has at least one. *)
Definition nbWindows (args : Args) (sq : string) : nat :=
  Z.to_nat (Z.of_nat (String.length sq) - merLen args + 1).

(** The number of characters of [l] that satisfy [p]. *)
Definition count_list (p : ascii -> bool) (l : list ascii) : Z :=
  Z.of_nat (length (filter (fun c => p c = true) l)).

(** The number of characters of [sq] that satisfy [p]. *)
Definition count_chars (p : ascii -> bool) (sq : string) : Z :=
  Z.of_nat (length (filter (fun c => p c = true) (list_ascii_of_string sq))).

(** The three classes of characters that the GC loop counts. *)
Definition isG (c : ascii) : bool := (c =? "G")%char || (c =? "g")%char.
Definition isC (c : ascii) : bool := (c =? "C")%char || (c =? "c")%char.
Definition isN (c : ascii) : bool := (c =? "N")%char || (c =? "n")%char.

(** A character that is none of G, g, C, c, N, n. *)
Definition isOther (c : ascii) : bool := negb (isG c || isC c || isN c).

(** The size of a [std::string] is at most [max_size ()], which is below
    2^63 where [size_t] has 64 bits. *)
Definition fits_size_t (sq : string) : Prop :=
  Z.of_nat (String.length sq) < 2 ^ 63.

(** ** The interlaced partition *)

(** The indices visited by the loop of [processInterlaced], in order. *)
Fixpoint interlaced_indices (fuel i end_ step : nat) : list nat :=
  match fuel with
  | O => []
  | S fuel' =>
      if (i <? end_)%nat then i :: interlaced_indices fuel' (i + step) end_ step
      else []
  end.

(** The indices of worker [th_id] in a batch of [n] records. *)
Definition workerIndices (nthreads n th_id : nat) : list nat :=
  interlaced_indices n th_id n nthreads.

(** The calls [processSeq (index, th_id)] of one batch, worker by worker. *)
Definition schedule (nthreads n : nat) : list (nat * nat) :=
  th_id ← seq 0 nthreads; (fun index => (index, th_id)) <$> workerIndices nthreads n th_id.

(** The indices that [processInBlocks] hands to [processSeq] for worker
    [th_id] of [nthreads], in order. *)
Definition blockIndices (nthreads th_id : nat) : list nat :=
  let b := (BATCH_SIZE / nthreads)%nat in
  let r := (BATCH_SIZE mod (if (b <? 1)%nat then 1 else nthreads))%nat in
  (if (b <? 1)%nat then [th_id] else seq (th_id * b) b)
  ++ (if (th_id <? r)%nat then [(nthreads * b + th_id)%nat] else []).

(** ** What [processSeq] and a batch compute *)

Section Reference.

Import ThreadedSparseMatrix.

Variable getCount : bool -> string -> Z.
Variable log10 : float -> float.
Variable uint16_undefined : float -> Z.
Variable args : Args.

(** [seqLength], the test [seqLength < merLen] and [nbCounts] of
    [processSeq]. *)
Definition seqLengthOf (sq : string) : Z := Z.of_nat (String.length sq).

Definition isShort (sq : string) : bool := seqLengthOf sq <? merLen args.

Definition nbCountsOf (sq : string) : Z := uint64 (seqLengthOf sq - merLen args + 1).

(** The count vector of a sequence that is not short. *)
Definition seqCountsOf (sq : string) : list Z :=
  (countKmers getCount args sq (nbCountsOf sq)).1.

(** [average_cvg] at the end of [processSeq]. *)
Definition averageCvgOf (sq : string) : float :=
  if isShort sq then 0%float
  else if median args then medianCvg (seqCountsOf sq)
  else meanCvg (countKmers getCount args sq (nbCountsOf sq)).2 (nbCountsOf sq).

(** [nbNonZero] at the end of [processSeq]. *)
Definition nbNonZeroOf (sq : string) : Z := if isShort sq then 0 else 1.

(** [(double) nbNonZero / (double) seqLength]. *)
Definition percentNonZeroOf (sq : string) : float :=
  PrimFloat.div (double_of_int (nbNonZeroOf sq)) (double_of_int (seqLengthOf sq)).

(** The cell [(x, y)] that receives the bases of the sequence. *)
Definition binOf (sq : string) : Z * Z :=
  (gcBin uint16_undefined args (gcPerc sq),
   cvgBin uint16_undefined args (compressedCvg log10 args (averageCvgOf sq))).

(** The calls [processSeq (index, th_id)] of a list of pairs, in order. *)
Definition runSchedule (l : list (nat * nat)) (st : Sect) : Sect :=
  foldl (fun st c => processSeq getCount log10 uint16_undefined args c.1 c.2 st) st l.

(** The state when the workers start, and when they have all joined. *)
Definition batchStart (batch : list (string * string)) (st : Sect) : Sect :=
  let st := loadBatch batch st in createBatchVars (recordsInBatch st) st.

Definition batchDone (batch : list (string * string)) (st : Sect) : Sect :=
  analyseBatch getCount log10 uint16_undefined args (batchStart batch st).

(** The count vector kept for a sequence: none when it is short. *)
Definition countsOf (sq : string) : option (list Z) :=
  if isShort sq then None else Some (seqCountsOf sq).

(** The row of the statistics file for one record. *)
Definition statOf (record : string * string) : StatLine :=
  StatRow record.1
          (averageCvgOf record.2)
          (gcPerc record.2)
          (uint32 (seqLengthOf record.2))
          (uint32 (nbNonZeroOf record.2))
          (percentNonZeroOf record.2).

(** The two lines of the counts file for one record. *)
Definition countsOutputOf (record : string * string) : list string :=
  [ (">" ++ record.1)%string; countsLine (countsOf record.2) ].

(** The diagnostic of a record that is too short. *)
Definition diagnosticOf (record : string * string) : Diagnostic :=
  TooShort record.1 record.2 (seqLengthOf record.2) (merLen args).

(** The bases a sequence adds to the grid: its length when its cell is a
    cell of the grid, nothing otherwise. *)
Definition gridMass (sq : string) : Z :=
  if decide (in_grid (gcBins args) (cvgBins args) (binOf sq))
  then seqLengthOf sq else 0.

(** The sum of the grids of the thread matrices of a state. *)
Definition threadSumOf (st : Sect) : Z :=
  threadSum (gcBins args) (cvgBins args) (threaded_matricies (contamination_mx st)).

(** The matrix was made by [execute] and not yet merged. *)
Definition unmerged (st : Sect) : Prop :=
  length (threaded_matricies (contamination_mx st)) = threads args
  ∧ final_matrix (contamination_mx st) = ∅
  ∧ width (contamination_mx st) = gcBins args
  ∧ height (contamination_mx st) = cvgBins args.

(** The state after a turn of the batch loop that reaches its end. *)
Definition afterBatch (r : Run) : Run :=
  let after := batchDone (take BATCH_SIZE (reader r)) (sect r) in
  {| sect := clearedBatchVars after;
     reader := drop BATCH_SIZE (reader r);
     count_path_stream :=
       if noCountStats args then count_path_stream r
       else count_path_stream r ++ printCounts after;
     cvg_gc_stream := cvg_gc_stream r ++ printStatTable after |}.

(** The number of bases of the input. *)
Definition totalLength (records : list (string * string)) : Z :=
  ThreadedSparseMatrix.sumZ ((fun record => seqLengthOf record.2) <$> records).

End Reference.

(** ** The cells of the matrix, the error stream, the counts file *)

Section CellReference.

Import ThreadedSparseMatrix.

Variable getCount : bool -> string -> Z.
Variable log10 : float -> float.
Variable uint16_undefined : float -> Z.
Variable args : Args.

(** The bases of the records whose cell is [(a, b)]. *)
Definition cellMass (records : list (string * string)) (a b : Z) : Z :=
  sumZ ((fun record =>
           if decide (binOf getCount log10 uint16_undefined args record.2 = (a, b))
           then seqLengthOf record.2 else 0) <$> records).

(** What the thread matrices of a state hold in cell [(a, b)], all
    together. *)
Definition threadCellOf (a b : Z) (st : Sect) : Z :=
  sumZ ((fun m => get m a b) <$> threaded_matricies (contamination_mx st)).

End CellReference.

Section DiagReference.

Variable args : Args.

(** The diagnostics of the records of a batch that are too short, in the
    order of the batch. *)
Definition diagnosticsOf (batch : list (string * string)) : list Diagnostic :=
  diagnosticOf args <$> filter (fun record => isShort args record.2 = true) batch.

End DiagReference.

(** The variables of the object, the error stream left out. *)
Definition withoutCerr (st : Sect) : Sect :=
  {| names := names st; seqs := seqs st; counts := counts st;
     coverages := coverages st; gcs := gcs st; lengths := lengths st;
     nonZero := nonZero st; percentNonZero := percentNonZero st;
     contamination_mx := contamination_mx st; cerr := [] |}.

(** Two states hold the same results: the same variables, and the same
    diagnostics on the error stream, in any order. *)
Definition sameResults (st st' : Sect) : Prop :=
  withoutCerr st = withoutCerr st' ∧ cerr st ≡ₚ cerr st'.

(** The number of windows of a sequence whose count is 0. *)
Definition zeroWindows (getCount : bool -> string -> Z) (args : Args)
    (sq : string) : nat :=
  length (filter (fun i => kmerCount getCount args sq i = 0)
                 (seq 0 (nbWindows args sq))).

(** The fields of a line, split at its spaces. *)
Fixpoint fields (line : string) : list string :=
  match line with
  | EmptyString => [EmptyString]
  | String c rest =>
      if (c =? " ")%char then EmptyString :: fields rest
      else match fields rest with
           | field :: others => String c field :: others
           | [] => [String c EmptyString]
           end
  end.

(** ** Doubles over the range of a [uint16_t] *)

(** A check of a boolean property on every integer whose binary expansion
    extends [prefix] by [depth] more bits; used to settle facts about
    doubles over the whole range of a [uint16_t]. *)
Fixpoint all_bits (depth : nat) (prefix : Z) (f : Z -> bool) : bool :=
  match depth with
  | O => f prefix
  | S d => all_bits d (2 * prefix) f && all_bits d (2 * prefix + 1) f
  end.

(** [a] is the integer [b]. *)
Definition option_Z_eqb (a : option Z) (b : Z) : bool :=
  match a with Some z => z =? b | None => false end.

(** The facts about doubles used below, for one 16-bit integer [n] and its
    double [d]: [1.0 * d] and [d] convert back to [n]; [d] is not negative;
    unless [n] is 0, [0 / d] is [0] and minus infinity times [d / 5.0] is
    minus infinity. *)
Definition uint16_double_check (n : Z) : bool :=
  let d := double_of_int n in
  option_Z_eqb (truncate (PrimFloat.mul 1%float d)) n
  && option_Z_eqb (truncate d) n
  && is_nonneg_finite d
  && ((n =? 0)
      || (Leibniz.eqb (PrimFloat.div 0%float d) 0%float
          && Leibniz.eqb (PrimFloat.mul neg_infinity (PrimFloat.div d five))
                         neg_infinity)).

(** The double of a 16-bit integer [n] has the value [n]: it is [+0] for 0
    and otherwise [m * 2 ^ e] with [e <= 0], a mantissa of 53 bits and
    [m = n * 2 ^ (- e)]. *)
Definition uint16_exact_check (n : Z) : bool :=
  match Prim2SF (double_of_int n) with
  | S754_zero false => n =? 0
  | S754_finite false m e =>
      (e <=? 0) && (Z.pos m =? n * 2 ^ (- e))
      && (2 ^ 52 <=? Z.pos m) && (Z.pos m <? 2 ^ 53) && (-1074 <=? e)
  | _ => false
  end.

(** The coverage scaled by [0.1] for a 16-bit count [m]: the product is
    finite and not negative, and its integer part is [m / 10]. *)
Definition linear_bin_check (m : Z) : bool :=
  let v := PrimFloat.mul (double_of_int m) tenth in
  option_Z_eqb (truncate v) (m / 10) && is_nonneg_finite v.

(** ** Example inputs *)

(** The settings of the constructor of [kat::Sect], with k-mer length [k]. *)
Definition defaultArgs (k : Z) : Args :=
  {| gcBins := 1001; cvgBins := 1001; cvgLogscale := false; threads := 1;
     canonical := false; merLen := k; noCountStats := false; median := true |}.

(** The same with the coverage binned on a logarithmic scale. *)
Definition logscaleArgs (k : Z) : Args :=
  {| gcBins := 1001; cvgBins := 1001; cvgLogscale := true; threads := 1;
     canonical := false; merLen := k; noCountStats := false; median := true |}.

(** The same with the mean of the counts for the coverage. *)
Definition meanArgs (k : Z) : Args :=
  {| gcBins := 1001; cvgBins := 1001; cvgLogscale := false; threads := 1;
     canonical := false; merLen := k; noCountStats := false; median := false |}.

(** A count index in which every k-mer has count [c]. *)
Definition constCount (c : Z) : bool -> string -> Z := fun _ _ => c.

(** A count index for single bases. *)
Definition baseCount (a c g t : Z) : bool -> string -> Z :=
  fun _ mer =>
    match mer with
    | String "A" EmptyString => a
    | String "C" EmptyString => c
    | String "G" EmptyString => g
    | String "T" EmptyString => t
    | _ => 0
    end.

(** A stand-in for [log10] that has its values at zero and below, and is
    the identity elsewhere. *)
Definition log10_nonpositive (c : float) : float :=
  if PrimFloat.eqb c 0%float then neg_infinity
  else if PrimFloat.ltb c 0%float then nan
  else c.

(** A platform on which an undefined conversion yields 0. *)
Definition undefined_is_zero : float -> Z := fun _ => 0.

(** The batch of one record, when the workers start. *)
Definition oneRecord (args : Args) (name sq : string) : Sect :=
  batchStart [(name, sq)] (newSect args).

(** A batch of three records whose second sequence is shorter than a
    2-mer, and the state when its workers have joined. *)
Definition shortBatch : list (string * string) :=
  [("s1", "ACGT"); ("s2", "A"); ("s3", "GG")]%string.

Definition shortBatchDone : Sect :=
  batchDone (constCount 7) log10_nonpositive undefined_is_zero (defaultArgs 2)
    shortBatch (newSect (defaultArgs 2)).

(** ** The claims that fail, as the specification words them *)

(** The claim as the specification words it: a window whose bases are all
    in {A,C,G,T} without regard to case gets the count of the index, any
    other window gets 0. *)
Definition lookup_ignores_case : Prop :=
  forall getCount log10 uint16_undefined args index th_id st sq vec (i : nat),
    seqs st !! index = Some sq -> (index < length (counts st))%nat ->
    fits_size_t sq -> 0 <= merLen args <= seqLengthOf sq ->
    counts (processSeq getCount log10 uint16_undefined args index th_id st) !! index
    = Some (Some vec) ->
    (i < nbWindows args sq)%nat ->
    (string_forallb isACGT_nocase (window args sq i) = false -> vec !! i = Some 0)
    ∧ (string_forallb isACGT_nocase (window args sq i) = true ->
       vec !! i = Some (getCount (canonical args) (window args sq i))).

(** The claim as the specification words it: the fraction is 0 for a
    sequence shorter than a k-mer and [1 / length] for any other. *)
Definition percent_is_zero_or_reciprocal : Prop :=
  forall getCount log10 uint16_undefined args index th_id st sq,
    seqs st !! index = Some sq ->
    (index < length (nonZero st))%nat -> (index < length (percentNonZero st))%nat ->
    0 <= merLen args < 2 ^ 16 ->
    let after := processSeq getCount log10 uint16_undefined args index th_id st in
    (seqLengthOf sq < merLen args -> percentNonZero after !! index = Some 0%float)
    ∧ (merLen args <= seqLengthOf sq ->
       percentNonZero after !! index
       = Some (PrimFloat.div 1%float (double_of_int (seqLengthOf sq)))).

(** * Theorems *)

(** ** The window loop *)

Section WindowLoop.

Variable getCount : bool -> string -> Z.
Variable args : Args.

Lemma count_loop_prefix (sq : string) (n j : nat) :
  (j <= n)%nat ->
  (foldl (count_step getCount args sq) (replicate n 0, 0) (seq 0 j)).1
  = (kmerCount getCount args sq <$> seq 0 j) ++ replicate (n - j) 0.
Proof.
  induction j as [|j IH]; intros Hj.
  - simpl. by rewrite Nat.sub_0_r.
  - rewrite seq_S, foldl_snoc, fmap_app. simpl.
    specialize (IH ltac:(lia)).
    destruct (foldl _ _ (seq 0 j)) as [vec sum]. simpl in IH. subst vec.
    assert (Hlen : length (kmerCount getCount args sq <$> seq 0 j) = j)
      by (by rewrite length_fmap, length_seq).
    replace (n - j)%nat with (S (n - S j)) by lia.
    generalize dependent (kmerCount getCount args sq <$> seq 0 j).
    intros done_ Hlen.
    unfold count_step, kmerCount, window.
    destruct (validKmer _); simpl;
      (rewrite insert_app_r_alt by lia);
      rewrite Hlen, Nat.sub_diag; simpl;
      by rewrite <- app_assoc.
Qed.

Lemma countKmers_counts (sq : string) (nbCounts : Z) :
  (countKmers getCount args sq nbCounts).1
  = kmerCount getCount args sq <$> seq 0 (Z.to_nat nbCounts).
Proof.
  unfold countKmers. rewrite count_loop_prefix by lia.
  by rewrite Nat.sub_diag, app_nil_r.
Qed.

Lemma countKmers_lookup (sq : string) (nbCounts : Z) (i : nat) :
  (i < Z.to_nat nbCounts)%nat ->
  (countKmers getCount args sq nbCounts).1 !! i = Some (kmerCount getCount args sq i).
Proof.
  intros Hi. rewrite countKmers_counts, list_lookup_fmap, lookup_seq_lt by done.
  done.
Qed.

End WindowLoop.

Lemma validKmer_forallb (merstr : string) :
  validKmer merstr = string_forallb isACGT merstr.
Proof.
  induction merstr as [|c rest IH]; simpl; [done|].
  rewrite IH. by destruct (isACGT c).
Qed.

Lemma isACGT_nocase_of_isACGT (c : ascii) : isACGT c = true -> isACGT_nocase c = true.
Proof. unfold isACGT_nocase. intros ->. done. Qed.

Lemma forallb_nocase_of_upper (s : string) :
  string_forallb isACGT s = true -> string_forallb isACGT_nocase s = true.
Proof.
  induction s as [|c rest IH]; simpl; [done|].
  intros [Hc Hrest]%andb_prop.
  by rewrite (isACGT_nocase_of_isACGT _ Hc), IH.
Qed.

(** The number of windows does not wrap when the sequence is at least as
    long as a k-mer. *)
Lemma nbCounts_no_wrap (args : Args) (sq : string) :
  fits_size_t sq -> 0 <= merLen args <= Z.of_nat (String.length sq) ->
  Z.to_nat (uint64 (Z.of_nat (String.length sq) - merLen args + 1)) = nbWindows args sq.
Proof.
  unfold fits_size_t, nbWindows, uint64. intros Hfit Hk.
  rewrite Z.mod_small by lia. done.
Qed.

(** ** What [processSeq] computes for one sequence *)

Section PerSequence.

Variable getCount : bool -> string -> Z.
Variable log10 : float -> float.
Variable uint16_undefined : float -> Z.
Variable args : Args.

Lemma processSeq_unfold (index th_id : nat) (st : Sect) :
  let sq := default EmptyString (seqs st !! index) in
  processSeq getCount log10 uint16_undefined args index th_id st =
  {| names := names st; seqs := seqs st;
     counts := if isShort args sq then counts st
               else <[index := Some (seqCountsOf getCount args sq)]> (counts st);
     coverages := if isShort args sq then coverages st
                  else <[index := averageCvgOf getCount args sq]> (coverages st);
     gcs := <[index := gcPerc sq]> (gcs st);
     lengths := <[index := uint32 (seqLengthOf sq)]> (lengths st);
     nonZero := <[index := uint32 (nbNonZeroOf args sq)]> (nonZero st);
     percentNonZero := <[index := percentNonZeroOf args sq]> (percentNonZero st);
     contamination_mx :=
       ThreadedSparseMatrix.incTM th_id (binOf getCount log10 uint16_undefined args sq).1 (binOf getCount log10 uint16_undefined args sq).2 (seqLengthOf sq)
                                  (contamination_mx st);
     cerr := if isShort args sq
             then cerr st ++ [TooShort (default EmptyString (names st !! index)) sq
                                       (seqLengthOf sq) (merLen args)]
             else cerr st |}.
Proof.
  intros sq. unfold processSeq. fold sq.
  unfold binOf, percentNonZeroOf, nbNonZeroOf, averageCvgOf, seqCountsOf,
    nbCountsOf, isShort, seqLengthOf.
  destruct (Z.of_nat (String.length sq) <? merLen args); [reflexivity|].
  destruct (countKmers _ _ _ _) as [vec sum]. reflexivity.
Qed.

End PerSequence.

(** ** The interlaced partition *)

Lemma interlaced_indices_enough (step : nat) :
  (1 <= step)%nat ->
  forall fuel fuel' i end_, (end_ - i <= fuel)%nat -> (end_ - i <= fuel')%nat ->
    interlaced_indices fuel i end_ step = interlaced_indices fuel' i end_ step.
Proof.
  intros Hstep fuel.
  induction fuel as [|fuel IH]; intros fuel' i end_ Hfuel Hfuel'.
  - destruct fuel' as [|fuel']; [done|]. simpl.
    by replace (i <? end_)%nat with false by (symmetry; apply Nat.ltb_ge; lia).
  - simpl. destruct (i <? end_)%nat eqn:Hlt.
    + apply Nat.ltb_lt in Hlt. destruct fuel' as [|fuel']; [lia|].
      simpl. apply Nat.ltb_lt in Hlt as ->. f_equal. apply IH; lia.
    + destruct fuel' as [|fuel']; [done|]. simpl. by rewrite Hlt.
Qed.

Lemma interlaced_indices_elem (step : nat) :
  (1 <= step)%nat ->
  forall fuel i end_ j, (end_ - i <= fuel)%nat ->
    j ∈ interlaced_indices fuel i end_ step
    <-> (j < end_)%nat ∧ ∃ q : nat, j = (i + q * step)%nat.
Proof.
  intros Hstep fuel. induction fuel as [|fuel IH]; intros i end_ j Hfuel.
  - simpl. split; [by intros ?%elem_of_nil|]. intros [Hj [q ->]]. lia.
  - simpl. destruct (i <? end_)%nat eqn:Hlt.
    + apply Nat.ltb_lt in Hlt. rewrite elem_of_cons, IH by lia. split.
      * intros [->|[Hj [q ->]]]; [split; [done|exists 0%nat; lia]|].
        split; [done|]. exists (S q). lia.
      * intros [Hj [q ->]]. destruct q as [|q]; [left; lia|].
        right. split; [done|]. exists q. lia.
    + apply Nat.ltb_ge in Hlt. split; [by intros ?%elem_of_nil|].
      intros [Hj [q ->]]. lia.
Qed.

Lemma interlaced_indices_lower (step fuel : nat) :
  forall i end_ j, j ∈ interlaced_indices fuel i end_ step -> (i <= j)%nat.
Proof.
  induction fuel as [|fuel IH]; intros i end_ j; simpl; [by intros ?%elem_of_nil|].
  destruct (i <? end_)%nat; [|by intros ?%elem_of_nil].
  intros [->|Hin]%elem_of_cons; [done|]. apply IH in Hin. lia.
Qed.

Lemma interlaced_indices_NoDup (step : nat) :
  (1 <= step)%nat ->
  forall fuel i end_, NoDup (interlaced_indices fuel i end_ step).
Proof.
  intros Hstep fuel. induction fuel as [|fuel IH]; intros i end_; simpl.
  - constructor.
  - destruct (i <? end_)%nat; [|constructor].
    constructor; [|apply IH].
    intros Hin%interlaced_indices_lower. lia.
Qed.

Lemma workerIndices_elem (nthreads n th_id j : nat) :
  (th_id < nthreads)%nat ->
  j ∈ workerIndices nthreads n th_id <-> (j < n)%nat ∧ (j mod nthreads = th_id)%nat.
Proof.
  intros Ht. unfold workerIndices.
  rewrite interlaced_indices_elem by lia. split.
  - intros [Hj [q ->]]. split; [done|].
    rewrite Nat.Div0.mod_add. by apply Nat.mod_small.
  - intros [Hj Hmod]. split; [done|]. exists (j / nthreads)%nat.
    pose proof (Nat.div_mod_eq j nthreads). lia.
Qed.

(** ** A batch as a sequence of [processSeq] calls *)

Section Batch.

Variable getCount : bool -> string -> Z.
Variable log10 : float -> float.
Variable uint16_undefined : float -> Z.
Variable args : Args.

Local Abbreviation processSeq' := (processSeq getCount log10 uint16_undefined args).
Local Abbreviation runSchedule' := (runSchedule getCount log10 uint16_undefined args).

Lemma runSchedule_app (l1 l2 : list (nat * nat)) (st : Sect) :
  runSchedule' (l1 ++ l2) st = runSchedule' l2 (runSchedule' l1 st).
Proof. apply foldl_app. Qed.

Lemma names_processSeq (index th_id : nat) (st : Sect) :
  names (processSeq' index th_id st) = names st.
Proof. by rewrite processSeq_unfold. Qed.

Lemma seqs_processSeq (index th_id : nat) (st : Sect) :
  seqs (processSeq' index th_id st) = seqs st.
Proof. by rewrite processSeq_unfold. Qed.

Lemma names_runSchedule (l : list (nat * nat)) (st : Sect) :
  names (runSchedule' l st) = names st.
Proof.
  revert st. induction l as [|c l IH]; intros st; [done|].
  simpl. by rewrite IH, names_processSeq.
Qed.

Lemma seqs_runSchedule (l : list (nat * nat)) (st : Sect) :
  seqs (runSchedule' l st) = seqs st.
Proof.
  revert st. induction l as [|c l IH]; intros st; [done|].
  simpl. by rewrite IH, seqs_processSeq.
Qed.

Lemma interlaced_loop_schedule (fuel i end_ th_id : nat) (st : Sect) :
  interlaced_loop getCount log10 uint16_undefined args fuel i end_ th_id st
  = runSchedule' ((fun index => (index, th_id))
                   <$> interlaced_indices fuel i end_ (threads args)) st.
Proof.
  revert i st. induction fuel as [|fuel IH]; intros i st; [done|].
  simpl. destruct (i <? end_)%nat; [|done].
  simpl. apply IH.
Qed.

Lemma analyseBatchSlice_schedule (th_id : nat) (st : Sect) :
  analyseBatchSlice getCount log10 uint16_undefined args th_id st
  = runSchedule' ((fun index => (index, th_id))
                   <$> workerIndices (threads args) (recordsInBatch st) th_id) st.
Proof.
  unfold analyseBatchSlice, processInterlaced, workerIndices.
  destruct (_ && _) eqn:Hret; [|apply interlaced_loop_schedule].
  apply andb_prop in Hret as [_ Hge]. apply Nat.leb_le in Hge.
  destruct (recordsInBatch st) as [|n]; [done|].
  simpl. by replace (th_id <? S n)%nat with false
    by (symmetry; apply Nat.ltb_ge; lia).
Qed.

Lemma analyseBatch_workers (ts : list nat) (st : Sect) :
  foldl (fun st th_id =>
           analyseBatchSlice getCount log10 uint16_undefined args th_id st) st ts
  = runSchedule' (th_id ← ts;
                 (fun index => (index, th_id))
                   <$> workerIndices (threads args) (recordsInBatch st) th_id) st.
Proof.
  revert st. induction ts as [|t ts IH]; intros st; [done|].
  simpl. rewrite runSchedule_app, <- analyseBatchSlice_schedule, IH.
  by unfold recordsInBatch; rewrite analyseBatchSlice_schedule, names_runSchedule.
Qed.

(** [analyseBatch] makes exactly the calls of the schedule. *)
Lemma analyseBatch_schedule (st : Sect) :
  analyseBatch getCount log10 uint16_undefined args st
  = runSchedule' (schedule (threads args) (recordsInBatch st)) st.
Proof. apply analyseBatch_workers. Qed.

(** *** The result slots after a sequence of calls *)

Section Slots.

Context {A : Type} (g : Sect -> list A) (w : string -> option A).

Hypothesis g_step : forall index th_id st,
  g (processSeq' index th_id st)
  = match w (default EmptyString (seqs st !! index)) with
    | Some v => <[index := v]> (g st)
    | None => g st
    end.

Lemma slot_length (l : list (nat * nat)) (st : Sect) :
  length (g (runSchedule' l st)) = length (g st).
Proof.
  induction l as [|c l IH] using rev_ind; [done|].
  rewrite runSchedule_app. simpl. rewrite g_step.
  destruct (w _); [rewrite length_insert|]; exact IH.
Qed.

Lemma slot_lookup (l : list (nat * nat)) (st : Sect) (j : nat) :
  (j < length (g st))%nat ->
  g (runSchedule' l st) !! j
  = if decide (j ∈ l.*1)
    then match w (default EmptyString (seqs st !! j)) with
         | Some v => Some v
         | None => g st !! j
         end
    else g st !! j.
Proof.
  intros Hj. induction l as [|[i t] l IH] using rev_ind.
  - case_decide as Hin; [by apply elem_of_nil in Hin|done].
  - rewrite runSchedule_app. simpl. rewrite g_step, seqs_runSchedule.
    assert (Hiff : j ∈ (l ++ [(i, t)]).*1 <-> j ∈ l.*1 ∨ j = i).
    { rewrite fmap_app, elem_of_app. simpl. by rewrite list_elem_of_singleton. }
    destruct (decide (i = j)) as [->|Hne].
    + rewrite decide_True by (apply Hiff; by right).
      destruct (w (default EmptyString (seqs st !! j))) as [v|] eqn:Hw.
      * apply list_lookup_insert_eq. by rewrite slot_length.
      * rewrite IH. by destruct (decide (j ∈ l.*1)).
    + destruct (w (default EmptyString (seqs st !! i)));
        [rewrite list_lookup_insert_ne by done|]; rewrite IH;
        destruct (decide (j ∈ l.*1)), (decide (j ∈ (l ++ [(i, t)]).*1));
        try done; exfalso; destruct Hiff; intuition congruence.
Qed.

End Slots.

End Batch.

(** ** The results of one batch *)

Lemma schedule_elem (nthreads n j t : nat) :
  (j, t) ∈ schedule nthreads n
  <-> (t < nthreads)%nat ∧ (j < n)%nat ∧ (j mod nthreads = t)%nat.
Proof.
  unfold schedule. rewrite list_elem_of_bind. split.
  - intros (t' & Hin & Ht'). apply elem_of_seq in Ht'.
    apply list_elem_of_fmap in Hin as (j' & [= -> ->] & Hj').
    apply workerIndices_elem in Hj'; [|lia]. lia.
  - intros (Ht & Hj & Hmod). exists t. split.
    + apply list_elem_of_fmap. exists j. split; [done|].
      apply workerIndices_elem; [done|]. done.
    + apply elem_of_seq. lia.
Qed.

Lemma schedule_covers (nthreads n j : nat) :
  (1 <= nthreads)%nat -> (j < n)%nat -> j ∈ (schedule nthreads n).*1.
Proof.
  intros HT Hj. apply list_elem_of_fmap. exists (j, j mod nthreads)%nat.
  split; [done|]. apply schedule_elem.
  split; [apply Nat.mod_upper_bound; lia|done].
Qed.

Section BatchResults.

Variable getCount : bool -> string -> Z.
Variable log10 : float -> float.
Variable uint16_undefined : float -> Z.
Variable args : Args.

Local Abbreviation batchDone' := (batchDone getCount log10 uint16_undefined args).

Lemma recordsInBatch_start (batch : list (string * string)) (st : Sect) :
  recordsInBatch (batchStart batch st) = length batch.
Proof. unfold recordsInBatch. simpl. by rewrite length_fmap. Qed.

Lemma batchDone_schedule (batch : list (string * string)) (st : Sect) :
  batchDone' batch st
  = runSchedule getCount log10 uint16_undefined args
      (schedule (threads args) (length batch)) (batchStart batch st).
Proof.
  unfold batchDone. by rewrite analyseBatch_schedule, recordsInBatch_start.
Qed.

Lemma names_batchDone (batch : list (string * string)) (st : Sect) :
  names (batchDone' batch st) = batch.*1.
Proof. by rewrite batchDone_schedule, names_runSchedule. Qed.

Lemma seq_of_record (batch : list (string * string)) (st : Sect) (j : nat)
    (record : string * string) :
  batch !! j = Some record ->
  default EmptyString (seqs (batchStart batch st) !! j) = record.2.
Proof. intros Hj. simpl. by rewrite list_lookup_fmap, Hj. Qed.

(** One instance of [slot_lookup] per result vector. *)
Ltac slot_of_batch w Hj HT :=
  rewrite batchDone_schedule;
  rewrite (slot_lookup getCount log10 uint16_undefined args _ w)
    by first [ intros; rewrite processSeq_unfold; simpl;
               try (destruct (isShort _ _)); reflexivity
             | simpl; rewrite length_replicate; unfold recordsInBatch; simpl;
               rewrite length_fmap; by apply lookup_lt_Some in Hj ];
  rewrite decide_True
    by (apply schedule_covers; [exact HT | by apply lookup_lt_Some in Hj]);
  rewrite (seq_of_record _ _ _ _ Hj).

Lemma lengths_batchDone batch st j record :
  (1 <= threads args)%nat -> batch !! j = Some record ->
  lengths (batchDone' batch st) !! j = Some (uint32 (seqLengthOf record.2)).
Proof.
  intros HT Hj.
  slot_of_batch (fun sq => Some (uint32 (seqLengthOf sq))) Hj HT. done.
Qed.

Lemma nonZero_batchDone batch st j record :
  (1 <= threads args)%nat -> batch !! j = Some record ->
  nonZero (batchDone' batch st) !! j = Some (uint32 (nbNonZeroOf args record.2)).
Proof.
  intros HT Hj.
  slot_of_batch (fun sq => Some (uint32 (nbNonZeroOf args sq))) Hj HT. done.
Qed.

Lemma percentNonZero_batchDone batch st j record :
  (1 <= threads args)%nat -> batch !! j = Some record ->
  percentNonZero (batchDone' batch st) !! j = Some (percentNonZeroOf args record.2).
Proof.
  intros HT Hj.
  slot_of_batch (fun sq => Some (percentNonZeroOf args sq)) Hj HT. done.
Qed.

Lemma gcs_batchDone batch st j record :
  (1 <= threads args)%nat -> batch !! j = Some record ->
  gcs (batchDone' batch st) !! j = Some (gcPerc record.2).
Proof.
  intros HT Hj.
  slot_of_batch (fun sq => Some (gcPerc sq)) Hj HT. done.
Qed.

Lemma coverages_batchDone batch st j record :
  (1 <= threads args)%nat -> batch !! j = Some record ->
  coverages (batchDone' batch st) !! j = Some (averageCvgOf getCount args record.2).
Proof.
  intros HT Hj.
  slot_of_batch (fun sq => if isShort args sq then None
                           else Some (averageCvgOf getCount args sq)) Hj HT.
  unfold averageCvgOf. destruct (isShort args record.2); [|done].
  simpl. apply lookup_replicate_2. unfold recordsInBatch. simpl.
  rewrite length_fmap. by apply lookup_lt_Some in Hj.
Qed.

Lemma counts_batchDone batch st j record :
  (1 <= threads args)%nat -> batch !! j = Some record ->
  counts (batchDone' batch st) !! j = Some (countsOf getCount args record.2).
Proof.
  intros HT Hj.
  slot_of_batch (fun sq => if isShort args sq then None
                           else Some (Some (seqCountsOf getCount args sq))) Hj HT.
  unfold countsOf. destruct (isShort args record.2); [|done].
  simpl. apply lookup_replicate_2. unfold recordsInBatch. simpl.
  rewrite length_fmap. by apply lookup_lt_Some in Hj.
Qed.

(** The statistics table lists the records in the order of the input. *)
Lemma printStatTable_batchDone batch st :
  (1 <= threads args)%nat ->
  printStatTable (batchDone' batch st) = statOf getCount args <$> batch.
Proof.
  intros HT. unfold printStatTable, recordsInBatch.
  rewrite names_batchDone, length_fmap.
  apply list_eq. intros i. rewrite !list_lookup_fmap.
  destruct (batch !! i) as [record|] eqn:Hi.
  - rewrite lookup_seq_lt by (by apply lookup_lt_Some in Hi). simpl.
    unfold statRow.
    rewrite names_batchDone, list_lookup_fmap, Hi.
    rewrite (coverages_batchDone _ _ _ _ HT Hi), (gcs_batchDone _ _ _ _ HT Hi),
      (lengths_batchDone _ _ _ _ HT Hi), (nonZero_batchDone _ _ _ _ HT Hi),
      (percentNonZero_batchDone _ _ _ _ HT Hi).
    done.
  - rewrite lookup_seq_ge by (by apply lookup_ge_None in Hi). done.
Qed.

Lemma printCounts_batchDone batch st :
  (1 <= threads args)%nat ->
  printCounts (batchDone' batch st) = batch ≫= countsOutputOf getCount args.
Proof.
  intros HT. unfold printCounts, recordsInBatch.
  rewrite names_batchDone, length_fmap.
  assert (Hgen : forall (pre post : list (string * string)),
             batch = pre ++ post ->
             (seq (length pre) (length post) ≫= fun i =>
                [ (">" ++ default EmptyString (batch.*1 !! i))%string;
                  countsLine (default None (counts (batchDone' batch st) !! i)) ])
             = post ≫= countsOutputOf getCount args).
  { intros pre post. revert pre.
    induction post as [|record post IH]; intros pre Heq; [done|].
    assert (Hi : batch !! length pre = Some record)
      by (by rewrite Heq, list_lookup_middle).
    simpl. rewrite list_lookup_fmap, Hi, (counts_batchDone _ _ _ _ HT Hi).
    simpl. do 2 f_equal.
    specialize (IH (pre ++ [record])). rewrite length_app in IH. simpl in IH.
    rewrite Nat.add_1_r in IH. apply IH. by rewrite <- app_assoc. }
  apply (Hgen [] batch). done.
Qed.

End BatchResults.

(** ** Doubles over the range of a [uint16_t] *)

Lemma all_bits_spec (depth : nat) :
  forall prefix f, all_bits depth prefix f = true ->
  forall n, prefix * 2 ^ Z.of_nat depth <= n < (prefix + 1) * 2 ^ Z.of_nat depth ->
            f n = true.
Proof.
  induction depth as [|d IH]; intros p f H n Hn.
  - simpl in *. by replace n with p by lia.
  - cbn [all_bits] in H. apply andb_prop in H as [H1 H2].
    rewrite Nat2Z.inj_succ, Z.pow_succ_r in Hn by lia.
    destruct (Z_lt_dec n ((2 * p + 1) * 2 ^ Z.of_nat d)).
    + apply (IH _ _ H1). lia.
    + apply (IH _ _ H2). lia.
Qed.

Lemma uint16_double_checked : all_bits 16 0 uint16_double_check = true.
Proof. vm_cast_no_check (eq_refl true). Qed.

Lemma uint16_double_facts (n : Z) :
  0 <= n < 2 ^ 16 ->
  truncate (PrimFloat.mul 1%float (double_of_int n)) = Some n
  ∧ truncate (double_of_int n) = Some n
  ∧ is_nonneg_finite (double_of_int n) = true
  ∧ (n ≠ 0 ->
     PrimFloat.div 0%float (double_of_int n) = 0%float
     ∧ PrimFloat.mul neg_infinity (PrimFloat.div (double_of_int n) five)
       = neg_infinity).
Proof.
  intros Hn.
  pose proof (all_bits_spec 16 0 _ uint16_double_checked n ltac:(simpl; lia)) as H.
  unfold uint16_double_check in H. cbv zeta in H.
  apply andb_prop in H as [H H4]. apply andb_prop in H as [H H3].
  apply andb_prop in H as [H1 H2].
  repeat split.
  - clear -H1. unfold option_Z_eqb in H1. destruct (truncate _); [|done].
    apply Z.eqb_eq in H1. by subst.
  - clear -H2. unfold option_Z_eqb in H2. destruct (truncate _); [|done].
    apply Z.eqb_eq in H2. by subst.
  - exact H3.
  - apply orb_prop in H4 as [H4|H4]; [by apply Z.eqb_eq in H4|].
    apply andb_prop in H4 as [H4 _]. by apply Leibniz.eqb_spec.
  - apply orb_prop in H4 as [H4|H4]; [by apply Z.eqb_eq in H4|].
    apply andb_prop in H4 as [_ H4]. by apply Leibniz.eqb_spec.
Qed.

(** A double that is zero or positive is not below a negative double, nor
    below or equal to minus infinity or a NaN. *)
Lemma leb_nonneg_negative (d v : float) :
  is_nonneg_finite d = true ->
  (exists m e, Prim2SF v = S754_finite true m e) ∨ v = neg_infinity ∨ v = nan ->
  PrimFloat.leb d v = false.
Proof.
  unfold is_nonneg_finite. intros Hd Hv. rewrite FloatAxioms.leb_spec.
  destruct Hv as [(m & e & ->)|[-> | ->]].
  - by destruct (Prim2SF d) as [?|?| |[] ? ?].
  - replace (Prim2SF neg_infinity) with (S754_infinity true) by reflexivity.
    by destruct (Prim2SF d) as [?|?| |[] ? ?].
  - replace (Prim2SF nan) with S754_nan by reflexivity.
    by destruct (Prim2SF d) as [?|?| |[] ? ?].
Qed.

Lemma truncate_negative (v : float) (z : Z) :
  truncate v = Some z -> z < 0 -> exists m e, Prim2SF v = S754_finite true m e.
Proof.
  unfold truncate.
  destruct (Prim2SF v) as [?|?| |[] m e]; intros [= <-] Hz; try lia;
    [by eauto|].
  exfalso. destruct (0 <=? e) eqn:He.
  - apply Z.leb_le in He.
    pose proof (Z.pow_pos_nonneg 2 e ltac:(lia) He). nia.
  - apply Z.leb_gt in He.
    pose proof (Z.pow_pos_nonneg 2 (- e) ltac:(lia) ltac:(lia)) as Hpow.
    pose proof (Z.div_pos (Z.pos m) (2 ^ (- e)) ltac:(lia) Hpow). lia.
Qed.

Lemma truncate_not_finite (v : float) : is_finite v = false -> truncate v = None.
Proof. unfold is_finite, truncate. by destruct (Prim2SF v). Qed.

(** A product with minus infinity or a NaN is not finite. *)
Lemma mul_not_finite (x y : float) :
  x = neg_infinity ∨ x = nan -> is_finite (PrimFloat.mul x y) = false.
Proof.
  intros Hx. unfold is_finite. rewrite mul_spec.
  destruct Hx as [-> | ->].
  - replace (Prim2SF neg_infinity) with (S754_infinity true) by reflexivity.
    by destruct (Prim2SF y).
  - replace (Prim2SF nan) with S754_nan by reflexivity. done.
Qed.

Lemma mul_nan (y : float) : PrimFloat.mul nan y = nan.
Proof.
  apply Prim2SF_inj. rewrite mul_spec.
  replace (Prim2SF nan) with S754_nan by reflexivity. done.
Qed.

(** ** The GC bin *)

Lemma uint16_of_double_defined (ud : float -> Z) (v : float) (z : Z) :
  truncate v = Some z -> 0 <= z < 2 ^ 16 -> uint16_of_double ud v = z.
Proof.
  intros Hv Hz. unfold uint16_of_double. rewrite Hv.
  replace (0 <=? z) with true by (symmetry; apply Z.leb_le; lia).
  replace (z <=? 65535) with true by (symmetry; apply Z.leb_le; lia).
  done.
Qed.

Lemma uint16_of_double_undefined (ud : float -> Z) (v : float) :
  is_finite v = false -> uint16_of_double ud v = ud v.
Proof.
  intros Hv. unfold uint16_of_double. by rewrite truncate_not_finite.
Qed.

(** C5: the GC bin is [gcFraction * gcBins] truncated, with no upper
    clamp: whatever integer in the range of [uint16_t] the product truncates
    to is the bin, and for a sequence whose GC fraction is exactly [1.0]
    the bin is [gcBins], which is not an index of the [gcBins] x [cvgBins]
    grid; [processSeq] increments that cell. *)
Theorem gc_bin_reaches_gcBins
    (getCount : bool -> string -> Z) (log10 : float -> float)
    (uint16_undefined : float -> Z) (args : Args) (sq : string) :
  0 <= gcBins args < 2 ^ 16 ->
  gcPerc sq = 1%float ->
  (forall gc z,
      truncate (PrimFloat.mul gc (double_of_int (gcBins args))) = Some z ->
      0 <= z < 2 ^ 16 -> gcBin uint16_undefined args gc = z)
  ∧ gcBin uint16_undefined args (gcPerc sq) = gcBins args
  ∧ ¬ ThreadedSparseMatrix.in_grid (gcBins args) (cvgBins args)
        (binOf getCount log10 uint16_undefined args sq)
  ∧ forall index th_id st,
      seqs st !! index = Some sq ->
      contamination_mx (processSeq getCount log10 uint16_undefined args index th_id st)
      = ThreadedSparseMatrix.incTM th_id (gcBins args)
          (binOf getCount log10 uint16_undefined args sq).2
          (seqLengthOf sq) (contamination_mx st).
Proof.
  intros Hbins Hgc.
  assert (Hx : gcBin uint16_undefined args (gcPerc sq) = gcBins args).
  { unfold gcBin. rewrite Hgc. apply uint16_of_double_defined; [|done].
    by apply uint16_double_facts. }
  split; [|split; [|split]].
  - intros gc z Hz Hrange. unfold gcBin. by apply uint16_of_double_defined.
  - exact Hx.
  - unfold ThreadedSparseMatrix.in_grid, binOf. simpl. rewrite Hx. lia.
  - intros index th_id st Hsq. rewrite processSeq_unfold. simpl.
    rewrite Hsq. simpl. by rewrite Hx.
Qed.

Lemma gc_bin_reaches_gcBins_witness :
  gcBin undefined_is_zero (defaultArgs 2) (gcPerc "GGCC") = 1001.
Proof.
  apply (gc_bin_reaches_gcBins (constCount 7) log10_nonpositive undefined_is_zero
           (defaultArgs 2) "GGCC").
  - simpl. lia.
  - vm_compute. reflexivity.
Defined.

(** ** The coverage bin *)

(** C6: the value binned on the coverage axis is
    [log10 (coverage) * (cvgBins / 5.0)] in log-scale mode and
    [coverage * 0.1] otherwise; a value of at least [cvgBins] goes to bin
    [cvgBins - 1]; any other value is converted as it is, so a negative one
    has no defined bin; and in log-scale mode a coverage of zero or below,
    whose [log10] is minus infinity or a NaN, gives a value that is not
    finite, converted as it is. *)
Theorem coverage_bin_clamped_above_only
    (log10 : float -> float) (uint16_undefined : float -> Z) (args : Args) :
  1 <= cvgBins args < 2 ^ 16 ->
  (forall c, PrimFloat.leb c 0%float = true ->
             log10 c = neg_infinity ∨ log10 c = nan) ->
  (forall avg,
      compressedCvg log10 args avg
      = if cvgLogscale args
        then PrimFloat.mul (log10 avg)
               (PrimFloat.div (double_of_int (cvgBins args)) five)
        else PrimFloat.mul avg tenth)
  ∧ (forall v, PrimFloat.leb (double_of_int (cvgBins args)) v = true ->
               cvgBin uint16_undefined args v = cvgBins args - 1)
  ∧ (forall v, PrimFloat.leb (double_of_int (cvgBins args)) v = false ->
               cvgBin uint16_undefined args v = uint16_of_double uint16_undefined v)
  ∧ (forall v z, truncate v = Some z -> z < 0 ->
                 cvgBin uint16_undefined args v = uint16_undefined v)
  ∧ (cvgLogscale args = true ->
     forall avg, PrimFloat.leb avg 0%float = true ->
       is_finite (compressedCvg log10 args avg) = false
       ∧ cvgBin uint16_undefined args (compressedCvg log10 args avg)
         = uint16_undefined (compressedCvg log10 args avg)).
Proof.
  intros Hbins Hlog.
  destruct (uint16_double_facts (cvgBins args) ltac:(lia)) as (_ & _ & Hpos & Hinf).
  destruct (Hinf ltac:(lia)) as [_ Hminf].
  repeat split.
  - intros avg. unfold compressedCvg. by destruct (cvgLogscale args).
  - intros v Hv. unfold cvgBin. rewrite Hv.
    apply uint16_of_double_defined; [|lia].
    apply uint16_double_facts. lia.
  - intros v Hv. unfold cvgBin. by rewrite Hv.
  - intros v z Hv Hz. unfold cvgBin.
    rewrite leb_nonneg_negative;
      [|exact Hpos|left; exact (truncate_negative v z Hv Hz)].
    unfold uint16_of_double. rewrite Hv.
    by replace (0 <=? z) with false by (symmetry; apply Z.leb_gt; lia).
  - unfold compressedCvg. rewrite H. by apply mul_not_finite, Hlog.
  - assert (Hc : compressedCvg log10 args avg = neg_infinity
                 ∨ compressedCvg log10 args avg = nan).
    { unfold compressedCvg. rewrite H.
      destruct (Hlog avg H0) as [-> | ->];
        [left; exact Hminf|right; apply mul_nan]. }
    unfold cvgBin. rewrite leb_nonneg_negative; [|exact Hpos|by right].
    apply uint16_of_double_undefined.
    by destruct Hc as [-> | ->].
Qed.

Lemma coverage_bin_clamped_above_only_witness :
  cvgBin undefined_is_zero (logscaleArgs 2) 2000%float = 1001 - 1
  ∧ is_finite (compressedCvg log10_nonpositive (logscaleArgs 2) 0%float) = false.
Proof.
  assert (Hlog : forall c, PrimFloat.leb c 0%float = true ->
                   log10_nonpositive c = neg_infinity ∨ log10_nonpositive c = nan).
  { intros c Hc. unfold log10_nonpositive.
    destruct (PrimFloat.eqb c 0%float) eqn:Heq; [by left|].
    right. rewrite FloatAxioms.ltb_spec. rewrite FloatAxioms.leb_spec in Hc.
    rewrite FloatAxioms.eqb_spec in Heq.
    unfold SFltb, SFleb, SFeqb in *.
    by destruct (SFcompare (Prim2SF c) (Prim2SF 0%float)) as [[]|]. }
  pose proof (coverage_bin_clamped_above_only log10_nonpositive undefined_is_zero
                (logscaleArgs 2) ltac:(simpl; lia) Hlog)
    as (_ & Habove & _ & _ & Hnonfinite).
  split.
  - apply Habove. vm_compute. reflexivity.
  - apply Hnonfinite; reflexivity.
Defined.

(** ** The GC fraction *)

Lemma count_list_cons (p : ascii -> bool) (c : ascii) (l : list ascii) :
  count_list p (c :: l) = (if p c then 1 else 0) + count_list p l.
Proof.
  unfold count_list. rewrite filter_cons.
  destruct (decide (p c = true)) as [->|Hp]; simpl; [lia|].
  apply not_true_is_false in Hp. rewrite Hp. lia.
Qed.

Lemma count_list_range (p : ascii -> bool) (l : list ascii) :
  0 <= count_list p l <= Z.of_nat (length l).
Proof.
  unfold count_list. pose proof (length_filter (fun c => p c = true) l). lia.
Qed.

Lemma triple_eq (a b c a' b' c' : Z) :
  a = a' -> b = b' -> c = c' -> (a, b, c) = (a', b', c').
Proof. by intros -> -> ->. Qed.

Lemma gc_step_cases (gs cs ns : Z) (c : ascii) :
  gc_step (gs, cs, ns) c
  = if isG c then (uint64 (gs + 1), cs, ns)
    else if isC c then (gs, uint64 (cs + 1), ns)
    else if isN c then (gs, cs, uint64 (ns + 1))
    else (gs, cs, ns).
Proof. reflexivity. Qed.

(** A character is counted by at most one of the three counters. *)
Lemma gc_classes (c : ascii) :
  (isG c = true ∧ isC c = false ∧ isN c = false ∧ isOther c = false)
  ∨ (isG c = false ∧ isC c = true ∧ isN c = false ∧ isOther c = false)
  ∨ (isG c = false ∧ isC c = false ∧ isN c = true ∧ isOther c = false)
  ∨ (isG c = false ∧ isC c = false ∧ isN c = false ∧ isOther c = true).
Proof.
  unfold isOther.
  destruct (isG c) eqn:HG.
  { left. unfold isG, isC, isN in *.
    apply orb_prop in HG as [->%Ascii.eqb_eq | ->%Ascii.eqb_eq]; done. }
  destruct (isC c) eqn:HC.
  { right; left. unfold isG, isC, isN in *.
    apply orb_prop in HC as [->%Ascii.eqb_eq | ->%Ascii.eqb_eq]; done. }
  destruct (isN c) eqn:HN; [right; right; left|right; right; right]; done.
Qed.

Lemma gc_loop_counts (l : list ascii) :
  forall gs cs ns,
    0 <= gs -> 0 <= cs -> 0 <= ns ->
    gs + cs + ns + Z.of_nat (length l) < 2 ^ 64 ->
    foldl gc_step (gs, cs, ns) l
    = (gs + count_list isG l, cs + count_list isC l, ns + count_list isN l).
Proof.
  induction l as [|c l IH]; intros gs cs ns Hg Hc Hn Hsum.
  - unfold count_list. simpl. apply triple_eq; lia.
  - cbn [foldl]. rewrite gc_step_cases, !count_list_cons.
    simpl length in Hsum. unfold uint64.
    destruct (gc_classes c) as [H|[H|[H|H]]];
      destruct H as (-> & -> & -> & _);
      rewrite ?Z.mod_small by lia; rewrite IH by lia;
      apply triple_eq; lia.
Qed.

Lemma length_list_ascii_of_string (s : string) :
  length (list_ascii_of_string s) = String.length s.
Proof. induction s as [|c s IH]; simpl; [done|by rewrite IH]. Qed.

Lemma count_chars_list (p : ascii -> bool) (sq : string) :
  count_chars p sq = count_list p (list_ascii_of_string sq).
Proof. done. Qed.

Lemma gcCounts_spec (sq : string) :
  fits_size_t sq ->
  gcCounts sq = (count_chars isG sq, count_chars isC sq, count_chars isN sq).
Proof.
  unfold fits_size_t. intros Hfit. unfold gcCounts.
  rewrite gc_loop_counts; [by rewrite !count_chars_list|lia|lia|lia|].
  rewrite length_list_ascii_of_string. lia.
Qed.

(** The three counters and the others add up to the length. *)
Lemma count_list_partition (l : list ascii) :
  count_list isG l + count_list isC l + count_list isN l + count_list isOther l
  = Z.of_nat (length l).
Proof.
  induction l as [|c l IH]; [done|].
  rewrite !count_list_cons. simpl length.
  destruct (gc_classes c) as [H|[H|[H|H]]];
    destruct H as (-> & -> & -> & ->); lia.
Qed.

Lemma gcPerc_spec (sq : string) :
  fits_size_t sq ->
  gcPerc sq
  = PrimFloat.div
      (double_of_int (count_chars isG sq + count_chars isC sq))
      (double_of_int (Z.of_nat (String.length sq) - count_chars isN sq)).
Proof.
  intros Hfit. unfold gcPerc. rewrite gcCounts_spec by done.
  unfold fits_size_t in Hfit.
  pose proof (count_list_partition (list_ascii_of_string sq)) as Hpart.
  rewrite length_list_ascii_of_string in Hpart.
  rewrite <- !count_chars_list in Hpart.
  pose proof (count_list_range isG (list_ascii_of_string sq)).
  pose proof (count_list_range isC (list_ascii_of_string sq)).
  pose proof (count_list_range isN (list_ascii_of_string sq)).
  pose proof (count_list_range isOther (list_ascii_of_string sq)).
  rewrite <- !count_chars_list in *.
  unfold uint64. rewrite !Z.mod_small by lia. done.
Qed.

Lemma list_ascii_of_string_app (s1 s2 : string) :
  list_ascii_of_string (s1 ++ s2)
  = list_ascii_of_string s1 ++ list_ascii_of_string s2.
Proof. induction s1 as [|c s1 IH]; simpl; [done|by rewrite IH]. Qed.

Lemma string_length_app (s1 s2 : string) :
  String.length (s1 ++ s2) = (String.length s1 + String.length s2)%nat.
Proof. induction s1 as [|c s1 IH]; simpl; [done|by rewrite IH]. Qed.

Lemma gc_step_other (acc : Z * Z * Z) (c : ascii) :
  isOther c = true -> gc_step acc c = acc.
Proof.
  destruct acc as [[gs cs] ns]. rewrite gc_step_cases.
  unfold isOther. rewrite negb_true_iff, !orb_false_iff.
  by intros [[-> ->] ->].
Qed.

Lemma gcCounts_replace_other (s1 s2 : string) (c c' : ascii) :
  isOther c = true -> isOther c' = true ->
  gcCounts (s1 ++ String c s2) = gcCounts (s1 ++ String c' s2).
Proof.
  intros Hc Hc'. unfold gcCounts. rewrite !list_ascii_of_string_app.
  simpl. rewrite !foldl_app. simpl. by rewrite !gc_step_other.
Qed.

Lemma gcPerc_replace_other (s1 s2 : string) (c c' : ascii) :
  isOther c = true -> isOther c' = true ->
  gcPerc (s1 ++ String c s2) = gcPerc (s1 ++ String c' s2).
Proof.
  intros Hc Hc'. unfold gcPerc.
  rewrite (gcCounts_replace_other s1 s2 c c') by done.
  by rewrite !string_length_app.
Qed.

Lemma gcs_processSeq getCount log10 ud args index th_id st sq :
  seqs st !! index = Some sq -> (index < length (gcs st))%nat ->
  gcs (processSeq getCount log10 ud args index th_id st) !! index
  = Some (gcPerc sq).
Proof.
  intros Hsq Hi. rewrite processSeq_unfold. simpl. rewrite Hsq. simpl.
  by apply list_lookup_insert_eq.
Qed.

(** C8: the GC fraction stored for a sequence is [(gs + cs) / (length - ns)]
    in doubles, where [gs], [cs] and [ns] are the numbers of G or g, C or c
    and N or n in the sequence; it is 1.0 for GGCC, 0.0 for ATAT and 1.0
    for GGNN. *)
Theorem gc_fraction_formula :
  (forall sq, fits_size_t sq ->
     gcCounts sq = (count_chars isG sq, count_chars isC sq, count_chars isN sq)
     ∧ gcPerc sq
       = PrimFloat.div
           (double_of_int (count_chars isG sq + count_chars isC sq))
           (double_of_int (Z.of_nat (String.length sq) - count_chars isN sq)))
  ∧ (forall getCount log10 uint16_undefined args index th_id st sq,
       seqs st !! index = Some sq -> (index < length (gcs st))%nat ->
       gcs (processSeq getCount log10 uint16_undefined args index th_id st) !! index
       = Some (gcPerc sq))
  ∧ gcPerc "GGCC" = 1%float
  ∧ gcPerc "ATAT" = 0%float
  ∧ gcPerc "GGNN" = 1%float.
Proof.
  split; [|split; [|split; [|split]]].
  - intros sq Hfit. split; [by apply gcCounts_spec|by apply gcPerc_spec].
  - intros. by apply gcs_processSeq.
  - vm_compute. reflexivity.
  - vm_compute. reflexivity.
  - vm_compute. reflexivity.
Qed.

Lemma gc_fraction_formula_witness :
  gcCounts "GgNn"
  = (count_chars isG "GgNn"%string, count_chars isC "GgNn"%string,
     count_chars isN "GgNn"%string)
  ∧ gcPerc "GgNn"
    = PrimFloat.div
        (double_of_int (count_chars isG "GgNn"%string + count_chars isC "GgNn"%string))
        (double_of_int (Z.of_nat (String.length "GgNn")
                        - count_chars isN "GgNn"%string)).
Proof.
  apply (proj1 gc_fraction_formula "GgNn"%string).
  unfold fits_size_t. simpl. lia.
Defined.

(** C10: in the GC fraction a character other than G, g, C, c, N, n counts
    in the denominator and not in the numerator, exactly as an A or a T
    does: the denominator [length - ns] is the number of G, C and other
    characters, and replacing such a character by A or by T changes neither
    the counters nor the fraction.  R and Y are such characters; N and n
    are not. *)
Theorem gc_other_characters_as_AT :
  (forall sq, fits_size_t sq ->
     Z.of_nat (String.length sq) - count_chars isN sq
     = count_chars isG sq + count_chars isC sq + count_chars isOther sq
     ∧ gcPerc sq
       = PrimFloat.div
           (double_of_int (count_chars isG sq + count_chars isC sq))
           (double_of_int (count_chars isG sq + count_chars isC sq
                           + count_chars isOther sq)))
  ∧ (forall s1 s2 c, isOther c = true ->
       gcCounts (s1 ++ String c s2) = gcCounts (s1 ++ String "A" s2)
       ∧ gcPerc (s1 ++ String c s2) = gcPerc (s1 ++ String "A" s2)
       ∧ gcPerc (s1 ++ String c s2) = gcPerc (s1 ++ String "T" s2))
  ∧ (forall c, isOther c = true
               <-> c ≠ "G"%char ∧ c ≠ "g"%char ∧ c ≠ "C"%char ∧ c ≠ "c"%char
                   ∧ c ≠ "N"%char ∧ c ≠ "n"%char)
  ∧ gcPerc "GRYA" = gcPerc "GATA" ∧ gcPerc "GRYA" ≠ gcPerc "GNNA".
Proof.
  split; [|split; [|split; [|split]]].
  - intros sq Hfit.
    pose proof (count_list_partition (list_ascii_of_string sq)) as Hpart.
    rewrite length_list_ascii_of_string, <- !count_chars_list in Hpart.
    split; [lia|]. rewrite gcPerc_spec by done. do 2 f_equal. lia.
  - intros s1 s2 c Hc. repeat split.
    + by apply gcCounts_replace_other.
    + by apply gcPerc_replace_other.
    + by apply gcPerc_replace_other.
  - intros c. unfold isOther, isG, isC, isN.
    rewrite negb_true_iff, !orb_false_iff, !Ascii.eqb_neq. tauto.
  - vm_compute. reflexivity.
  - vm_compute. intros H. by apply Leibniz.eqb_spec in H.
Qed.

Lemma gc_other_characters_as_AT_witness :
  gcPerc ("G" ++ String "R" "C") = gcPerc ("G" ++ String "A" "C").
Proof.
  apply (proj1 (proj2 gc_other_characters_as_AT) "G"%string "C"%string "R"%char).
  reflexivity.
Defined.

(** ** The count vector and the coverage of one sequence *)

Section OneSequence.

Variable getCount : bool -> string -> Z.
Variable log10 : float -> float.
Variable uint16_undefined : float -> Z.
Variable args : Args.

Local Abbreviation processSeq' := (processSeq getCount log10 uint16_undefined args).

Lemma isShort_false (sq : string) :
  merLen args <= seqLengthOf sq -> isShort args sq = false.
Proof. intros H. unfold isShort. apply Z.ltb_ge. lia. Qed.

Lemma isShort_true (sq : string) :
  seqLengthOf sq < merLen args -> isShort args sq = true.
Proof. intros H. unfold isShort. by apply Z.ltb_lt. Qed.

Lemma counts_processSeq index th_id st sq :
  seqs st !! index = Some sq -> (index < length (counts st))%nat ->
  merLen args <= seqLengthOf sq ->
  counts (processSeq' index th_id st) !! index
  = Some (Some (seqCountsOf getCount args sq)).
Proof.
  intros Hsq Hi Hk. rewrite processSeq_unfold. simpl. rewrite Hsq. simpl.
  rewrite isShort_false by done. by apply list_lookup_insert_eq.
Qed.

Lemma coverages_processSeq index th_id st sq :
  seqs st !! index = Some sq -> (index < length (coverages st))%nat ->
  merLen args <= seqLengthOf sq ->
  coverages (processSeq' index th_id st) !! index
  = Some (averageCvgOf getCount args sq).
Proof.
  intros Hsq Hi Hk. rewrite processSeq_unfold. simpl. rewrite Hsq. simpl.
  rewrite isShort_false by done. by apply list_lookup_insert_eq.
Qed.

Lemma seqCountsOf_spec (sq : string) :
  fits_size_t sq -> 0 <= merLen args <= seqLengthOf sq ->
  seqCountsOf getCount args sq
  = kmerCount getCount args sq <$> seq 0 (nbWindows args sq).
Proof.
  intros Hfit Hk. unfold seqCountsOf, nbCountsOf, seqLengthOf.
  rewrite countKmers_counts. by rewrite nbCounts_no_wrap.
Qed.

Lemma length_seqCountsOf (sq : string) :
  fits_size_t sq -> 0 <= merLen args <= seqLengthOf sq ->
  length (seqCountsOf getCount args sq) = nbWindows args sq.
Proof.
  intros Hfit Hk. rewrite seqCountsOf_spec by done.
  by rewrite length_fmap, length_seq.
Qed.

Lemma nbWindows_pos (sq : string) :
  0 <= merLen args <= seqLengthOf sq -> (1 <= nbWindows args sq)%nat.
Proof. unfold nbWindows, seqLengthOf. lia. Qed.

End OneSequence.

(** The median of the code is the element at index [size / 2] of any
    ascending rearrangement. *)
Lemma sortedSeqCounts_unique (vec sorted : list Z) :
  Sorted Z.le sorted -> sorted ≡ₚ vec -> sorted = sortedSeqCounts vec.
Proof.
  intros Hsorted Hperm. unfold sortedSeqCounts.
  apply (Sorted_unique Z.le); [done|by apply Sorted_merge_sort; apply _|].
  by rewrite merge_sort_Permutation.
Qed.

Lemma medianCvg_spec (vec sorted : list Z) :
  (1 <= length vec)%nat -> Sorted Z.le sorted -> sorted ≡ₚ vec ->
  exists m, sorted !! (length vec / 2)%nat = Some m
            ∧ medianCvg vec = double_of_int m.
Proof.
  intros Hlen Hsorted Hperm.
  pose proof (Permutation_length Hperm) as Hl.
  destruct (lookup_lt_is_Some_2 sorted (length vec / 2)%nat) as [m Hm].
  { rewrite Hl. apply Nat.div_lt; lia. }
  exists m. split; [done|].
  unfold medianCvg. rewrite <- (sortedSeqCounts_unique vec sorted) by done.
  by rewrite Hl, Hm.
Qed.

(** ** The count of a window *)

(** C2 on the code.  For a sequence at least as long as a k-mer, a window
    with a character outside {A,C,G,T} in either case has count 0 whatever
    the index holds, and a window of upper-case A, C, G, T has the count of
    the index, as the claim says; but a window of bases with a lower-case
    letter among them has count 0 too, without a lookup: [validKmer] knows
    the upper-case letters only, and the sequence keeps its case.  On the
    sequence acgt with 4-mers and an index that holds 7 for every k-mer the
    count is 0, while the GC loop of the same call counts its g and its c
    as bases. *)
Theorem lowercase_window_is_not_looked_up :
  (forall getCount log10 uint16_undefined args index th_id st sq,
      seqs st !! index = Some sq -> (index < length (counts st))%nat ->
      fits_size_t sq -> 0 <= merLen args <= seqLengthOf sq ->
      exists vec,
        counts (processSeq getCount log10 uint16_undefined args index th_id st)
          !! index = Some (Some vec)
        ∧ length vec = nbWindows args sq
        ∧ forall i, (i < nbWindows args sq)%nat ->
            (string_forallb isACGT_nocase (window args sq i) = false ->
             vec !! i = Some 0)
            ∧ (string_forallb isACGT (window args sq i) = true ->
               vec !! i = Some (getCount (canonical args) (window args sq i)))
            ∧ (string_forallb isACGT_nocase (window args sq i) = true ->
               string_forallb isACGT (window args sq i) = false ->
               vec !! i = Some 0))
  ∧ string_forallb isACGT_nocase "acgt" = true
  ∧ validKmer "acgt" = false
  ∧ constCount 7 (canonical (defaultArgs 4)) "acgt" = 7
  ∧ counts (processSeq (constCount 7) log10_nonpositive undefined_is_zero
              (defaultArgs 4) 0 0 (oneRecord (defaultArgs 4) "s" "acgt")) !! 0%nat
    = Some (Some [0])
  ∧ counts (processSeq (constCount 7) log10_nonpositive undefined_is_zero
              (defaultArgs 4) 0 0 (oneRecord (defaultArgs 4) "s" "ACGT")) !! 0%nat
    = Some (Some [7])
  ∧ gcs (processSeq (constCount 7) log10_nonpositive undefined_is_zero
           (defaultArgs 4) 0 0 (oneRecord (defaultArgs 4) "s" "acgt")) !! 0%nat
    = Some 0.5%float.
Proof.
  split.
  - intros getCount log10 ud args index th_id st sq Hsq Hi Hfit Hk.
    exists (seqCountsOf getCount args sq).
    split; [apply counts_processSeq; [done|done|lia]|].
    split; [by apply length_seqCountsOf|].
    intros i Hlt.
    assert (Hvec : seqCountsOf getCount args sq !! i
                   = Some (kmerCount getCount args sq i)).
    { rewrite seqCountsOf_spec by done.
      by rewrite list_lookup_fmap, lookup_seq_lt. }
    rewrite Hvec. unfold kmerCount. rewrite validKmer_forallb.
    split; [|split].
    + intros Hnocase.
      destruct (string_forallb isACGT (window args sq i)) eqn:Hupper; [|done].
      apply forallb_nocase_of_upper in Hupper. congruence.
    + by intros ->.
    + by intros _ ->.
  - repeat split; vm_compute; reflexivity.
Qed.

Lemma lowercase_window_is_not_looked_up_witness :
  exists vec,
    counts (processSeq (constCount 7) log10_nonpositive undefined_is_zero
              (defaultArgs 2) 0 0 (oneRecord (defaultArgs 2) "s" "ACgT")) !! 0%nat
    = Some (Some vec)
    ∧ length vec = nbWindows (defaultArgs 2) "ACgT"
    ∧ forall i, (i < nbWindows (defaultArgs 2) "ACgT")%nat ->
        (string_forallb isACGT_nocase (window (defaultArgs 2) "ACgT" i) = false ->
         vec !! i = Some 0)
        ∧ (string_forallb isACGT (window (defaultArgs 2) "ACgT" i) = true ->
           vec !! i = Some (constCount 7 false (window (defaultArgs 2) "ACgT" i)))
        ∧ (string_forallb isACGT_nocase (window (defaultArgs 2) "ACgT" i) = true ->
           string_forallb isACGT (window (defaultArgs 2) "ACgT" i) = false ->
           vec !! i = Some 0).
Proof.
  apply (proj1 lowercase_window_is_not_looked_up (constCount 7) log10_nonpositive
           undefined_is_zero (defaultArgs 2) 0%nat 0%nat
           (oneRecord (defaultArgs 2) "s" "ACgT") "ACgT"%string).
  - reflexivity.
  - simpl. lia.
  - unfold fits_size_t. simpl. lia.
  - unfold seqLengthOf. simpl. lia.
Defined.

(** The claim as it is worded does not hold of the code: the window acgt
    has all its bases in {A,C,G,T} without regard to case, and its count is
    0 where the index holds 7. *)
Lemma lookup_ignores_case_fails : ¬ lookup_ignores_case.
Proof.
  intros H.
  destruct (H (constCount 7) log10_nonpositive undefined_is_zero (defaultArgs 4)
              0%nat 0%nat (oneRecord (defaultArgs 4) "s" "acgt") "acgt"%string
              [0] 0%nat) as [_ Hlookup].
  - reflexivity.
  - simpl. lia.
  - unfold fits_size_t. simpl. lia.
  - unfold seqLengthOf. simpl. lia.
  - vm_compute. reflexivity.
  - vm_compute. lia.
  - specialize (Hlookup eq_refl). vm_compute in Hlookup. discriminate.
Qed.

(** ** The median coverage *)

(** C3: in median mode the coverage of a sequence at least as long as a
    k-mer is the element at index [len / 2] of its count vector sorted in
    ascending order, the upper median when [len] is even; the count vector
    5, 1, 3 gives 3 and 1, 2, 3, 4 gives 3. *)
Theorem median_is_upper_median :
  (forall (getCount : bool -> string -> Z) (log10 : float -> float)
          (uint16_undefined : float -> Z) (args : Args)
          (index th_id : nat) (st : Sect) (sq : string),
      seqs st !! index = Some sq ->
      (index < length (counts st))%nat -> (index < length (coverages st))%nat ->
      fits_size_t sq -> 0 <= merLen args <= seqLengthOf sq ->
      median args = true ->
      exists vec,
        counts (processSeq getCount log10 uint16_undefined args index th_id st) !! index
        = Some (Some vec)
        ∧ forall sorted, Sorted Z.le sorted -> sorted ≡ₚ vec ->
            exists m,
              sorted !! (length vec / 2)%nat = Some m
              ∧ coverages (processSeq getCount log10 uint16_undefined args
                             index th_id st) !! index
                = Some (double_of_int m))
  ∧ medianCvg [5; 1; 3] = 3%float
  ∧ medianCvg [1; 2; 3; 4] = 3%float.
Proof.
  split; [|split; vm_compute; reflexivity].
  intros getCount log10 ud args index th_id st sq Hsq Hic Hiv Hfit Hk Hmedian.
  exists (seqCountsOf getCount args sq).
  split; [apply counts_processSeq; [done|done|lia]|].
  intros sorted Hsorted Hperm.
  destruct (medianCvg_spec (seqCountsOf getCount args sq) sorted)
    as (m & Hm & Hcvg); [|done|done|].
  { rewrite length_seqCountsOf by done. by apply nbWindows_pos. }
  exists m. split; [done|].
  rewrite (coverages_processSeq _ _ _ _ _ _ _ sq) by (done || lia).
  unfold averageCvgOf. rewrite isShort_false by lia.
  by rewrite Hmedian, Hcvg.
Qed.

(** The sequence ACG with 1-mers counted 5, 1 and 3. *)
Lemma median_is_upper_median_witness :
  exists vec,
    counts (processSeq (baseCount 5 1 3 0) log10_nonpositive undefined_is_zero
              (defaultArgs 1) 0 0 (oneRecord (defaultArgs 1) "s" "ACG")) !! 0%nat
    = Some (Some vec)
    ∧ forall sorted, Sorted Z.le sorted -> sorted ≡ₚ vec ->
        exists m,
          sorted !! (length vec / 2)%nat = Some m
          ∧ coverages (processSeq (baseCount 5 1 3 0) log10_nonpositive
                         undefined_is_zero (defaultArgs 1) 0 0
                         (oneRecord (defaultArgs 1) "s" "ACG")) !! 0%nat
            = Some (double_of_int m).
Proof.
  apply (proj1 median_is_upper_median (baseCount 5 1 3 0) log10_nonpositive
           undefined_is_zero (defaultArgs 1) 0%nat 0%nat
           (oneRecord (defaultArgs 1) "s" "ACG") "ACG"%string).
  - reflexivity.
  - simpl. lia.
  - simpl. lia.
  - unfold fits_size_t. simpl. lia.
  - unfold seqLengthOf. simpl. lia.
  - reflexivity.
Defined.

(** ** The non-zero counter *)

Section NonZero.

Variable getCount : bool -> string -> Z.
Variable log10 : float -> float.
Variable uint16_undefined : float -> Z.
Variable args : Args.

Lemma nonZero_processSeq index th_id st sq :
  seqs st !! index = Some sq -> (index < length (nonZero st))%nat ->
  nonZero (processSeq getCount log10 uint16_undefined args index th_id st) !! index
  = Some (nbNonZeroOf args sq).
Proof.
  intros Hsq Hi. rewrite processSeq_unfold. simpl. rewrite Hsq. simpl.
  rewrite list_lookup_insert_eq by done.
  unfold nbNonZeroOf. by destruct (isShort args sq).
Qed.

Lemma percentNonZero_processSeq index th_id st sq :
  seqs st !! index = Some sq -> (index < length (percentNonZero st))%nat ->
  percentNonZero (processSeq getCount log10 uint16_undefined args index th_id st)
    !! index
  = Some (percentNonZeroOf args sq).
Proof.
  intros Hsq Hi. rewrite processSeq_unfold. simpl. rewrite Hsq. simpl.
  by apply list_lookup_insert_eq.
Qed.

End NonZero.

(** C4, as amended: the counter of non-zero windows is 0 for a sequence
    shorter than a k-mer and 1 for any other, whatever the counts of its
    windows; the fraction is that counter divided by the length, in doubles:
    0 for a sequence that is shorter than a k-mer and not empty, and
    [1 / length] for a sequence of at least k bases. *)
Theorem non_zero_counter_at_most_one
    (getCount : bool -> string -> Z) (log10 : float -> float)
    (uint16_undefined : float -> Z) (args : Args)
    (index th_id : nat) (st : Sect) (sq : string) :
  seqs st !! index = Some sq ->
  (index < length (nonZero st))%nat -> (index < length (percentNonZero st))%nat ->
  0 <= merLen args < 2 ^ 16 ->
  let after := processSeq getCount log10 uint16_undefined args index th_id st in
  nonZero after !! index = Some (if seqLengthOf sq <? merLen args then 0 else 1)
  ∧ percentNonZero after !! index
    = Some (PrimFloat.div
              (double_of_int (if seqLengthOf sq <? merLen args then 0 else 1))
              (double_of_int (seqLengthOf sq)))
  ∧ (0 < seqLengthOf sq < merLen args ->
     percentNonZero after !! index = Some 0%float)
  ∧ (merLen args <= seqLengthOf sq ->
     percentNonZero after !! index
     = Some (PrimFloat.div 1%float (double_of_int (seqLengthOf sq)))).
Proof.
  intros Hsq Hnz Hpc Hk after. subst after.
  rewrite (nonZero_processSeq _ _ _ _ _ _ _ sq) by done.
  rewrite (percentNonZero_processSeq _ _ _ _ _ _ _ sq) by done.
  unfold percentNonZeroOf, nbNonZeroOf, isShort.
  split; [done|]. split; [done|]. split.
  - intros Hshort.
    replace (seqLengthOf sq <? merLen args) with true
      by (symmetry; apply Z.ltb_lt; lia).
    f_equal. change (double_of_int 0) with 0%float.
    by apply uint16_double_facts; lia.
  - intros Hlong.
    replace (seqLengthOf sq <? merLen args) with false
      by (symmetry; apply Z.ltb_ge; lia).
    done.
Qed.

Lemma non_zero_counter_at_most_one_witness :
  let after := processSeq (constCount 0) log10_nonpositive undefined_is_zero
                 (defaultArgs 2) 0 0 (oneRecord (defaultArgs 2) "s" "ACGT") in
  nonZero after !! 0%nat = Some 1
  ∧ percentNonZero after !! 0%nat = Some 0.25%float.
Proof.
  destruct (non_zero_counter_at_most_one (constCount 0) log10_nonpositive
              undefined_is_zero (defaultArgs 2) 0%nat 0%nat
              (oneRecord (defaultArgs 2) "s" "ACGT") "ACGT"%string)
    as (Hnz & Hpc & _).
  - reflexivity.
  - simpl. lia.
  - simpl. lia.
  - simpl. lia.
  - split; [exact Hnz|exact Hpc].
Defined.

(** For the empty sequence the fraction is 0 / 0, a NaN. *)
Lemma percent_is_zero_or_reciprocal_fails : ¬ percent_is_zero_or_reciprocal.
Proof.
  intros H.
  destruct (H (constCount 0) log10_nonpositive undefined_is_zero (defaultArgs 2)
              0%nat 0%nat (oneRecord (defaultArgs 2) "s" "") ""%string)
    as [Hzero _].
  - reflexivity.
  - simpl. lia.
  - simpl. lia.
  - simpl. lia.
  - specialize (Hzero ltac:(unfold seqLengthOf; simpl; lia)).
    apply (f_equal (fun o => match o with
                             | Some v => Leibniz.eqb v 0%float
                             | None => true
                             end)) in Hzero.
    vm_compute in Hzero. discriminate.
Qed.

(** ** Every index once, in the worker of its residue *)

Lemma interlaced_indices_Sorted (step : nat) :
  (1 <= step)%nat ->
  forall fuel i end_, Sorted lt (interlaced_indices fuel i end_ step).
Proof.
  intros Hstep fuel. induction fuel as [|fuel IH]; intros i end_; simpl.
  - constructor.
  - destruct (i <? end_)%nat; [|constructor].
    constructor; [apply IH|].
    destruct fuel as [|fuel]; simpl; [constructor|].
    destruct (i + step <? end_)%nat; constructor. lia.
Qed.

Lemma schedule_indices (nthreads n : nat) :
  (schedule nthreads n).*1 = seq 0 nthreads ≫= workerIndices nthreads n.
Proof.
  unfold schedule. generalize (seq 0 nthreads). intros ts.
  induction ts as [|t ts IH]; [done|].
  rewrite !bind_cons, fmap_app, IH. f_equal.
  rewrite <- list_fmap_compose. apply list_fmap_id.
Qed.

Lemma schedule_indices_NoDup (nthreads n : nat) :
  (1 <= nthreads)%nat -> NoDup (schedule nthreads n).*1.
Proof.
  intros HT. rewrite schedule_indices. apply NoDup_bind.
  - intros t1 t2 j Ht1%elem_of_seq Ht2%elem_of_seq Hj1 Hj2.
    apply workerIndices_elem in Hj1; [|lia].
    apply workerIndices_elem in Hj2; [|lia]. lia.
  - intros t _. by apply interlaced_indices_NoDup.
  - apply NoDup_seq.
Qed.

(** The calls of one batch visit every index of the batch exactly once. *)
Lemma schedule_indices_Permutation (nthreads n : nat) :
  (1 <= nthreads)%nat -> (schedule nthreads n).*1 ≡ₚ seq 0 n.
Proof.
  intros HT. apply NoDup_Permutation.
  - by apply schedule_indices_NoDup.
  - apply NoDup_seq.
  - intros j. rewrite elem_of_seq. split.
    + intros ([j' t] & -> & Hin)%list_elem_of_fmap.
      apply schedule_elem in Hin. simpl. lia.
    + intros Hj. apply schedule_covers; lia.
Qed.

(** C9: worker [t] of [T] processes, in ascending order and once each,
    exactly the indices [t], [t + T], [t + 2 T], ... below the number of
    records of the batch (however much fuel the loop is given beyond that
    number); every index of the batch is processed by exactly one worker,
    the one of its residue modulo [T]; the statistics and the counts are
    printed in the order of the input; and with 3 workers and 7 records the
    workers get 0, 3, 6 and 1, 4 and 2, 5. *)
Theorem interlaced_assignment :
  (forall getCount log10 uint16_undefined args th_id st fuel,
      (1 <= threads args)%nat -> (recordsInBatch st <= fuel)%nat ->
      processInterlaced getCount log10 uint16_undefined args th_id st
      = runSchedule getCount log10 uint16_undefined args
          ((fun index => (index, th_id))
             <$> workerIndices (threads args) (recordsInBatch st) th_id) st
      ∧ interlaced_loop getCount log10 uint16_undefined args fuel th_id
          (recordsInBatch st) th_id st
        = processInterlaced getCount log10 uint16_undefined args th_id st)
  ∧ (forall T n t,
        (1 <= T)%nat -> (t < T)%nat ->
        (forall j, j ∈ workerIndices T n t
                   <-> (j < n)%nat ∧ exists q : nat, j = (t + q * T)%nat)
        ∧ NoDup (workerIndices T n t)
        ∧ Sorted lt (workerIndices T n t))
  ∧ (forall T n j,
        (1 <= T)%nat -> (j < n)%nat ->
        (j mod T < T)%nat ∧ j ∈ workerIndices T n (j mod T)
        ∧ forall t, (t < T)%nat -> j ∈ workerIndices T n t -> t = (j mod T)%nat)
  ∧ (forall getCount log10 uint16_undefined args st,
        (1 <= threads args)%nat ->
        analyseBatch getCount log10 uint16_undefined args st
        = runSchedule getCount log10 uint16_undefined args
            (schedule (threads args) (recordsInBatch st)) st
        ∧ (schedule (threads args) (recordsInBatch st)).*1
          ≡ₚ seq 0 (recordsInBatch st))
  ∧ (forall getCount log10 uint16_undefined args batch st,
        (1 <= threads args)%nat ->
        printStatTable (batchDone getCount log10 uint16_undefined args batch st)
        = statOf getCount args <$> batch
        ∧ printCounts (batchDone getCount log10 uint16_undefined args batch st)
          = batch ≫= countsOutputOf getCount args)
  ∧ workerIndices 3 7 0 = [0; 3; 6]%nat
  ∧ workerIndices 3 7 1 = [1; 4]%nat
  ∧ workerIndices 3 7 2 = [2; 5]%nat.
Proof.
  split; [|split; [|split; [|split; [|split; [|by repeat split]]]]].
  - intros getCount log10 ud args th_id st fuel HT Hfuel. split.
    + unfold processInterlaced, workerIndices. apply interlaced_loop_schedule.
    + unfold processInterlaced. rewrite !interlaced_loop_schedule.
      f_equal. f_equal. apply interlaced_indices_enough; lia.
  - intros T n t HT Ht. split; [|split].
    + intros j. unfold workerIndices. apply interlaced_indices_elem; lia.
    + by apply interlaced_indices_NoDup.
    + by apply interlaced_indices_Sorted.
  - intros T n j HT Hj. split; [apply Nat.mod_upper_bound; lia|]. split.
    + apply workerIndices_elem; [apply Nat.mod_upper_bound; lia|done].
    + intros t Ht Hin. apply workerIndices_elem in Hin; [|done]. lia.
  - intros getCount log10 ud args st HT. split.
    + apply analyseBatch_schedule.
    + by apply schedule_indices_Permutation.
  - intros getCount log10 ud args batch st HT. split.
    + by apply printStatTable_batchDone.
    + by apply printCounts_batchDone.
Qed.

Lemma interlaced_assignment_witness :
  (forall j, j ∈ workerIndices 3 7 1
             <-> (j < 7)%nat ∧ exists q : nat, j = (1 + q * 3)%nat)
  ∧ NoDup (workerIndices 3 7 1)
  ∧ Sorted lt (workerIndices 3 7 1).
Proof.
  apply (proj1 (proj2 interlaced_assignment) 3%nat 7%nat 1%nat); lia.
Defined.

(** ** Sums over the grid *)

Section GridSums.

Import ThreadedSparseMatrix.

Lemma sumZ_cons (x : Z) (l : list Z) : sumZ (x :: l) = x + sumZ l.
Proof. reflexivity. Qed.

Lemma sumZ_app (l k : list Z) : sumZ (l ++ k) = sumZ l + sumZ k.
Proof.
  induction l as [|x l IH]; [done|].
  rewrite <- app_comm_cons, !sumZ_cons, IH. lia.
Qed.

Lemma sumZ_fmap_add {A : Type} (f g : A -> Z) (l : list A) :
  sumZ ((fun x => f x + g x) <$> l) = sumZ (f <$> l) + sumZ (g <$> l).
Proof.
  induction l as [|x l IH]; [done|].
  rewrite !fmap_cons, !sumZ_cons, IH. lia.
Qed.

Lemma sumZ_fmap_ext {A : Type} (f g : A -> Z) (l : list A) :
  (forall x, x ∈ l -> f x = g x) -> sumZ (f <$> l) = sumZ (g <$> l).
Proof.
  induction l as [|x l IH]; intros Hfg; [done|].
  rewrite !fmap_cons, !sumZ_cons, Hfg by (by left). rewrite IH; [done|].
  intros y Hy. apply Hfg. by right.
Qed.

Lemma sumZ_fmap_zero {A : Type} (l : list A) :
  sumZ ((fun _ => 0) <$> l) = 0.
Proof.
  induction l as [|x l IH]; [done|]. by rewrite fmap_cons, sumZ_cons, IH.
Qed.

Lemma sumZ_Permutation (l k : list Z) : l ≡ₚ k -> sumZ l = sumZ k.
Proof. induction 1; rewrite ?sumZ_cons; lia. Qed.

(** The sum of a function that is [v] at one point and 0 elsewhere. *)
Lemma sumZ_indicator {A : Type} `{EqDecision A} (k : A) (v : Z) (l : list A) :
  NoDup l ->
  sumZ ((fun c => if decide (c = k) then v else 0) <$> l)
  = if decide (k ∈ l) then v else 0.
Proof.
  induction 1 as [|x l Hx Hnd IH].
  - by rewrite decide_False by apply not_elem_of_nil.
  - rewrite fmap_cons, sumZ_cons, IH. destruct (decide (x = k)) as [->|Hne].
    + rewrite (decide_False (P := k ∈ l)) by done.
      rewrite decide_True by (by left). lia.
    + destruct (decide (k ∈ l)) as [Hin|Hnin].
      * rewrite decide_True by (by right). lia.
      * rewrite decide_False; [lia|].
        intros [->|Hin]%elem_of_cons; done.
Qed.

Lemma cells_elem (w h : Z) (c : Z * Z) : c ∈ cells w h <-> in_grid w h c.
Proof.
  unfold cells, in_grid. rewrite list_elem_of_bind. split.
  - intros (i & Hc & Hi). apply list_elem_of_fmap in Hc as (j & -> & Hj).
    apply elem_of_seqZ in Hi, Hj. simpl. lia.
  - intros [Hi Hj]. exists c.1. split.
    + apply list_elem_of_fmap. exists c.2. split; [by destruct c|].
      apply elem_of_seqZ. lia.
    + apply elem_of_seqZ. lia.
Qed.

Lemma cells_NoDup (w h : Z) : NoDup (cells w h).
Proof.
  unfold cells. apply NoDup_bind.
  - intros i1 i2 c _ _ (j1 & -> & _)%list_elem_of_fmap
      (j2 & [= -> _] & _)%list_elem_of_fmap. done.
  - intros i _. apply NoDup_fmap_2; [|apply NoDup_seqZ].
    by intros j1 j2 [= ->].
  - apply NoDup_seqZ.
Qed.

Lemma get_inc (m : gmap (Z * Z) Z) (i j val a b : Z) :
  get (inc m i j val) a b
  = get m a b + (if decide ((a, b) = (i, j)) then val else 0).
Proof.
  unfold get, inc. destruct (decide ((a, b) = (i, j))) as [[= -> ->]|Hne].
  - by rewrite lookup_insert_eq.
  - rewrite lookup_insert_ne by done. lia.
Qed.

Lemma grid_sum_empty (w h : Z) : grid_sum w h ∅ = 0.
Proof.
  unfold grid_sum.
  rewrite (sumZ_fmap_ext _ (fun _ => 0)); [apply sumZ_fmap_zero|].
  intros c _. unfold get. by rewrite lookup_empty.
Qed.

(** An increment adds its value to the sum of the grid when its cell is a
    cell of the grid, and nothing otherwise. *)
Lemma grid_sum_inc (w h : Z) (m : gmap (Z * Z) Z) (i j val : Z) :
  grid_sum w h (inc m i j val)
  = grid_sum w h m + (if decide (in_grid w h (i, j)) then val else 0).
Proof.
  unfold grid_sum.
  rewrite (sumZ_fmap_ext _
             (fun c => get m c.1 c.2 + (if decide (c = (i, j)) then val else 0))).
  - rewrite sumZ_fmap_add, sumZ_indicator by apply cells_NoDup.
    f_equal. apply decide_ext, cells_elem.
  - intros [a b] _. simpl. apply get_inc.
Qed.

Lemma get_add_grid (w h : Z) (acc m : gmap (Z * Z) Z) (a b : Z) :
  get (add_grid w h acc m) a b
  = get acc a b + (if decide (in_grid w h (a, b)) then get m a b else 0).
Proof.
  unfold get, add_grid. rewrite lookup_union_with, map_lookup_filter.
  destruct (acc !! (a, b)) as [x|], (m !! (a, b)) as [y|]; simpl;
    try case_guard; simpl;
    destruct (decide (in_grid w h (a, b))); simpl; try lia; done.
Qed.

Lemma grid_sum_add_grid (w h : Z) (acc m : gmap (Z * Z) Z) :
  grid_sum w h (add_grid w h acc m) = grid_sum w h acc + grid_sum w h m.
Proof.
  unfold grid_sum. rewrite <- sumZ_fmap_add. apply sumZ_fmap_ext.
  intros [a b] Hc%cells_elem. simpl. rewrite get_add_grid.
  by rewrite decide_True.
Qed.

Lemma grid_sum_merge (w h : Z) (tms : list (gmap (Z * Z) Z)) :
  forall acc,
    grid_sum w h (foldl (add_grid w h) acc tms) = grid_sum w h acc + threadSum w h tms.
Proof.
  unfold threadSum. induction tms as [|m tms IH]; intros acc.
  - simpl. lia.
  - cbn [foldl]. rewrite fmap_cons, sumZ_cons, IH, grid_sum_add_grid. lia.
Qed.

Lemma threadSum_alter_inc (w h : Z) (tms : list (gmap (Z * Z) Z))
    (t : nat) (i j val : Z) :
  (t < length tms)%nat ->
  threadSum w h (alter (fun m => inc m i j val) t tms)
  = threadSum w h tms + (if decide (in_grid w h (i, j)) then val else 0).
Proof.
  unfold threadSum. revert t. induction tms as [|m tms IH]; intros t Ht.
  - simpl in Ht. lia.
  - destruct t as [|t].
    + change (alter (fun m => inc m i j val) 0%nat (m :: tms))
        with (inc m i j val :: tms).
      rewrite !fmap_cons, !sumZ_cons, grid_sum_inc. lia.
    + change (alter (fun m => inc m i j val) (S t) (m :: tms))
        with (m :: alter (fun m => inc m i j val) t tms).
      rewrite !fmap_cons, !sumZ_cons, IH by (simpl in Ht; lia). lia.
Qed.

End GridSums.

(** ** The end of a batch *)

Lemma BATCH_SIZE_pos : (1 <= BATCH_SIZE)%nat.
Proof. unfold BATCH_SIZE. lia. Qed.

Lemma clearCounts_null (vectors : list (option (list Z))) :
  None ∈ vectors -> clearCounts vectors = None.
Proof.
  induction vectors as [|[vec|] rest IH]; intros Hin.
  - by apply elem_of_nil in Hin.
  - apply elem_of_cons in Hin as [?|Hin]; [done|].
    simpl. by rewrite IH.
  - done.
Qed.

Lemma clearCounts_no_null (vectors : list (option (list Z))) :
  None ∉ vectors -> is_Some (clearCounts vectors).
Proof.
  induction vectors as [|[vec|] rest IH]; intros Hnot.
  - by eexists.
  - destruct IH as [cleared Hc]; [by intros ?; apply Hnot; right|].
    simpl. rewrite Hc. by eexists.
  - exfalso. apply Hnot. by left.
Qed.

Section BatchEnd.

Variable getCount : bool -> string -> Z.
Variable log10 : float -> float.
Variable uint16_undefined : float -> Z.
Variable args : Args.

Local Abbreviation processSeq' := (processSeq getCount log10 uint16_undefined args).
Local Abbreviation runSchedule' := (runSchedule getCount log10 uint16_undefined args).
Local Abbreviation batchDone' := (batchDone getCount log10 uint16_undefined args).

(** The count vectors of a batch when its workers have joined: a null
    pointer for every short sequence. *)
Lemma counts_batchDone_all batch st :
  (1 <= threads args)%nat ->
  counts (batchDone' batch st) = (fun record => countsOf getCount args record.2) <$> batch.
Proof.
  intros HT. apply list_eq. intros j. rewrite list_lookup_fmap.
  destruct (batch !! j) as [record|] eqn:Hj.
  - by rewrite (counts_batchDone _ _ _ _ _ _ _ _ HT Hj).
  - apply lookup_ge_None. apply lookup_ge_None in Hj.
    rewrite batchDone_schedule.
    rewrite (slot_length getCount log10 uint16_undefined args counts
               (fun sq => if isShort args sq then None
                          else Some (Some (seqCountsOf getCount args sq)))).
    + simpl. rewrite length_replicate. unfold recordsInBatch. simpl.
      by rewrite length_fmap.
    + intros. rewrite processSeq_unfold. simpl. by destruct (isShort _ _).
Qed.

(** A short sequence in the batch makes [destroyBatchVars] undefined. *)
Lemma destroyBatchVars_short batch st (j : nat) record :
  (1 <= threads args)%nat -> batch !! j = Some record ->
  isShort args record.2 = true ->
  destroyBatchVars (batchDone' batch st) = None.
Proof.
  intros HT Hj Hshort. unfold destroyBatchVars.
  rewrite clearCounts_null; [done|].
  rewrite counts_batchDone_all by done.
  apply list_elem_of_fmap. exists record. split.
  - unfold countsOf. by rewrite Hshort.
  - by apply list_elem_of_lookup_2 in Hj.
Qed.

Lemma destroyBatchVars_no_short batch st :
  (1 <= threads args)%nat ->
  (forall record, record ∈ batch -> isShort args record.2 = false) ->
  destroyBatchVars (batchDone' batch st)
  = Some (clearedBatchVars (batchDone' batch st)).
Proof.
  intros HT Hlong. unfold destroyBatchVars.
  destruct (clearCounts_no_null (counts (batchDone' batch st))) as [cleared ->];
    [|done].
  rewrite counts_batchDone_all by done.
  intros (record & Hnull & Hin)%list_elem_of_fmap.
  unfold countsOf in Hnull. by rewrite (Hlong record Hin) in Hnull.
Qed.

End BatchEnd.

(** ** The whole run *)

Section RunFacts.

Import ThreadedSparseMatrix.

Variable getCount : bool -> string -> Z.
Variable log10 : float -> float.
Variable uint16_undefined : float -> Z.
Variable args : Args.

Local Abbreviation processSeq' := (processSeq getCount log10 uint16_undefined args).
Local Abbreviation runSchedule' := (runSchedule getCount log10 uint16_undefined args).
Local Abbreviation batchDone' := (batchDone getCount log10 uint16_undefined args).
Local Abbreviation batch_loop' := (batch_loop getCount log10 uint16_undefined args).
Local Abbreviation processBatch' := (processBatch getCount log10 uint16_undefined args).
Local Abbreviation binOf' := (binOf getCount log10 uint16_undefined args).
Local Abbreviation gridMass' := (gridMass getCount log10 uint16_undefined args).
Local Abbreviation afterBatch' := (afterBatch getCount log10 uint16_undefined args).
Local Abbreviation threadSumOf' := (threadSumOf args).
Local Abbreviation unmerged' := (unmerged args).
Local Abbreviation diagnosticOf' := (diagnosticOf args).

Lemma cerr_processSeq_mono index th_id st d :
  d ∈ cerr st -> d ∈ cerr (processSeq' index th_id st).
Proof.
  intros Hd. rewrite processSeq_unfold. simpl.
  destruct (isShort _ _); [|done]. apply elem_of_app. by left.
Qed.

Lemma cerr_runSchedule_mono l st d :
  d ∈ cerr st -> d ∈ cerr (runSchedule' l st).
Proof.
  revert st. induction l as [|c l IH]; intros st Hd; [done|].
  simpl. by apply IH, cerr_processSeq_mono.
Qed.

Lemma cerr_runSchedule_short l st j record :
  j ∈ l.*1 -> names st !! j = Some record.1 -> seqs st !! j = Some record.2 ->
  isShort args record.2 = true ->
  diagnosticOf' record ∈ cerr (runSchedule' l st).
Proof.
  revert st. induction l as [|[i t] l IH]; intros st Hin Hname Hsq Hshort.
  - by apply elem_of_nil in Hin.
  - simpl. destruct (decide (i = j)) as [->|Hne].
    + apply cerr_runSchedule_mono. rewrite processSeq_unfold. simpl.
      rewrite Hsq, Hname. simpl. rewrite Hshort.
      apply elem_of_app. right. by apply list_elem_of_singleton.
    + apply IH; [|by rewrite names_processSeq|by rewrite seqs_processSeq|done].
      simpl in Hin. apply elem_of_cons in Hin as [->|Hin]; done.
Qed.

Lemma cerr_batchDone_mono batch st d :
  d ∈ cerr st -> d ∈ cerr (batchDone' batch st).
Proof. intros Hd. rewrite batchDone_schedule. by apply cerr_runSchedule_mono. Qed.

Lemma cerr_batchDone_short batch st j record :
  (1 <= threads args)%nat -> batch !! j = Some record ->
  isShort args record.2 = true ->
  diagnosticOf' record ∈ cerr (batchDone' batch st).
Proof.
  intros HT Hj Hshort. rewrite batchDone_schedule.
  apply (cerr_runSchedule_short _ _ j).
  - apply schedule_covers; [done|]. by apply lookup_lt_Some in Hj.
  - simpl. by rewrite list_lookup_fmap, Hj.
  - simpl. by rewrite list_lookup_fmap, Hj.
  - done.
Qed.

Lemma unmerged_processSeq index th_id st :
  unmerged' st -> unmerged' (processSeq' index th_id st).
Proof.
  intros (Hlen & Hfin & Hw & Hh). rewrite processSeq_unfold.
  unfold unmerged. simpl. by rewrite length_alter.
Qed.

Lemma threadSumOf_processSeq index th_id st :
  unmerged' st -> (th_id < threads args)%nat ->
  threadSumOf' (processSeq' index th_id st)
  = threadSumOf' st + gridMass' (default EmptyString (seqs st !! index)).
Proof.
  intros (Hlen & _) Ht. rewrite processSeq_unfold. unfold threadSumOf. simpl.
  rewrite threadSum_alter_inc by lia. reflexivity.
Qed.

Lemma runSchedule_matrix l :
  forall st, unmerged' st -> (forall c, c ∈ l -> (c.2 < threads args)%nat) ->
    unmerged' (runSchedule' l st)
    ∧ threadSumOf' (runSchedule' l st)
      = threadSumOf' st
        + sumZ ((fun j => gridMass' (default EmptyString (seqs st !! j))) <$> l.*1).
Proof.
  induction l as [|[i t] l IH]; intros st Hst Hl.
  - split; [done|]. simpl. lia.
  - change (runSchedule' ((i, t) :: l) st)
      with (runSchedule' l (processSeq' i t st)).
    destruct (IH (processSeq' i t st)) as [Hun Hsum].
    { by apply unmerged_processSeq. }
    { intros c Hc. apply Hl. by right. }
    split; [exact Hun|]. rewrite Hsum.
    rewrite threadSumOf_processSeq; [|done|apply (Hl (i, t)); by left].
    rewrite seqs_processSeq. rewrite !fmap_cons, sumZ_cons. simpl. lia.
Qed.

Lemma gridMass_batch (batch : list (string * string)) :
  (fun j => gridMass' (default EmptyString (batch.*2 !! j))) <$> seq 0 (length batch)
  = (fun record => gridMass' record.2) <$> batch.
Proof.
  apply list_eq. intros j. rewrite !list_lookup_fmap.
  destruct (batch !! j) as [record|] eqn:Hj.
  - rewrite lookup_seq_lt by (by apply lookup_lt_Some in Hj). simpl.
    by rewrite list_lookup_fmap, Hj.
  - rewrite lookup_seq_ge by (by apply lookup_ge_None in Hj). done.
Qed.

Lemma batchDone_matrix batch st :
  (1 <= threads args)%nat -> unmerged' st ->
  unmerged' (batchDone' batch st)
  ∧ threadSumOf' (batchDone' batch st)
    = threadSumOf' st + sumZ ((fun record => gridMass' record.2) <$> batch).
Proof.
  intros HT Hst. rewrite batchDone_schedule.
  destruct (runSchedule_matrix (schedule (threads args) (length batch))
              (batchStart batch st)) as [Hun Hsum].
  { exact Hst. }
  { intros [j t] Hc. apply schedule_elem in Hc. simpl. lia. }
  split; [exact Hun|]. rewrite Hsum.
  change (threadSumOf' (batchStart batch st)) with (threadSumOf' st).
  f_equal. rewrite <- gridMass_batch.
  apply sumZ_Permutation, fmap_Permutation.
  by apply schedule_indices_Permutation.
Qed.

Lemma processBatch_unfold (r : Run) :
  processBatch' r
  = (_ ← destroyBatchVars (batchDone' (take BATCH_SIZE (reader r)) (sect r));
     Some (afterBatch' r)).
Proof.
  unfold processBatch, afterBatch, destroyBatchVars.
  change (analyseBatch getCount log10 uint16_undefined args
            (createBatchVars
               (recordsInBatch (loadBatch (take BATCH_SIZE (reader r)) (sect r)))
               (loadBatch (take BATCH_SIZE (reader r)) (sect r))))
    with (batchDone' (take BATCH_SIZE (reader r)) (sect r)).
  by destruct (clearCounts _).
Qed.

Lemma length_reader_afterBatch (r : Run) (fuel : nat) :
  reader r ≠ [] -> (length (reader r) <= S fuel)%nat ->
  (length (reader (afterBatch' r)) <= fuel)%nat.
Proof.
  intros Hne Hlen. simpl. rewrite length_drop.
  pose proof BATCH_SIZE_pos. destruct (reader r); [done|]. simpl in *. lia.
Qed.

(** A sequence shorter than a k-mer among the records still to read makes
    the batch loop undefined. *)
Lemma batch_loop_short (fuel : nat) :
  (1 <= threads args)%nat ->
  forall r (j : nat) record,
    (length (reader r) <= fuel)%nat -> reader r !! j = Some record ->
    isShort args record.2 = true ->
    batch_loop' fuel r = None.
Proof.
  intros HT. induction fuel as [|fuel IH]; intros r j record Hlen Hj Hshort.
  - apply lookup_lt_Some in Hj. lia.
  - simpl. destruct (reader r) as [|first rest] eqn:Hr; [done|].
    rewrite <- Hr in *. rewrite processBatch_unfold.
    destruct (destroyBatchVars _) as [cleared|] eqn:Hdestroy; [|done].
    simpl. destruct (decide (j < BATCH_SIZE)%nat) as [Hlt|Hge].
    + rewrite (destroyBatchVars_short _ _ _ _ _ _ j record) in Hdestroy;
        [done|done| |done].
      by rewrite lookup_take_lt.
    + apply (IH _ (j - BATCH_SIZE)%nat record); [| |done].
      * apply length_reader_afterBatch; [by rewrite Hr|done].
      * simpl. rewrite lookup_drop.
        by replace (BATCH_SIZE + (j - BATCH_SIZE))%nat with j by lia.
Qed.

(** Without such a sequence the batch loop ends with the reader at its
    end; it has then written one statistics row per record, in the order of
    the input, and the counts of every record unless they are switched off,
    and the thread matrices hold the bases of the records whose cell is a
    cell of the grid. *)
Lemma batch_loop_no_short (fuel : nat) :
  (1 <= threads args)%nat ->
  forall r,
    (length (reader r) <= fuel)%nat ->
    (forall record, record ∈ reader r -> isShort args record.2 = false) ->
    unmerged' (sect r) ->
    exists r',
      batch_loop' fuel r = Some r'
      ∧ reader r' = []
      ∧ cvg_gc_stream r' = cvg_gc_stream r ++ (statOf getCount args <$> reader r)
      ∧ count_path_stream r'
        = (if noCountStats args then count_path_stream r
           else count_path_stream r ++ (reader r ≫= countsOutputOf getCount args))
      ∧ unmerged' (sect r')
      ∧ threadSumOf' (sect r')
        = threadSumOf' (sect r)
          + sumZ ((fun record => gridMass' record.2) <$> reader r).
Proof.
  intros HT. induction fuel as [|fuel IH]; intros r Hlen Hlong Hun.
  - destruct (reader r) as [|? ?] eqn:Hr; [|simpl in Hlen; lia].
    exists r. simpl. rewrite Hr, !app_nil_r.
    repeat split; try done; [by destruct (noCountStats args)|apply Hun..|lia].
  - simpl. destruct (reader r) as [|first rest] eqn:Hr.
    + exists r. rewrite Hr, !app_nil_r.
      repeat split; try done; [by destruct (noCountStats args)|apply Hun..|simpl; lia].
    + rewrite <- Hr in *. rewrite processBatch_unfold.
      rewrite destroyBatchVars_no_short; [|done|].
      2:{ intros record Hin. apply Hlong.
          by apply (subseteq_take BATCH_SIZE (reader r)). }
      simpl.
      destruct (batchDone_matrix (take BATCH_SIZE (reader r)) (sect r) HT Hun)
        as [Hun' Hsum'].
      destruct (IH (afterBatch' r)) as (r' & Hloop & Hend & Hstats & Hcounts & Hun'' & Hsum'').
      { apply length_reader_afterBatch; [by rewrite Hr|done]. }
      { intros record Hin. apply Hlong.
        by apply (subseteq_drop BATCH_SIZE (reader r)). }
      { exact Hun'. }
      exists r'. split; [exact Hloop|]. split; [exact Hend|].
      split; [|split; [|split; [exact Hun''|]]].
      * rewrite Hstats. simpl. rewrite printStatTable_batchDone by done.
        rewrite <- app_assoc, <- fmap_app. by rewrite take_drop.
      * rewrite Hcounts. simpl. destruct (noCountStats args); [done|].
        rewrite printCounts_batchDone by done.
        rewrite <- app_assoc, <- bind_app. by rewrite take_drop.
      * rewrite Hsum''.
        change (threadSumOf' (sect (afterBatch' r)))
          with (threadSumOf' (batchDone' (take BATCH_SIZE (reader r)) (sect r))).
        rewrite Hsum'. simpl.
        rewrite <- (take_drop BATCH_SIZE (reader r)) at 3.
        rewrite fmap_app, sumZ_app. lia.
Qed.

Lemma unmerged_newSect : unmerged' (newSect args).
Proof. unfold unmerged. simpl. by rewrite length_replicate. Qed.

Lemma threadSumOf_newSect : threadSumOf' (newSect args) = 0.
Proof.
  unfold threadSumOf, threadSum. simpl.
  rewrite (sumZ_fmap_ext _ (fun _ => 0))
    by (intros m Hm%elem_of_replicate; destruct Hm as [-> _];
        apply grid_sum_empty).
  apply sumZ_fmap_zero.
Qed.

(** A run with a sequence shorter than a k-mer does not reach its end. *)
Lemma execute_short records (j : nat) record :
  (1 <= threads args)%nat -> records !! j = Some record ->
  isShort args record.2 = true ->
  execute getCount log10 uint16_undefined args records = None.
Proof.
  intros HT Hj Hshort. unfold execute, processSeqFile.
  by rewrite (batch_loop_short _ HT _ j record).
Qed.

(** A run without such a sequence. *)
Lemma execute_no_short records :
  (1 <= threads args)%nat ->
  (forall record, record ∈ records -> isShort args record.2 = false) ->
  exists r,
    execute getCount log10 uint16_undefined args records = Some r
    ∧ reader r = []
    ∧ cvg_gc_stream r = StatHeader :: (statOf getCount args <$> records)
    ∧ count_path_stream r
      = (if noCountStats args then []
         else records ≫= countsOutputOf getCount args)
    ∧ grid_sum (gcBins args) (cvgBins args)
        (getFinalMatrix (contamination_mx (sect r)))
      = sumZ ((fun record => gridMass' record.2) <$> records).
Proof.
  intros HT Hlong. unfold execute, processSeqFile.
  match goal with |- context [batch_loop _ _ _ _ ?n ?r0] =>
    destruct (batch_loop_no_short n HT r0)
      as (r' & -> & Hend & Hstats & Hcounts & (Hlen & Hfin & Hw & Hh) & Hsum);
      [done|done|apply unmerged_newSect|]
  end.
  eexists. split; [reflexivity|]. simpl.
  split; [done|]. split; [done|]. split; [done|].
  unfold getFinalMatrix. simpl. rewrite Hfin, Hw, Hh, grid_sum_merge.
  rewrite grid_sum_empty. fold (threadSumOf' (sect r')). rewrite Hsum.
  cbn [sect reader]. rewrite threadSumOf_newSect. lia.
Qed.

End RunFacts.

(** ** Sequences shorter than a k-mer *)

(** C7 on the code: a sequence shorter than a k-mer is reported and the
    other sequences of its batch are processed.  When the workers of the
    batch have joined, the diagnostic is on the error stream, the coverage
    slot is 0, the count vector is a null pointer, the non-zero counter is
    0, the counts file gets the line 0 under the name of the sequence and
    both files list every record of the batch in the order of the input.
    But [destroyBatchVars] then calls [clear ()] through the null pointer,
    which is undefined, so the run does not reach the next batch nor the
    merge. *)
Theorem short_sequence_ends_the_run :
  (forall getCount log10 uint16_undefined args batch st (j : nat) name sq,
      (1 <= threads args)%nat ->
      batch !! j = Some (name, sq) -> seqLengthOf sq < merLen args ->
      let after := batchDone getCount log10 uint16_undefined args batch st in
      TooShort name sq (seqLengthOf sq) (merLen args) ∈ cerr after
      ∧ coverages after !! j = Some 0%float
      ∧ counts after !! j = Some None
      ∧ nonZero after !! j = Some 0
      ∧ printCounts after = batch ≫= countsOutputOf getCount args
      ∧ countsOutputOf getCount args (name, sq) = [(">" ++ name)%string; "0"%string]
      ∧ printStatTable after = statOf getCount args <$> batch
      ∧ destroyBatchVars after = None)
  ∧ (forall getCount log10 uint16_undefined args records (j : nat) name sq,
        (1 <= threads args)%nat ->
        records !! j = Some (name, sq) -> seqLengthOf sq < merLen args ->
        execute getCount log10 uint16_undefined args records = None).
Proof.
  split.
  - intros getCount log10 ud args batch st j name sq HT Hj Hshort after.
    subst after. apply (isShort_true args) in Hshort.
    split; [|split; [|split; [|split; [|split; [|split; [|split]]]]]].
    + by apply (cerr_batchDone_short _ _ _ _ _ _ j (name, sq)).
    + rewrite (coverages_batchDone _ _ _ _ _ _ _ _ HT Hj).
      unfold averageCvgOf. simpl. by rewrite Hshort.
    + rewrite (counts_batchDone _ _ _ _ _ _ _ _ HT Hj).
      unfold countsOf. simpl. by rewrite Hshort.
    + rewrite (nonZero_batchDone _ _ _ _ _ _ _ _ HT Hj).
      unfold nbNonZeroOf. simpl. by rewrite Hshort.
    + by apply printCounts_batchDone.
    + unfold countsOutputOf, countsOf. simpl. by rewrite Hshort.
    + by apply printStatTable_batchDone.
    + by apply (destroyBatchVars_short _ _ _ _ _ _ j (name, sq)).
  - intros getCount log10 ud args records j name sq HT Hj Hshort.
    apply (execute_short _ _ _ _ _ j (name, sq)); [done|done|].
    by apply isShort_true.
Qed.

Lemma short_sequence_ends_the_run_witness :
  (TooShort "s2" "A" 1 2 ∈ cerr shortBatchDone
   ∧ coverages shortBatchDone !! 1%nat = Some 0%float
   ∧ counts shortBatchDone !! 1%nat = Some None
   ∧ nonZero shortBatchDone !! 1%nat = Some 0
   ∧ printCounts shortBatchDone
     = shortBatch ≫= countsOutputOf (constCount 7) (defaultArgs 2)
   ∧ countsOutputOf (constCount 7) (defaultArgs 2) ("s2", "A")%string
     = [">s2"; "0"]%string
   ∧ printStatTable shortBatchDone
     = statOf (constCount 7) (defaultArgs 2) <$> shortBatch
   ∧ destroyBatchVars shortBatchDone = None)
  ∧ execute (constCount 7) log10_nonpositive undefined_is_zero (defaultArgs 2)
      shortBatch
    = None.
Proof.
  split.
  - apply (proj1 short_sequence_ends_the_run (constCount 7) log10_nonpositive
             undefined_is_zero (defaultArgs 2) shortBatch (newSect (defaultArgs 2))
             1%nat "s2"%string "A"%string).
    + simpl. lia.
    + reflexivity.
    + unfold seqLengthOf. simpl. lia.
  - apply (proj2 short_sequence_ends_the_run (constCount 7) log10_nonpositive
             undefined_is_zero (defaultArgs 2) shortBatch 1%nat
             "s2"%string "A"%string).
    + simpl. lia.
    + reflexivity.
    + unfold seqLengthOf. simpl. lia.
Defined.

(** ** The sum of the merged matrix *)

(** C1 on the code, with the settings of the constructor, 2-mers and every
    2-mer counted 7.  On the records GGCC and ACGT the input has 8 bases;
    the GC fraction of GGCC is 1.0 and its 4 bases go to cell (1001, 0) of
    the matrix of worker 0, past the last column of the 1001 x 1001 grid;
    the merged matrix holds the 4 bases of ACGT only, and its cells sum to
    4.  On the records ACGT and A the run is undefined at the end of the
    batch, and no merged matrix is made. *)
Theorem bases_missing_from_the_merged_matrix :
  let records := [("s1", "GGCC"); ("s2", "ACGT")]%string in
  let run := execute (constCount 7) log10_nonpositive undefined_is_zero
               (defaultArgs 2) records in
  totalLength records = 8
  ∧ binOf (constCount 7) log10_nonpositive undefined_is_zero (defaultArgs 2) "GGCC"
    = (1001, 0)
  ∧ (ThreadedSparseMatrix.threaded_matricies ∘ contamination_mx ∘ sect) <$> run
    = Some [ {[ (1001, 0) := 4; (500, 0) := 4 ]} ]
  ∧ finalMatrix (constCount 7) log10_nonpositive undefined_is_zero
      (defaultArgs 2) records
    = Some {[ (500, 0) := 4 ]}
  ∧ finalSum (constCount 7) log10_nonpositive undefined_is_zero
      (defaultArgs 2) records
    = Some 4
  ∧ finalSum (constCount 7) log10_nonpositive undefined_is_zero
      (defaultArgs 2) [("s1", "ACGT"); ("s2", "A")]%string
    = None.
Proof.
  intros records run. subst run records.
  split; [reflexivity|]. split; [vm_compute; reflexivity|].
  split; [vm_compute; reflexivity|].
  assert (Hfinal : finalMatrix (constCount 7) log10_nonpositive undefined_is_zero
                     (defaultArgs 2) [("s1", "GGCC"); ("s2", "ACGT")]%string
                   = Some {[ (500, 0) := 4 ]}) by (vm_compute; reflexivity).
  split; [exact Hfinal|]. split.
  - assert (Hgrid : ThreadedSparseMatrix.grid_sum 1001 1001
                      (ThreadedSparseMatrix.inc ∅ 500 0 4) = 4)
      by (rewrite grid_sum_inc, grid_sum_empty; reflexivity).
    unfold finalSum. rewrite Hfinal. exact (f_equal Some Hgrid).
  - vm_compute. reflexivity.
Qed.

(** When no sequence is shorter than a k-mer and every sequence has its
    cell in the grid, the run reaches its end and the sum of all cells of
    the merged matrix is the number of bases of the input. *)
Theorem merged_sum_counts_bases_in_grid
    (getCount : bool -> string -> Z) (log10 : float -> float)
    (uint16_undefined : float -> Z) (args : Args)
    (records : list (string * string)) :
  (1 <= threads args)%nat ->
  (forall record, record ∈ records -> isShort args record.2 = false) ->
  (forall record, record ∈ records ->
     ThreadedSparseMatrix.in_grid (gcBins args) (cvgBins args)
       (binOf getCount log10 uint16_undefined args record.2)) ->
  finalSum getCount log10 uint16_undefined args records
  = Some (totalLength records).
Proof.
  intros HT Hlong Hgrid.
  destruct (execute_no_short getCount log10 uint16_undefined args records HT Hlong)
    as (r & Hrun & _ & _ & _ & Hsum).
  unfold finalSum, finalMatrix. rewrite Hrun. simpl. rewrite Hsum.
  f_equal. unfold totalLength.
  apply sumZ_fmap_ext. intros record Hin. unfold gridMass.
  by rewrite decide_True by (by apply Hgrid).
Qed.

Lemma merged_sum_counts_bases_in_grid_witness :
  finalSum (constCount 7) log10_nonpositive undefined_is_zero (defaultArgs 2)
    [("s1", "GACC"); ("s2", "AT")]%string
  = Some (totalLength [("s1", "GACC"); ("s2", "AT")]%string).
Proof.
  apply (merged_sum_counts_bases_in_grid (constCount 7) log10_nonpositive
           undefined_is_zero (defaultArgs 2)).
  - simpl. lia.
  - intros record Hin.
    apply elem_of_cons in Hin as [->|Hin];
      [|apply list_elem_of_singleton in Hin as ->]; reflexivity.
  - intros record Hin.
    apply elem_of_cons in Hin as [->|Hin];
      [|apply list_elem_of_singleton in Hin as ->];
      vm_compute; repeat split; discriminate.
Defined.

(** * Further properties of the code *)

(** ** The load of a worker *)

Lemma length_interlaced_indices (step : nat) :
  (1 <= step)%nat ->
  forall fuel i end_, (end_ - i <= fuel)%nat ->
    length (interlaced_indices fuel i end_ step) = ((end_ - i + step - 1) / step)%nat.
Proof.
  intros Hstep. induction fuel as [|fuel IH]; intros i end_ Hfuel.
  - simpl. symmetry. apply Nat.div_small. lia.
  - simpl. destruct (i <? end_)%nat eqn:Hlt.
    + apply Nat.ltb_lt in Hlt. simpl. rewrite IH by lia.
      destruct (decide (i + step <= end_)%nat) as [Hle|Hgt].
      * replace (end_ - i + step - 1)%nat
          with ((end_ - (i + step) + step - 1) + 1 * step)%nat by lia.
        rewrite Nat.div_add by lia. lia.
      * replace (end_ - (i + step) + step - 1)%nat with (step - 1)%nat by lia.
        rewrite (Nat.div_small (step - 1)) by lia.
        apply (Nat.div_unique _ _ 1%nat (end_ - i - 1)%nat); lia.
    + apply Nat.ltb_ge in Hlt. simpl. symmetry. apply Nat.div_small. lia.
Qed.

Lemma length_workerIndices (T n t : nat) :
  (1 <= T)%nat ->
  length (workerIndices T n t) = ((n - t + T - 1) / T)%nat.
Proof. intros HT. unfold workerIndices. apply length_interlaced_indices; lia. Qed.

(** The interlaced partition shares a batch out evenly: worker [t] of [T]
    makes the calls of [workerIndices], which are
    [ceil ((n - t) / T)] of the [n] records of the batch, none when
    [n <= t]; two workers differ by at most one call, and the worker with
    the lower id never has the fewer. *)
Theorem interlaced_load_balanced
    (getCount : bool -> string -> Z) (log10 : float -> float)
    (uint16_undefined : float -> Z) (args : Args) (n : nat) :
  (1 <= threads args)%nat ->
  (forall th_id st,
      processInterlaced getCount log10 uint16_undefined args th_id st
      = runSchedule getCount log10 uint16_undefined args
          ((fun index => (index, th_id))
             <$> workerIndices (threads args) (recordsInBatch st) th_id) st)
  ∧ (forall t, length (workerIndices (threads args) n t)
               = ((n - t + threads args - 1) / threads args)%nat)
  ∧ (forall t, (n <= t)%nat -> workerIndices (threads args) n t = [])
  ∧ (forall t t', (t <= t')%nat -> (t' < threads args)%nat ->
       (length (workerIndices (threads args) n t')
        <= length (workerIndices (threads args) n t)
        <= length (workerIndices (threads args) n t') + 1)%nat).
Proof.
  intros HT. set (T := threads args) in *. split; [|split; [|split]].
  - intros th_id st. unfold processInterlaced. apply interlaced_loop_schedule.
  - intros t. by apply length_workerIndices.
  - intros t Ht. apply length_zero_iff_nil. rewrite length_workerIndices by done.
    apply Nat.div_small. lia.
  - intros t t' Hle Hlt. rewrite !length_workerIndices by done. split.
    + apply Nat.Div0.div_le_mono. lia.
    + rewrite <- (Nat.div_add (n - t' + T - 1) 1 T) by lia.
      apply Nat.Div0.div_le_mono. lia.
Qed.

Lemma interlaced_load_balanced_witness :
  length (workerIndices 3 7 0) = ((7 - 0 + 3 - 1) / 3)%nat
  ∧ (length (workerIndices 3 7 2) <= length (workerIndices 3 7 0)
     <= length (workerIndices 3 7 2) + 1)%nat.
Proof.
  split.
  - apply (proj1 (proj2 (interlaced_load_balanced (constCount 7) log10_nonpositive
                           undefined_is_zero (setThreads 3 (defaultArgs 2)) 7
                           ltac:(simpl; lia)))).
  - apply (proj2 (proj2 (proj2 (interlaced_load_balanced (constCount 7)
                                  log10_nonpositive undefined_is_zero
                                  (setThreads 3 (defaultArgs 2)) 7
                                  ltac:(simpl; lia))))); simpl; lia.
Defined.

(** ** The block partition *)

Section BlocksFacts.

Variable getCount : bool -> string -> Z.
Variable log10 : float -> float.
Variable uint16_undefined : float -> Z.
Variable args : Args.

Local Abbreviation runSchedule' := (runSchedule getCount log10 uint16_undefined args).

Lemma blocks_loop_schedule (fuel i end_ th_id : nat) (st : Sect) :
  (S end_ - i <= fuel)%nat ->
  blocks_loop getCount log10 uint16_undefined args fuel i end_ th_id st
  = runSchedule' ((fun index => (index, th_id)) <$> seq i (S end_ - i)) st.
Proof.
  revert i st. induction fuel as [|fuel IH]; intros i st Hfuel.
  - replace (S end_ - i)%nat with 0%nat by lia. reflexivity.
  - simpl. destruct (i <=? end_)%nat eqn:Hle.
    + apply Nat.leb_le in Hle. rewrite IH by lia.
      replace (S end_ - i)%nat with (S (S end_ - S i)) by lia. reflexivity.
    + apply Nat.leb_gt in Hle.
      replace (S end_ - i)%nat with 0%nat by lia. reflexivity.
Qed.

Lemma processInBlocks_schedule (th_id : nat) (st : Sect) :
  processInBlocks getCount log10 uint16_undefined args th_id st
  = runSchedule' ((fun index => (index, th_id))
                    <$> blockIndices (threads args) th_id) st.
Proof.
  unfold processInBlocks, blockIndices, remaining, bucket_size. cbv zeta.
  set (b := (BATCH_SIZE / threads args)%nat).
  set (r := (BATCH_SIZE mod (if (b <? 1)%nat then 1 else threads args))%nat).
  rewrite blocks_loop_schedule by lia.
  rewrite fmap_app, (runSchedule_app getCount log10 uint16_undefined args).
  assert (Hblock :
    seq (if (b <? 1)%nat then th_id else (th_id * b)%nat)
        (S (if (b <? 1)%nat then th_id
            else ((if (b <? 1)%nat then th_id else (th_id * b)%nat) + b - 1)%nat)
         - (if (b <? 1)%nat then th_id else (th_id * b)%nat))
    = (if (b <? 1)%nat then [th_id] else seq (th_id * b) b)).
  { destruct (b <? 1)%nat eqn:Hb.
    - replace (S th_id - th_id)%nat with 1%nat by lia. reflexivity.
    - apply Nat.ltb_ge in Hb. f_equal. lia. }
  rewrite Hblock.
  destruct (th_id <? r)%nat; reflexivity.
Qed.

End BlocksFacts.

Lemma blockIndices_elem (T t j : nat) :
  (1 <= T <= BATCH_SIZE)%nat ->
  j ∈ blockIndices T t
  <-> (t * (BATCH_SIZE / T) <= j < t * (BATCH_SIZE / T) + BATCH_SIZE / T)%nat
      ∨ ((t < BATCH_SIZE mod T)%nat ∧ j = (T * (BATCH_SIZE / T) + t)%nat).
Proof.
  intros HT. unfold blockIndices.
  assert (Hb : (1 <= BATCH_SIZE / T)%nat).
  { apply Nat.div_le_lower_bound; lia. }
  generalize dependent BATCH_SIZE. intros B HT Hb.
  destruct (B / T <? 1)%nat eqn:Hlt; [apply Nat.ltb_lt in Hlt; lia|].
  rewrite elem_of_app, elem_of_seq.
  destruct (t <? B mod T)%nat eqn:Hr.
  - apply Nat.ltb_lt in Hr. rewrite list_elem_of_singleton. intuition lia.
  - apply Nat.ltb_ge in Hr. rewrite elem_of_nil. intuition lia.
Qed.

Lemma blockIndices_NoDup (T t : nat) :
  (1 <= T <= BATCH_SIZE)%nat -> NoDup (blockIndices T t).
Proof.
  intros HT. unfold blockIndices.
  assert (Hb : (1 <= BATCH_SIZE / T)%nat).
  { apply Nat.div_le_lower_bound; lia. }
  assert (Hmod : (BATCH_SIZE mod T < T)%nat) by (apply Nat.mod_upper_bound; lia).
  generalize dependent BATCH_SIZE. intros B HT Hb Hmod.
  destruct (B / T <? 1)%nat eqn:Hlt; [apply Nat.ltb_lt in Hlt; lia|].
  apply NoDup_app. split; [apply NoDup_seq|]. split.
  - intros j Hj Hj'. apply elem_of_seq in Hj.
    destruct (t <? B mod T)%nat eqn:Hr; [|by apply elem_of_nil in Hj'].
    apply Nat.ltb_lt in Hr. apply list_elem_of_singleton in Hj'. nia.
  - destruct (t <? B mod T)%nat; [apply NoDup_singleton|apply NoDup_nil_2].
Qed.

Lemma blocks_Permutation (T : nat) :
  (1 <= T <= BATCH_SIZE)%nat ->
  seq 0 T ≫= blockIndices T ≡ₚ seq 0 BATCH_SIZE.
Proof.
  intros HT.
  assert (Hb : (1 <= BATCH_SIZE / T)%nat).
  { apply Nat.div_le_lower_bound; lia. }
  assert (Hmod : (BATCH_SIZE mod T < T)%nat) by (apply Nat.mod_upper_bound; lia).
  assert (Hdiv : BATCH_SIZE = (T * (BATCH_SIZE / T) + BATCH_SIZE mod T)%nat).
  { apply Nat.div_mod_eq. }
  apply NoDup_Permutation.
  - apply NoDup_bind.
    + intros t t' j Ht Ht' Hj Hj'.
      apply elem_of_seq in Ht, Ht'.
      apply (blockIndices_elem T t j HT) in Hj.
      apply (blockIndices_elem T t' j HT) in Hj'.
      generalize dependent BATCH_SIZE. intros B HT Hb Hmod Hdiv Hj Hj'.
      set (b := (B / T)%nat) in *. clearbody b.
      destruct Hj as [Hj|[Hr ->]], Hj' as [Hj'|[Hr' Hj']]; nia.
    + intros t _. by apply blockIndices_NoDup.
    + apply NoDup_seq.
  - apply NoDup_seq.
  - intros j. rewrite list_elem_of_bind, elem_of_seq. split.
    + intros (t & Hj & Ht). apply elem_of_seq in Ht.
      apply (blockIndices_elem T t j HT) in Hj.
      generalize dependent BATCH_SIZE. intros B HT Hb Hmod Hdiv Hj.
      set (b := (B / T)%nat) in *. clearbody b.
      destruct Hj as [Hj|[Hr ->]]; nia.
    + intros [_ Hj]. simpl in Hj.
      destruct (decide (j < T * (BATCH_SIZE / T))%nat) as [Hlow|Hhigh].
      * exists (j / (BATCH_SIZE / T))%nat. split.
        -- apply (blockIndices_elem T _ j HT). left.
           pose proof (Nat.div_mod_eq j (BATCH_SIZE / T)) as Hq.
           pose proof (Nat.mod_upper_bound j (BATCH_SIZE / T)) as Hu.
           lia.
        -- apply elem_of_seq. split; [lia|]. simpl.
           apply Nat.Div0.div_lt_upper_bound. lia.
      * exists (j - T * (BATCH_SIZE / T))%nat. split.
        -- apply (blockIndices_elem T _ j HT). right. lia.
        -- apply elem_of_seq. lia.
Qed.

Lemma blockIndices_many_threads (T t : nat) :
  (BATCH_SIZE < T)%nat -> blockIndices T t = [t].
Proof.
  intros HT. unfold blockIndices.
  rewrite (Nat.div_small BATCH_SIZE T) by lia. simpl (0 <? 1)%nat. cbv iota.
  rewrite Nat.mod_1_r. reflexivity.
Qed.

Lemma workerIndices_many_threads (T n t : nat) :
  (n <= T)%nat -> (1 <= T)%nat -> (t < n)%nat -> workerIndices T n t = [t].
Proof.
  intros Hn HT Ht. unfold workerIndices.
  destruct n as [|n]; [lia|]. simpl.
  destruct (t <? S n)%nat eqn:Hlt; [|apply Nat.ltb_ge in Hlt; lia].
  f_equal. destruct n as [|n]; [reflexivity|]. simpl.
  destruct (t + T <? S (S n))%nat eqn:Hlt'; [apply Nat.ltb_lt in Hlt'; lia|done].
Qed.

(** The partition of [processInBlocks]: the calls it makes are those of
    [blockIndices]; with at most [BATCH_SIZE] threads the workers share out
    the indices 0 .. BATCH_SIZE - 1, each index to one worker, whatever the
    number of records of the batch, so in a batch of fewer records some
    worker is handed an index past the last record; with more threads than
    [BATCH_SIZE] worker [t] is handed index [t] alone, which for the
    workers that pass the test of [analyseBatchSlice] is the index
    [processInterlaced] gives them. *)
Theorem processInBlocks_partition :
  (forall getCount log10 uint16_undefined args th_id st,
      processInBlocks getCount log10 uint16_undefined args th_id st
      = runSchedule getCount log10 uint16_undefined args
          ((fun index => (index, th_id)) <$> blockIndices (threads args) th_id) st)
  ∧ (forall T, (1 <= T <= BATCH_SIZE)%nat ->
       seq 0 T ≫= blockIndices T ≡ₚ seq 0 BATCH_SIZE
       ∧ (forall t, NoDup (blockIndices T t))
       ∧ forall n, (n < BATCH_SIZE)%nat ->
           exists t, (t < T)%nat ∧ n ∈ blockIndices T t)
  ∧ (forall T n t, (BATCH_SIZE < T)%nat -> (n <= BATCH_SIZE)%nat ->
       blockIndices T t = [t]
       ∧ ((t < n)%nat -> workerIndices T n t = blockIndices T t)).
Proof.
  split; [|split].
  - intros. apply processInBlocks_schedule.
  - intros T HT. split; [by apply blocks_Permutation|].
    split; [intros t; by apply blockIndices_NoDup|].
    intros n Hn.
    assert (Hin : n ∈ seq 0 T ≫= blockIndices T).
    { rewrite (blocks_Permutation T HT). apply elem_of_seq. lia. }
    apply list_elem_of_bind in Hin as (t & Hin & Ht).
    apply elem_of_seq in Ht. exists t. split; [lia|done].
  - intros T n t HT Hn. split; [by apply blockIndices_many_threads|].
    intros Ht. rewrite blockIndices_many_threads by done.
    apply workerIndices_many_threads; lia.
Qed.

Lemma processInBlocks_partition_witness :
  seq 0 3 ≫= blockIndices 3 ≡ₚ seq 0 BATCH_SIZE
  ∧ blockIndices 2000 5 = [5]%nat.
Proof.
  split.
  - apply (proj1 (proj2 processInBlocks_partition) 3%nat).
    unfold BATCH_SIZE. lia.
  - apply (proj1 (proj2 (proj2 processInBlocks_partition) 2000%nat 7%nat 5%nat
                    ltac:(unfold BATCH_SIZE; lia) ltac:(unfold BATCH_SIZE; lia))).
Defined.

(** The early return of [analyseBatchSlice] changes nothing: with or
    without it the worker does what [processInterlaced] does, and a worker
    whose id is not below the number of records of the batch leaves the
    state as it is. *)
Theorem analyseBatchSlice_guard_redundant
    (getCount : bool -> string -> Z) (log10 : float -> float)
    (uint16_undefined : float -> Z) (args : Args) (th_id : nat) (st : Sect) :
  analyseBatchSlice getCount log10 uint16_undefined args th_id st
  = processInterlaced getCount log10 uint16_undefined args th_id st
  ∧ ((recordsInBatch st <= th_id)%nat ->
     processInterlaced getCount log10 uint16_undefined args th_id st = st).
Proof.
  assert (Hidle : (recordsInBatch st <= th_id)%nat ->
                  processInterlaced getCount log10 uint16_undefined args th_id st = st).
  { intros Hle. unfold processInterlaced.
    destruct (recordsInBatch st) as [|n]; [reflexivity|]. simpl.
    destruct (th_id <? S n)%nat eqn:Hlt; [apply Nat.ltb_lt in Hlt; lia|done]. }
  split; [|exact Hidle].
  unfold analyseBatchSlice.
  destruct (bucket_size args <? 1)%nat; [|reflexivity]. simpl.
  destruct (recordsInBatch st <=? th_id)%nat eqn:Hle; [|reflexivity].
  apply Nat.leb_le in Hle. by rewrite Hidle.
Qed.

Lemma analyseBatchSlice_guard_redundant_witness :
  processInterlaced (constCount 7) log10_nonpositive undefined_is_zero
    (setThreads 2000 (defaultArgs 2)) 5 shortBatchDone
  = shortBatchDone.
Proof.
  apply (proj2 (analyseBatchSlice_guard_redundant (constCount 7) log10_nonpositive
                  undefined_is_zero (setThreads 2000 (defaultArgs 2)) 5
                  shortBatchDone)).
  vm_compute. lia.
Defined.

(** ** The cells of the merged matrix *)

Section Cells.

Import ThreadedSparseMatrix.

Variable getCount : bool -> string -> Z.
Variable log10 : float -> float.
Variable uint16_undefined : float -> Z.
Variable args : Args.

Local Abbreviation processSeq' := (processSeq getCount log10 uint16_undefined args).
Local Abbreviation runSchedule' := (runSchedule getCount log10 uint16_undefined args).
Local Abbreviation batchDone' := (batchDone getCount log10 uint16_undefined args).
Local Abbreviation batch_loop' := (batch_loop getCount log10 uint16_undefined args).
Local Abbreviation binOf' := (binOf getCount log10 uint16_undefined args).
Local Abbreviation afterBatch' := (afterBatch getCount log10 uint16_undefined args).
Local Abbreviation cellMass' := (cellMass getCount log10 uint16_undefined args).
Local Abbreviation unmerged' := (unmerged args).

Variables a b : Z.

Local Abbreviation mass :=
  (fun sq : string => if decide (binOf' sq = (a, b)) then seqLengthOf sq else 0).

Lemma cell_alter_inc (tms : list (gmap (Z * Z) Z)) (t : nat) (i j val : Z) :
  (t < length tms)%nat ->
  sumZ ((fun m => get m a b) <$> alter (fun m => inc m i j val) t tms)
  = sumZ ((fun m => get m a b) <$> tms)
    + (if decide ((i, j) = (a, b)) then val else 0).
Proof.
  revert t. induction tms as [|m tms IH]; intros t Ht.
  - simpl in Ht. lia.
  - destruct t as [|t].
    + change (alter (fun m => inc m i j val) 0%nat (m :: tms))
        with (inc m i j val :: tms).
      rewrite !fmap_cons, !sumZ_cons, get_inc.
      destruct (decide ((a, b) = (i, j))), (decide ((i, j) = (a, b)));
        try congruence; lia.
    + change (alter (fun m => inc m i j val) (S t) (m :: tms))
        with (m :: alter (fun m => inc m i j val) t tms).
      rewrite !fmap_cons, !sumZ_cons, IH by (simpl in Ht; lia). lia.
Qed.

Lemma threadCellOf_processSeq index th_id st :
  unmerged' st -> (th_id < threads args)%nat ->
  threadCellOf a b (processSeq' index th_id st)
  = threadCellOf a b st + mass (default EmptyString (seqs st !! index)).
Proof.
  intros (Hlen & _) Ht. rewrite processSeq_unfold. unfold threadCellOf. simpl.
  rewrite cell_alter_inc by lia. reflexivity.
Qed.

Lemma runSchedule_cell l :
  forall st, unmerged' st -> (forall c, c ∈ l -> (c.2 < threads args)%nat) ->
    threadCellOf a b (runSchedule' l st)
    = threadCellOf a b st
      + sumZ ((fun j => mass (default EmptyString (seqs st !! j))) <$> l.*1).
Proof.
  induction l as [|[i t] l IH]; intros st Hst Hl.
  - simpl. lia.
  - change (runSchedule' ((i, t) :: l) st)
      with (runSchedule' l (processSeq' i t st)).
    rewrite IH.
    + rewrite threadCellOf_processSeq; [|done|apply (Hl (i, t)); by left].
      rewrite seqs_processSeq. rewrite !fmap_cons, sumZ_cons. simpl. lia.
    + by apply unmerged_processSeq.
    + intros c Hc. apply Hl. by right.
Qed.

Lemma mass_batch (batch : list (string * string)) :
  (fun j => mass (default EmptyString (batch.*2 !! j))) <$> seq 0 (length batch)
  = (fun record => mass record.2) <$> batch.
Proof.
  apply list_eq. intros j. rewrite !list_lookup_fmap.
  destruct (batch !! j) as [record|] eqn:Hj.
  - rewrite lookup_seq_lt by (by apply lookup_lt_Some in Hj). simpl.
    by rewrite list_lookup_fmap, Hj.
  - rewrite lookup_seq_ge by (by apply lookup_ge_None in Hj). done.
Qed.

Lemma batchDone_cell batch st :
  (1 <= threads args)%nat -> unmerged' st ->
  threadCellOf a b (batchDone' batch st)
  = threadCellOf a b st + cellMass' batch a b.
Proof.
  intros HT Hst. rewrite batchDone_schedule.
  rewrite runSchedule_cell.
  - change (threadCellOf a b (batchStart batch st)) with (threadCellOf a b st).
    f_equal. unfold cellMass. rewrite <- mass_batch.
    apply sumZ_Permutation, fmap_Permutation.
    by apply schedule_indices_Permutation.
  - exact Hst.
  - intros [j t] Hc. apply schedule_elem in Hc. simpl. lia.
Qed.

Lemma cellMass_app (l k : list (string * string)) :
  cellMass' (l ++ k) a b = cellMass' l a b + cellMass' k a b.
Proof. unfold cellMass. by rewrite fmap_app, sumZ_app. Qed.

Lemma batch_loop_cell (fuel : nat) :
  (1 <= threads args)%nat ->
  forall r r',
    batch_loop' fuel r = Some r' -> unmerged' (sect r) ->
    threadCellOf a b (sect r') + cellMass' (reader r') a b
    = threadCellOf a b (sect r) + cellMass' (reader r) a b.
Proof.
  intros HT. induction fuel as [|fuel IH]; intros r r' Hloop Hun.
  - simpl in Hloop. by injection Hloop as <-.
  - simpl in Hloop. destruct (reader r) as [|first rest] eqn:Hr.
    + injection Hloop as <-. by rewrite Hr.
    + rewrite <- Hr in *. rewrite processBatch_unfold in Hloop.
      destruct (destroyBatchVars _) as [cleared|]; [|done]. simpl in Hloop.
      rewrite (IH _ _ Hloop).
      * change (threadCellOf a b (sect (afterBatch' r)))
          with (threadCellOf a b (batchDone' (take BATCH_SIZE (reader r)) (sect r))).
        rewrite batchDone_cell by done. simpl.
        rewrite <- (take_drop BATCH_SIZE (reader r)) at 3.
        rewrite cellMass_app. lia.
      * by apply batchDone_matrix.
Qed.

Lemma get_merge (w h : Z) (tms : list (gmap (Z * Z) Z)) :
  forall acc,
    get (foldl (add_grid w h) acc tms) a b
    = get acc a b
      + (if decide (in_grid w h (a, b))
         then sumZ ((fun m => get m a b) <$> tms) else 0).
Proof.
  induction tms as [|m tms IH]; intros acc.
  - simpl. destruct (decide _); lia.
  - cbn [foldl]. rewrite fmap_cons, sumZ_cons, IH, get_add_grid.
    destruct (decide _); lia.
Qed.

Lemma threadCellOf_newSect : threadCellOf a b (newSect args) = 0.
Proof.
  unfold threadCellOf. simpl.
  rewrite (sumZ_fmap_ext _ (fun _ => 0))
    by (intros m Hm%elem_of_replicate; by destruct Hm as [-> _]).
  apply sumZ_fmap_zero.
Qed.

Lemma execute_cell records r :
  (1 <= threads args)%nat ->
  execute getCount log10 uint16_undefined args records = Some r ->
  reader r = [] ->
  get (getFinalMatrix (contamination_mx (sect r))) a b
  = if decide (in_grid (gcBins args) (cvgBins args) (a, b))
    then cellMass' records a b else 0.
Proof.
  intros HT Hrun Hend. unfold execute, processSeqFile in Hrun.
  destruct (batch_loop _ _ _ _ _ _) as [r'|] eqn:Hloop; [|done].
  simpl in Hrun. injection Hrun as <-. simpl in Hend.
  pose proof (batch_loop_cell _ HT _ _ Hloop (unmerged_newSect args)) as Hcell.
  simpl in Hcell. rewrite Hend, threadCellOf_newSect in Hcell.
  assert (Hun : unmerged' (sect r')).
  { destruct (decide (Exists (fun record => isShort args record.2 = true) records))
      as [Hex|Hall].
    - apply Exists_exists in Hex as (record & Hin & Hshort).
      apply list_elem_of_lookup in Hin as [j Hj].
      by rewrite (batch_loop_short getCount log10 uint16_undefined args _ HT _ j record)
        in Hloop.
    - destruct (batch_loop_no_short getCount log10 uint16_undefined args
                  (length records) HT
                  {| sect := newSect args; reader := records;
                     count_path_stream := []; cvg_gc_stream := [StatHeader] |})
        as (r'' & Hloop' & _ & _ & _ & Hun & _).
      + done.
      + intros record Hin. simpl in Hin.
        destruct (isShort args record.2) eqn:Hshort; [|done].
        exfalso. apply Hall, Exists_exists. by exists record.
      + apply unmerged_newSect.
      + rewrite Hloop in Hloop'. by injection Hloop' as ->. }
  destruct Hun as (_ & Hfin & Hw & Hh).
  unfold getFinalMatrix. simpl. rewrite Hfin, Hw, Hh, get_merge.
  fold (threadCellOf a b (sect r')).
  unfold cellMass in Hcell at 1. simpl in Hcell.
  unfold get at 1. rewrite lookup_empty. simpl.
  destruct (decide _); lia.
Qed.

End Cells.

Section RunResults.

Import ThreadedSparseMatrix.

Variable getCount : bool -> string -> Z.
Variable log10 : float -> float.
Variable uint16_undefined : float -> Z.
Variable args : Args.

Lemma short_or_not (records : list (string * string)) :
  (exists (j : nat) record, records !! j = Some record ∧ isShort args record.2 = true)
  ∨ (forall record, record ∈ records -> isShort args record.2 = false).
Proof.
  destruct (decide (Exists (fun record => isShort args record.2 = true) records))
    as [Hex|Hall].
  - left. apply Exists_exists in Hex as (record & Hin & Hshort).
    apply list_elem_of_lookup in Hin as [j Hj]. by exists j, record.
  - right. intros record Hin.
    destruct (isShort args record.2) eqn:Hshort; [|done].
    exfalso. apply Hall, Exists_exists. by exists record.
Qed.

Lemma execute_some records r :
  (1 <= threads args)%nat ->
  execute getCount log10 uint16_undefined args records = Some r ->
  (forall record, record ∈ records -> isShort args record.2 = false)
  ∧ reader r = []
  ∧ cvg_gc_stream r = StatHeader :: (statOf getCount args <$> records)
  ∧ count_path_stream r
    = (if noCountStats args then []
       else records ≫= countsOutputOf getCount args).
Proof.
  intros HT Hrun.
  destruct (short_or_not records) as [(j & record & Hj & Hshort)|Hlong].
  { by rewrite (execute_short getCount log10 uint16_undefined args records j record)
      in Hrun. }
  destruct (execute_no_short getCount log10 uint16_undefined args records HT Hlong)
    as (r' & Hrun' & Hend & Hstats & Hcounts & _).
  rewrite Hrun in Hrun'. by injection Hrun' as <-.
Qed.

End RunResults.

(** With at least one thread, an input whose sequences all have their cell
    in the grid is run to its end when, and only when, none of its
    sequences is shorter than a k-mer: [destroyBatchVars] is defined exactly
    on the batches without such a sequence. *)
Theorem run_completes_iff_no_short_sequence
    (getCount : bool -> string -> Z) (log10 : float -> float)
    (uint16_undefined : float -> Z) (args : Args)
    (records : list (string * string)) :
  (1 <= threads args)%nat ->
  (forall record, record ∈ records ->
     ThreadedSparseMatrix.in_grid (gcBins args) (cvgBins args)
       (binOf getCount log10 uint16_undefined args record.2)) ->
  is_Some (execute getCount log10 uint16_undefined args records)
  <-> forall record, record ∈ records -> merLen args <= seqLengthOf record.2.
Proof.
  intros HT _. split.
  - intros [r Hrun] record Hin.
    destruct (Z.le_gt_cases (merLen args) (seqLengthOf record.2)) as [|Hlt]; [done|].
    apply list_elem_of_lookup in Hin as [j Hj].
    rewrite (execute_short getCount log10 uint16_undefined args records j record)
      in Hrun; [done|done|done|].
    apply isShort_true. lia.
  - intros Hlong.
    destruct (execute_no_short getCount log10 uint16_undefined args records HT)
      as (r & -> & _); [|done].
    intros record Hin. apply isShort_false. by apply Hlong.
Qed.

Lemma run_completes_iff_no_short_sequence_witness :
  is_Some (execute (constCount 7) log10_nonpositive undefined_is_zero (defaultArgs 2)
             [("s1", "ACGT"); ("s2", "AT")]%string)
  <-> forall record, record ∈ [("s1", "ACGT"); ("s2", "AT")]%string ->
                     merLen (defaultArgs 2) <= seqLengthOf record.2.
Proof.
  apply (run_completes_iff_no_short_sequence (constCount 7) log10_nonpositive
           undefined_is_zero (defaultArgs 2)).
  - simpl. lia.
  - intros record Hin.
    apply elem_of_cons in Hin as [->|Hin];
      [|apply list_elem_of_singleton in Hin as ->];
      vm_compute; repeat split; discriminate.
Defined.

(** ** The error stream *)

Section Diagnostics.

Variable getCount : bool -> string -> Z.
Variable log10 : float -> float.
Variable uint16_undefined : float -> Z.
Variable args : Args.

Local Abbreviation processSeq' := (processSeq getCount log10 uint16_undefined args).
Local Abbreviation runSchedule' := (runSchedule getCount log10 uint16_undefined args).
Local Abbreviation batchDone' := (batchDone getCount log10 uint16_undefined args).
Local Abbreviation batch_loop' := (batch_loop getCount log10 uint16_undefined args).
Local Abbreviation afterBatch' := (afterBatch getCount log10 uint16_undefined args).

(** What [processSeq] writes to the error stream for index [j]. *)
Local Abbreviation report st :=
  (fun j : nat =>
     let sq := default EmptyString (seqs st !! j) in
     if isShort args sq
     then Some (TooShort (default EmptyString (names st !! j)) sq
                         (seqLengthOf sq) (merLen args))
     else None).

Lemma cerr_runSchedule l :
  forall st, cerr (runSchedule' l st) = cerr st ++ omap (report st) l.*1.
Proof.
  induction l as [|[i t] l IH]; intros st.
  - simpl. by rewrite app_nil_r.
  - change (runSchedule' ((i, t) :: l) st)
      with (runSchedule' l (processSeq' i t st)).
    rewrite IH, names_processSeq, seqs_processSeq.
    rewrite processSeq_unfold. cbn [cerr]. rewrite fmap_cons. csimpl.
    destruct (isShort args _); [|done].
    by rewrite <- app_assoc.
Qed.

Lemma report_batch (batch : list (string * string)) (st : Sect) :
  names st = batch.*1 -> seqs st = batch.*2 ->
  omap (report st) (seq 0 (length batch)) = diagnosticsOf args batch.
Proof.
  intros Hnames Hseqs. unfold diagnosticsOf.
  transitivity (omap (fun record : string * string =>
                        if isShort args record.2
                        then Some (diagnosticOf args record) else None) batch).
  - apply list_omap_ext. apply Forall2_same_length_lookup. split.
    + by rewrite length_seq.
    + intros j j' record Hj Hrecord.
      apply lookup_seq in Hj as [-> _]. simpl.
      rewrite Hnames, Hseqs, !list_lookup_fmap, Hrecord. reflexivity.
  - clear Hnames Hseqs. induction batch as [|record batch IH]; [done|].
    csimpl. rewrite filter_cons.
    destruct (isShort args record.2) eqn:Hshort.
    + rewrite decide_True by done. rewrite fmap_cons. by rewrite IH.
    + rewrite decide_False by (by intros ?). exact IH.
Qed.

Lemma workerIndices_single (n : nat) : workerIndices 1 n 0 = seq 0 n.
Proof.
  unfold workerIndices.
  assert (H : forall fuel i, interlaced_indices fuel i (i + fuel) 1 = seq i fuel).
  { induction fuel as [|fuel IH]; intros i; [done|]. simpl.
    destruct (i <? i + S fuel)%nat eqn:Hlt; [|apply Nat.ltb_ge in Hlt; lia].
    f_equal. replace (i + S fuel)%nat with (i + 1 + fuel)%nat by lia.
    rewrite IH. f_equal. lia. }
  apply (H n 0%nat).
Qed.

Lemma cerr_analyseBatch_single batch st :
  threads args = 1%nat -> names st = batch.*1 -> seqs st = batch.*2 ->
  cerr (analyseBatch getCount log10 uint16_undefined args st)
  = cerr st ++ diagnosticsOf args batch.
Proof.
  intros HT Hnames Hseqs. rewrite analyseBatch_schedule, cerr_runSchedule.
  f_equal. rewrite <- (report_batch batch st Hnames Hseqs). f_equal.
  rewrite schedule_indices, HT. simpl. rewrite app_nil_r.
  unfold recordsInBatch. rewrite Hnames, length_fmap.
  apply workerIndices_single.
Qed.

End Diagnostics.

(** The error stream of a batch that a single thread analyses: when
    [analyseBatch] returns, the stream holds what it held before and then
    one diagnostic for every record of the batch that is shorter than a
    k-mer, no other, in the order of the input.  A diagnostic gives the
    name, the sequence, its length and the k-mer length. *)
Theorem diagnostics_are_the_short_sequences
    (getCount : bool -> string -> Z) (log10 : float -> float)
    (uint16_undefined : float -> Z) (args : Args)
    (batch : list (string * string)) (st : Sect) :
  threads args = 1%nat ->
  names st = batch.*1 -> seqs st = batch.*2 ->
  cerr (analyseBatch getCount log10 uint16_undefined args st)
  = cerr st ++ diagnosticsOf args batch
  ∧ (forall name sq len k,
       TooShort name sq len k ∈ diagnosticsOf args batch
       <-> (name, sq) ∈ batch ∧ len = seqLengthOf sq ∧ k = merLen args
           ∧ seqLengthOf sq < merLen args).
Proof.
  intros HT Hnames Hseqs. split; [by apply cerr_analyseBatch_single|].
  intros name sq len k. unfold diagnosticsOf.
  rewrite list_elem_of_fmap. split.
  - intros ([name' sq'] & Heq & Hin). apply list_elem_of_filter in Hin as [Hshort Hin].
    unfold diagnosticOf in Heq. simpl in *. injection Heq as -> -> -> ->.
    unfold isShort in Hshort. apply Z.ltb_lt in Hshort. done.
  - intros (Hin & -> & -> & Hshort). exists (name, sq). split; [done|].
    apply list_elem_of_filter. split; [|done]. simpl. by apply isShort_true.
Qed.

Lemma diagnostics_are_the_short_sequences_witness :
  cerr (analyseBatch (constCount 7) log10_nonpositive undefined_is_zero
          (defaultArgs 2) (batchStart shortBatch (newSect (defaultArgs 2))))
  = cerr (batchStart shortBatch (newSect (defaultArgs 2)))
    ++ diagnosticsOf (defaultArgs 2) shortBatch.
Proof.
  apply (diagnostics_are_the_short_sequences (constCount 7) log10_nonpositive
           undefined_is_zero (defaultArgs 2) shortBatch
           (batchStart shortBatch (newSect (defaultArgs 2)))).
  - reflexivity.
  - reflexivity.
  - reflexivity.
Defined.

(** The files of a run that reaches its end: the reader is at its end;
    the statistics file holds its header and then one row per record, in
    the order of the input, across the batches of [BATCH_SIZE] records; the
    counts file holds two lines per record in the same order, and nothing
    when the counts are switched off. *)
Theorem run_output_in_input_order
    (getCount : bool -> string -> Z) (log10 : float -> float)
    (uint16_undefined : float -> Z) (args : Args)
    (records : list (string * string)) (r : Run) :
  (1 <= threads args)%nat ->
  execute getCount log10 uint16_undefined args records = Some r ->
  reader r = []
  ∧ cvg_gc_stream r = StatHeader :: (statOf getCount args <$> records)
  ∧ count_path_stream r
    = (if noCountStats args then []
       else records ≫= countsOutputOf getCount args)
  ∧ length (cvg_gc_stream r) = S (length records)
  ∧ length (count_path_stream r)
    = (if noCountStats args then 0 else 2 * length records)%nat.
Proof.
  intros HT Hrun.
  destruct (execute_some getCount log10 uint16_undefined args records r HT Hrun)
    as (_ & Hend & Hstats & Hcounts).
  split; [done|]. split; [done|]. split; [done|].
  split; [by rewrite Hstats; simpl; rewrite length_fmap|].
  rewrite Hcounts. destruct (noCountStats args); [done|].
  clear. induction records as [|record records IH]; [done|].
  rewrite bind_cons, length_app, IH. simpl. lia.
Qed.

Lemma run_output_in_input_order_witness :
  exists r,
    execute (constCount 7) log10_nonpositive undefined_is_zero (defaultArgs 2)
      [("s1", "ACGT"); ("s2", "AT")]%string = Some r
    ∧ count_path_stream r = [">s1"; "7 7 7"; ">s2"; "7"]%string.
Proof.
  destruct (execute (constCount 7) log10_nonpositive undefined_is_zero (defaultArgs 2)
              [("s1", "ACGT"); ("s2", "AT")]%string) as [r|] eqn:Hrun;
    [|vm_compute in Hrun; discriminate].
  exists r. split; [reflexivity|].
  apply (proj1 (proj2 (proj2
           (run_output_in_input_order (constCount 7) log10_nonpositive
              undefined_is_zero (defaultArgs 2) _ r ltac:(simpl; lia) Hrun)))).
Defined.

(** Every cell of the merged matrix: a cell of the grid holds the sum of
    the lengths of the sequences of the input that were binned to it, and an
    index pair outside the grid holds nothing. *)
Theorem merged_cell_holds_its_sequences
    (getCount : bool -> string -> Z) (log10 : float -> float)
    (uint16_undefined : float -> Z) (args : Args)
    (records : list (string * string)) (m : gmap (Z * Z) Z) :
  (1 <= threads args)%nat ->
  finalMatrix getCount log10 uint16_undefined args records = Some m ->
  forall a b,
    ThreadedSparseMatrix.get m a b
    = if decide (ThreadedSparseMatrix.in_grid (gcBins args) (cvgBins args) (a, b))
      then cellMass getCount log10 uint16_undefined args records a b
      else 0.
Proof.
  intros HT Hfinal a b. unfold finalMatrix in Hfinal.
  destruct (execute _ _ _ _ _) as [r|] eqn:Hrun; [|done].
  simpl in Hfinal. injection Hfinal as <-.
  apply execute_cell; [done|done|].
  by apply (execute_some getCount log10 uint16_undefined args records).
Qed.

Lemma merged_cell_holds_its_sequences_witness :
  exists m,
    finalMatrix (constCount 7) log10_nonpositive undefined_is_zero (defaultArgs 2)
      [("s1", "GACC"); ("s2", "AT"); ("s3", "CGAC")]%string = Some m
    ∧ ThreadedSparseMatrix.get m 750 0 = 8.
Proof.
  destruct (finalMatrix (constCount 7) log10_nonpositive undefined_is_zero
              (defaultArgs 2) [("s1", "GACC"); ("s2", "AT"); ("s3", "CGAC")]%string)
    as [m|] eqn:Hfinal; [|vm_compute in Hfinal; discriminate].
  exists m. split; [reflexivity|].
  rewrite (merged_cell_holds_its_sequences (constCount 7) log10_nonpositive
             undefined_is_zero (defaultArgs 2) _ m ltac:(simpl; lia) Hfinal).
  vm_compute. reflexivity.
Defined.

Lemma isShort_setThreads (n : nat) (args : Args) (sq : string) :
  isShort (setThreads n args) sq = isShort args sq.
Proof. reflexivity. Qed.

Lemma statOf_setThreads getCount (n : nat) (args : Args) record :
  statOf getCount (setThreads n args) record = statOf getCount args record.
Proof. reflexivity. Qed.

Lemma countsOutputOf_setThreads getCount (n : nat) (args : Args) record :
  countsOutputOf getCount (setThreads n args) record = countsOutputOf getCount args record.
Proof. reflexivity. Qed.

Lemma cellMass_setThreads getCount log10 ud (n : nat) (args : Args) records a b :
  cellMass getCount log10 ud (setThreads n args) records a b
  = cellMass getCount log10 ud args records a b.
Proof. reflexivity. Qed.

(** The number of threads changes nothing of the results: with any two
    numbers of threads, both at least one, the run ends or fails alike, and
    when it ends the statistics file, the counts file and every cell of the
    merged matrix are the same. *)
Theorem results_independent_of_threads
    (getCount : bool -> string -> Z) (log10 : float -> float)
    (uint16_undefined : float -> Z) (args : Args)
    (records : list (string * string)) (T T' : nat) :
  (1 <= T)%nat -> (1 <= T')%nat ->
  cvg_gc_stream
    <$> execute getCount log10 uint16_undefined (setThreads T args) records
  = cvg_gc_stream
      <$> execute getCount log10 uint16_undefined (setThreads T' args) records
  ∧ count_path_stream
      <$> execute getCount log10 uint16_undefined (setThreads T args) records
    = count_path_stream
        <$> execute getCount log10 uint16_undefined (setThreads T' args) records
  ∧ forall a b,
      (fun m => ThreadedSparseMatrix.get m a b)
        <$> finalMatrix getCount log10 uint16_undefined (setThreads T args) records
      = (fun m => ThreadedSparseMatrix.get m a b)
          <$> finalMatrix getCount log10 uint16_undefined (setThreads T' args) records.
Proof.
  intros HT HT'.
  destruct (short_or_not args records) as [(j & record & Hj & Hshort)|Hlong].
  - rewrite !(execute_short getCount log10 uint16_undefined _ records j record)
      by done.
    unfold finalMatrix.
    rewrite !(execute_short getCount log10 uint16_undefined _ records j record)
      by done.
    done.
  - destruct (execute_no_short getCount log10 uint16_undefined (setThreads T args)
                records HT Hlong) as (r & Hrun & Hend & Hstats & Hcounts & _).
    destruct (execute_no_short getCount log10 uint16_undefined (setThreads T' args)
                records HT' Hlong) as (r' & Hrun' & Hend' & Hstats' & Hcounts' & _).
    unfold finalMatrix. rewrite Hrun, Hrun'. simpl.
    split; [by rewrite Hstats, Hstats'|].
    split; [by rewrite Hcounts, Hcounts'|].
    intros a b. f_equal.
    rewrite (execute_cell getCount log10 uint16_undefined (setThreads T args) a b
               records r HT Hrun Hend).
    rewrite (execute_cell getCount log10 uint16_undefined (setThreads T' args) a b
               records r' HT' Hrun' Hend').
    reflexivity.
Qed.

Lemma results_independent_of_threads_witness :
  count_path_stream
      <$> execute (constCount 7) log10_nonpositive undefined_is_zero
            (setThreads 1 (defaultArgs 2)) [("s1", "ACGT"); ("s2", "GG")]%string
    = count_path_stream
        <$> execute (constCount 7) log10_nonpositive undefined_is_zero
              (setThreads 3 (defaultArgs 2)) [("s1", "ACGT"); ("s2", "GG")]%string.
Proof.
  apply (results_independent_of_threads (constCount 7) log10_nonpositive
           undefined_is_zero (defaultArgs 2) _ 1 3); lia.
Defined.

(** ** The order of the calls of a batch *)

Section CallOrder.

Import ThreadedSparseMatrix.

Variable getCount : bool -> string -> Z.
Variable log10 : float -> float.
Variable uint16_undefined : float -> Z.
Variable args : Args.

Local Abbreviation processSeq' := (processSeq getCount log10 uint16_undefined args).
Local Abbreviation runSchedule' := (runSchedule getCount log10 uint16_undefined args).

#[local] Instance sameResults_equivalence : Equivalence sameResults.
Proof.
  split.
  - by intros st.
  - intros st st' [H1 H2]. by split.
  - intros st1 st2 st3 [H1 H2] [H3 H4]. split; [congruence|by etrans].
Qed.

Lemma inc_commute (m : gmap (Z * Z) Z) (i j v i' j' v' : Z) :
  inc (inc m i j v) i' j' v' = inc (inc m i' j' v') i j v.
Proof.
  unfold inc, get. destruct (decide ((i, j) = (i', j'))) as [Heq|Hne].
  - injection Heq as <- <-. rewrite !lookup_insert_eq, !insert_insert_eq. simpl.
    f_equal. lia.
  - rewrite !lookup_insert_ne by congruence.
    by rewrite insert_insert_ne by congruence.
Qed.

Lemma incTM_commute (mx : t) (t u : nat) (i j v i' j' v' : Z) :
  incTM t i j v (incTM u i' j' v' mx) = incTM u i' j' v' (incTM t i j v mx).
Proof.
  unfold incTM. simpl. f_equal.
  destruct (decide (t = u)) as [->|Hne].
  - rewrite !list_alter_alter_eq. apply list_alter_ext; [|done].
    intros m _. simpl. apply inc_commute.
  - by apply list_alter_alter_ne.
Qed.

Lemma processSeq_withoutCerr index th_id st :
  withoutCerr (processSeq' index th_id st)
  = withoutCerr (processSeq' index th_id (withoutCerr st)).
Proof. rewrite !processSeq_unfold. reflexivity. Qed.

Lemma processSeq_cerr index th_id st :
  cerr (processSeq' index th_id st)
  = cerr st ++ cerr (processSeq' index th_id (withoutCerr st)).
Proof.
  rewrite !processSeq_unfold. simpl.
  destruct (isShort args _); [done|]. by rewrite app_nil_r.
Qed.

Lemma processSeq_sameResults index th_id st st' :
  sameResults st st' ->
  sameResults (processSeq' index th_id st) (processSeq' index th_id st').
Proof.
  intros [Hvars Hcerr]. split.
  - by rewrite processSeq_withoutCerr, Hvars, <- processSeq_withoutCerr.
  - rewrite processSeq_cerr, (processSeq_cerr _ _ st'), Hvars. by rewrite Hcerr.
Qed.

Lemma runSchedule_sameResults l :
  forall st st', sameResults st st' ->
    sameResults (runSchedule' l st) (runSchedule' l st').
Proof.
  induction l as [|[i t] l IH]; intros st st' Hsame; [done|].
  apply IH. by apply processSeq_sameResults.
Qed.

Lemma processSeq_commute (i t j u : nat) (st : Sect) :
  i ≠ j ->
  sameResults (processSeq' i t (processSeq' j u st))
              (processSeq' j u (processSeq' i t st)).
Proof.
  intros Hne. split.
  - rewrite !processSeq_unfold. unfold withoutCerr. cbn -[binOf].
    rewrite incTM_commute.
    f_equal; repeat (destruct (isShort args _)); try done;
      by apply list_insert_insert_ne.
  - rewrite !processSeq_unfold. cbn -[binOf].
    repeat (destruct (isShort args _)); try done.
    rewrite <- !app_assoc. apply Permutation_app_head. apply perm_swap.
Qed.

Lemma runSchedule_Permutation (l l' : list (nat * nat)) :
  l ≡ₚ l' -> NoDup l.*1 ->
  forall st st', sameResults st st' ->
    sameResults (runSchedule' l st) (runSchedule' l' st').
Proof.
  induction 1 as [|[i t] l l' Hperm IH|[i t] [j u] l|l l' l'' Hperm IH Hperm' IH'];
    intros Hnodup st st' Hsame.
  - done.
  - apply IH; [by apply NoDup_cons in Hnodup as [_ ?]|].
    by apply processSeq_sameResults.
  - change (sameResults (runSchedule' l (processSeq' i t (processSeq' j u st)))
                        (runSchedule' l (processSeq' j u (processSeq' i t st')))).
    apply runSchedule_sameResults.
    etrans; [apply processSeq_commute|].
    + rewrite !fmap_cons in Hnodup. apply NoDup_cons in Hnodup as [Hin _].
      simpl in Hin. intros ->. apply Hin. by left.
    + by do 2 apply processSeq_sameResults.
  - etrans; [apply (IH Hnodup st st); reflexivity|].
    apply IH'; [|done]. by rewrite <- Hperm.
Qed.

Lemma runSchedule_quiet (l : list (nat * nat)) (st : Sect) :
  (forall j, j ∈ l.*1 ->
     isShort args (default EmptyString (seqs st !! j)) = false) ->
  cerr (runSchedule' l st) = cerr st.
Proof.
  intros Hlong. rewrite cerr_runSchedule.
  rewrite <- (app_nil_r (cerr st)) at 2. f_equal.
  induction (l.*1) as [|j js IH]; [done|]. csimpl.
  rewrite (Hlong j) by (by left). apply IH.
  intros j' Hj'. apply Hlong. by right.
Qed.

Lemma sameResults_eq (st st' : Sect) :
  sameResults st st' -> cerr st = cerr st' -> st = st'.
Proof.
  intros [Hvars _] Hcerr. destruct st, st'. unfold withoutCerr in Hvars.
  simpl in *. congruence.
Qed.

End CallOrder.

(** The calls of a batch in any order: two calls for different indices
    commute, whatever their workers, up to the order of their diagnostics
    on the error stream; so every order of the calls of a batch, by
    whatever interleaving of the workers, ends in the results of
    [analyseBatch], and in the very same state when no sequence of the batch
    is shorter than a k-mer. *)
Theorem call_order_irrelevant
    (getCount : bool -> string -> Z) (log10 : float -> float)
    (uint16_undefined : float -> Z) (args : Args) :
  (forall i t j u st,
      i ≠ j ->
      sameResults
        (processSeq getCount log10 uint16_undefined args i t
           (processSeq getCount log10 uint16_undefined args j u st))
        (processSeq getCount log10 uint16_undefined args j u
           (processSeq getCount log10 uint16_undefined args i t st)))
  ∧ (forall calls st,
       (1 <= threads args)%nat ->
       calls ≡ₚ schedule (threads args) (recordsInBatch st) ->
       sameResults (runSchedule getCount log10 uint16_undefined args calls st)
                   (analyseBatch getCount log10 uint16_undefined args st)
       ∧ (length (seqs st) = recordsInBatch st ->
          (forall sq, sq ∈ seqs st -> merLen args <= seqLengthOf sq) ->
          runSchedule getCount log10 uint16_undefined args calls st
          = analyseBatch getCount log10 uint16_undefined args st)).
Proof.
  split; [intros; by apply processSeq_commute|].
  intros calls st HT Hperm.
  assert (Hsame :
    sameResults (runSchedule getCount log10 uint16_undefined args calls st)
                (analyseBatch getCount log10 uint16_undefined args st)).
  { rewrite analyseBatch_schedule.
    apply runSchedule_Permutation; [done| |done].
    rewrite Hperm. by apply schedule_indices_NoDup. }
  split; [exact Hsame|].
  intros Hlen Hlong. apply sameResults_eq; [exact Hsame|].
  assert (Hquiet : forall l, l ≡ₚ schedule (threads args) (recordsInBatch st) ->
            cerr (runSchedule getCount log10 uint16_undefined args l st) = cerr st).
  { intros l Hl. apply runSchedule_quiet. intros j Hj.
    rewrite Hl, (schedule_indices_Permutation _ _ HT) in Hj.
    apply elem_of_seq in Hj.
    destruct (seqs st !! j) as [sq|] eqn:Hsq.
    - simpl. apply isShort_false, Hlong. by apply list_elem_of_lookup_2 in Hsq.
    - apply lookup_ge_None in Hsq. lia. }
  rewrite analyseBatch_schedule, !Hquiet; done.
Qed.

Lemma call_order_irrelevant_witness :
  runSchedule (constCount 7) log10_nonpositive undefined_is_zero
    (setThreads 2 (defaultArgs 2)) [(1, 1); (2, 0); (0, 0)]%nat
    (batchStart [("s1", "ACGT"); ("s2", "GG"); ("s3", "GCG")]%string
       (newSect (setThreads 2 (defaultArgs 2))))
  = analyseBatch (constCount 7) log10_nonpositive undefined_is_zero
      (setThreads 2 (defaultArgs 2))
      (batchStart [("s1", "ACGT"); ("s2", "GG"); ("s3", "GCG")]%string
         (newSect (setThreads 2 (defaultArgs 2)))).
Proof.
  apply (proj2 (call_order_irrelevant (constCount 7) log10_nonpositive
                  undefined_is_zero (setThreads 2 (defaultArgs 2)))).
  - simpl. lia.
  - vm_compute schedule.
    etrans; [apply perm_swap|]. etrans; [apply perm_skip, perm_swap|].
    apply perm_swap.
  - reflexivity.
  - intros sq Hsq. simpl in Hsq.
    repeat (apply elem_of_cons in Hsq as [->|Hsq]; [vm_compute; discriminate|]).
    by apply elem_of_nil in Hsq.
Defined.

(** ** The mean coverage *)

Section Mean.

Variable getCount : bool -> string -> Z.
Variable args : Args.

Lemma uint64_idemp (z : Z) : uint64 (uint64 z) = uint64 z.
Proof. unfold uint64. by rewrite Z.mod_mod. Qed.

Lemma count_loop_sum (sq : string) (l : list nat) :
  forall vec s,
    (foldl (count_step getCount args sq) (vec, uint64 s) l).2
    = uint64 (s + ThreadedSparseMatrix.sumZ (kmerCount getCount args sq <$> l)).
Proof.
  induction l as [|i l IH]; intros vec s.
  - simpl. f_equal. lia.
  - cbn [foldl]. rewrite fmap_cons, sumZ_cons.
    assert (Hstep : count_step getCount args sq (vec, uint64 s) i
                    = (<[i := kmerCount getCount args sq i]> vec,
                       uint64 (s + kmerCount getCount args sq i))).
    { unfold count_step, kmerCount, window.
      destruct (validKmer _); cbn [negb].
      - f_equal. unfold uint64. by rewrite Z.add_mod_idemp_l.
      - f_equal. f_equal. lia. }
    rewrite Hstep, IH. f_equal. lia.
Qed.

Lemma countKmers_sum (sq : string) (nbCounts : Z) :
  (countKmers getCount args sq nbCounts).2
  = uint64 (ThreadedSparseMatrix.sumZ
              (kmerCount getCount args sq <$> seq 0 (Z.to_nat nbCounts))).
Proof.
  unfold countKmers. change 0 with (uint64 0) at 2.
  by rewrite count_loop_sum.
Qed.

Lemma nbCountsOf_no_wrap (sq : string) :
  fits_size_t sq -> 0 <= merLen args <= seqLengthOf sq ->
  nbCountsOf args sq = Z.of_nat (nbWindows args sq).
Proof.
  unfold fits_size_t, nbCountsOf, nbWindows, seqLengthOf, uint64. intros Hfit Hk.
  rewrite Z.mod_small by lia. lia.
Qed.

End Mean.

(** The mean coverage of a sequence at least as long as a k-mer: the sum of
    the counts of its windows, reduced to 64 bits, over the number of all
    its windows; a window that is not looked up adds 0 to the sum and 1 to
    the divisor. *)
Theorem mean_coverage_counts_every_window
    (getCount : bool -> string -> Z) (log10 : float -> float)
    (uint16_undefined : float -> Z) (args : Args)
    (index th_id : nat) (st : Sect) (sq : string) :
  median args = false ->
  seqs st !! index = Some sq -> (index < length (coverages st))%nat ->
  fits_size_t sq -> 0 <= merLen args <= seqLengthOf sq ->
  coverages (processSeq getCount log10 uint16_undefined args index th_id st) !! index
  = Some (PrimFloat.div
            (double_of_int
               (uint64 (ThreadedSparseMatrix.sumZ
                          (kmerCount getCount args sq <$> seq 0 (nbWindows args sq)))))
            (double_of_int (Z.of_nat (nbWindows args sq)))).
Proof.
  intros Hmean Hsq Hlen Hfit Hk.
  rewrite (coverages_processSeq getCount log10 uint16_undefined args _ _ _ sq)
    by (done || lia).
  f_equal. unfold averageCvgOf.
  rewrite isShort_false by lia. rewrite Hmean. unfold meanCvg.
  rewrite countKmers_sum, nbCountsOf_no_wrap by done.
  by rewrite Nat2Z.id.
Qed.

Lemma mean_coverage_counts_every_window_witness :
  coverages
    (processSeq (baseCount 6 0 0 0) log10_nonpositive undefined_is_zero
       (meanArgs 1) 0 0 (oneRecord (meanArgs 1) "s" "ANNA")) !! 0%nat
  = Some 3%float.
Proof.
  rewrite (mean_coverage_counts_every_window (baseCount 6 0 0 0) log10_nonpositive
             undefined_is_zero (meanArgs 1) 0 0 _ "ANNA").
  - vm_compute. reflexivity.
  - reflexivity.
  - reflexivity.
  - simpl. lia.
  - unfold fits_size_t. simpl. lia.
  - unfold seqLengthOf. simpl. lia.
Defined.

(** ** The median of a vector that is mostly zero *)

Lemma filter_zero_positive (l : list Z) :
  Forall (fun c => 0 < c) l -> filter (fun c : Z => c = 0%Z) l = [].
Proof.
  induction 1 as [|c l Hc _ IH]; [done|].
  rewrite filter_cons, decide_False by lia. exact IH.
Qed.

Lemma median_zero (vec : list Z) :
  Forall (fun c => 0 <= c) vec ->
  (length vec < 2 * length (filter (fun c : Z => c = 0%Z) vec))%nat ->
  medianCvg vec = 0%float.
Proof.
  intros Hnonneg Hzeros.
  set (sorted := sortedSeqCounts vec).
  assert (Hperm : sorted ≡ₚ vec) by apply merge_sort_Permutation.
  assert (Hsorted : StronglySorted Z.le sorted).
  { apply StronglySorted_merge_sort; apply _. }
  assert (Hlen : length sorted = length vec) by by rewrite Hperm.
  unfold medianCvg. fold sorted. rewrite Hlen.
  set (h := (length vec / 2)%nat).
  assert (Hh : (h < length sorted)%nat).
  { rewrite Hlen. pose proof (length_filter (fun c : Z => c = 0%Z) vec).
    apply Nat.div_lt; lia. }
  destruct (lookup_lt_is_Some_2 sorted h Hh) as [m Hm]. rewrite Hm. simpl.
  destruct (decide (m = 0)) as [->|Hne]; [reflexivity|exfalso].
  assert (Hpos : 0 < m).
  { assert (0 <= m); [|lia].
    rewrite <- Hperm in Hnonneg.
    by apply (Forall_lookup_1 _ _ _ _ Hnonneg Hm). }
  assert (Hcount : length (filter (fun c : Z => c = 0%Z) vec)
                   = length (filter (fun c : Z => c = 0%Z) sorted)).
  { by rewrite Hperm. }
  assert (Hsplit : (length (filter (fun c : Z => c = 0%Z) sorted) <= h)%nat).
  { rewrite <- (take_drop h sorted) in Hsorted.
    rewrite <- (take_drop h sorted) at 1.
    rewrite filter_app, length_app.
    apply StronglySorted_app_1_r in Hsorted.
    rewrite (drop_S _ _ _ Hm) in Hsorted |- *.
    apply StronglySorted_cons in Hsorted as [Hrest _].
    rewrite (filter_zero_positive (m :: drop (S h) sorted)).
    - pose proof (length_filter (fun c : Z => c = 0%Z) (take h sorted)) as Hle.
      rewrite length_take in Hle. simpl. lia.
    - apply Forall_cons. split; [lia|].
      eapply Forall_impl; [exact Hrest|]. intros x Hx. simpl in Hx. lia. }
  assert (2 * h <= length vec)%nat.
  { unfold h. apply Nat.Div0.mul_div_le. }
  lia.
Qed.

(** The median coverage of a sequence more than half of whose windows have
    the count 0 (a window that is not looked up, or one the index does not
    hold) is 0, whatever the counts of its other windows. *)
Theorem median_coverage_zero_when_most_windows_are
    (getCount : bool -> string -> Z) (log10 : float -> float)
    (uint16_undefined : float -> Z) (args : Args)
    (index th_id : nat) (st : Sect) (sq : string) :
  median args = true ->
  seqs st !! index = Some sq -> (index < length (coverages st))%nat ->
  fits_size_t sq -> 0 <= merLen args <= seqLengthOf sq ->
  (forall mer, 0 <= getCount (canonical args) mer) ->
  (nbWindows args sq < 2 * zeroWindows getCount args sq)%nat ->
  coverages (processSeq getCount log10 uint16_undefined args index th_id st) !! index
  = Some 0%float.
Proof.
  intros Hmedian Hsq Hlen Hfit Hk Hcount Hzeros.
  rewrite (coverages_processSeq getCount log10 uint16_undefined args _ _ _ sq)
    by (done || lia).
  f_equal. unfold averageCvgOf.
  rewrite isShort_false by lia. rewrite Hmedian.
  rewrite seqCountsOf_spec by done.
  apply median_zero.
  - apply Forall_fmap, Forall_forall. intros i _. simpl.
    unfold kmerCount. destruct (validKmer _); [apply Hcount|lia].
  - rewrite length_fmap, length_seq.
    unfold zeroWindows in Hzeros.
    assert (Hfilter : forall l : list nat,
              length (filter (fun c : Z => c = 0%Z) (kmerCount getCount args sq <$> l))
              = length (filter (fun i => kmerCount getCount args sq i = 0%Z) l)).
    { induction l as [|i l IH]; [done|].
      rewrite fmap_cons, !filter_cons.
      destruct (decide (kmerCount getCount args sq i = 0)); simpl; by rewrite IH. }
    by rewrite Hfilter.
Qed.

Lemma median_coverage_zero_when_most_windows_are_witness :
  coverages
    (processSeq (constCount 7) log10_nonpositive undefined_is_zero (defaultArgs 2)
       0 0 (oneRecord (defaultArgs 2) "s" "ACnnnGT")) !! 0%nat
  = Some 0%float.
Proof.
  apply (median_coverage_zero_when_most_windows_are (constCount 7) log10_nonpositive
           undefined_is_zero (defaultArgs 2) 0 0 _ "ACnnnGT").
  - reflexivity.
  - reflexivity.
  - simpl. lia.
  - unfold fits_size_t. simpl. lia.
  - unfold seqLengthOf. simpl. lia.
  - intros mer. unfold constCount. lia.
  - vm_compute. lia.
Defined.

(** ** A sequence without a base that counts *)

Lemma count_chars_all_N (sq : string) :
  count_chars isN sq = Z.of_nat (String.length sq) ->
  count_chars isG sq = 0 ∧ count_chars isC sq = 0.
Proof.
  intros HN. rewrite !count_chars_list in *.
  pose proof (count_list_partition (list_ascii_of_string sq)) as Hpart.
  rewrite length_list_ascii_of_string in Hpart.
  pose proof (count_list_range isG (list_ascii_of_string sq)).
  pose proof (count_list_range isC (list_ascii_of_string sq)).
  pose proof (count_list_range isOther (list_ascii_of_string sq)).
  lia.
Qed.

(** The GC fraction of a sequence made of N and n only, the empty sequence
    among them, is the NaN of [0.0 / 0.0]: it is what the statistics row of
    the sequence holds, and the GC bin of the sequence comes from the
    undefined conversion of a NaN to [uint16_t]. *)
Theorem gc_fraction_of_N_only_is_nan
    (getCount : bool -> string -> Z) (log10 : float -> float)
    (uint16_undefined : float -> Z) (args : Args) (sq : string) :
  fits_size_t sq ->
  count_chars isN sq = Z.of_nat (String.length sq) ->
  gcPerc sq = nan
  ∧ gcBin uint16_undefined args (gcPerc sq) = uint16_undefined nan
  ∧ (binOf getCount log10 uint16_undefined args sq).1 = uint16_undefined nan
  ∧ forall index th_id st,
      seqs st !! index = Some sq -> (index < length (gcs st))%nat ->
      gcs (processSeq getCount log10 uint16_undefined args index th_id st) !! index
      = Some nan.
Proof.
  intros Hfit HN.
  assert (Hgc : gcPerc sq = nan).
  { rewrite gcPerc_spec by done.
    destruct (count_chars_all_N sq HN) as [-> ->]. rewrite HN.
    replace (Z.of_nat (String.length sq) - Z.of_nat (String.length sq)) with 0 by lia.
    vm_compute. reflexivity. }
  assert (Hbin : gcBin uint16_undefined args (gcPerc sq) = uint16_undefined nan).
  { unfold gcBin. rewrite Hgc, mul_nan. by apply uint16_of_double_undefined. }
  split; [exact Hgc|]. split; [exact Hbin|]. split; [exact Hbin|].
  intros index th_id st Hsq Hlen. rewrite <- Hgc. by apply gcs_processSeq.
Qed.

Lemma gc_fraction_of_N_only_is_nan_witness :
  gcPerc "NnN" = nan ∧ gcPerc "" = nan.
Proof.
  split.
  - apply (gc_fraction_of_N_only_is_nan (constCount 7) log10_nonpositive
             undefined_is_zero (defaultArgs 2) "NnN").
    + unfold fits_size_t. simpl. lia.
    + reflexivity.
  - apply (gc_fraction_of_N_only_is_nan (constCount 7) log10_nonpositive
             undefined_is_zero (defaultArgs 2) "").
    + unfold fits_size_t. simpl. lia.
    + reflexivity.
Defined.

(** ** The windows over a base that is not A, C, G or T *)

Lemma validKmer_get (merstr : string) :
  forall (p : nat) (c : ascii),
    String.get p merstr = Some c -> isACGT c = false -> validKmer merstr = false.
Proof.
  induction merstr as [|c' rest IH]; intros p c Hget Hc; [done|].
  simpl. destruct p as [|p].
  - simpl in Hget. injection Hget as ->. by rewrite Hc.
  - simpl in Hget. destruct (isACGT c'); [by apply (IH p c)|done].
Qed.

Lemma window_invalid (args : Args) (sq : string) (p i : nat) (c : ascii) :
  String.get p sq = Some c -> isACGT c = false ->
  (i <= p < i + Z.to_nat (merLen args))%nat ->
  validKmer (window args sq i) = false.
Proof.
  intros Hget Hc Hp. apply (validKmer_get _ (p - i) c); [|done].
  unfold window. rewrite substring_correct1 by lia.
  by replace (p - i + i)%nat with p by lia.
Qed.

(** A character that is not an upper-case A, C, G or T takes the count of
    every window that covers it to 0, whatever the index holds: with it at
    offset [p], the windows that start at [p - k + 1] up to [p]. *)
Theorem invalid_base_zeroes_its_windows
    (getCount : bool -> string -> Z) (log10 : float -> float)
    (uint16_undefined : float -> Z) (args : Args)
    (index th_id : nat) (st : Sect) (sq : string) (p : nat) (c : ascii) :
  seqs st !! index = Some sq -> (index < length (counts st))%nat ->
  fits_size_t sq -> 0 <= merLen args <= seqLengthOf sq ->
  String.get p sq = Some c -> isACGT c = false ->
  exists vec,
    counts (processSeq getCount log10 uint16_undefined args index th_id st) !! index
    = Some (Some vec)
    ∧ forall i, (i < nbWindows args sq)%nat ->
        (i <= p < i + Z.to_nat (merLen args))%nat ->
        vec !! i = Some 0.
Proof.
  intros Hsq Hlen Hfit Hk Hget Hc.
  exists (seqCountsOf getCount args sq). split.
  - apply counts_processSeq; (done || lia).
  - intros i Hi Hp. rewrite seqCountsOf_spec by done.
    rewrite list_lookup_fmap, lookup_seq_lt by done. simpl.
    unfold kmerCount. by rewrite (window_invalid args sq p i c).
Qed.

Lemma invalid_base_zeroes_its_windows_witness :
  exists vec,
    counts (processSeq (constCount 7) log10_nonpositive undefined_is_zero
              (defaultArgs 2) 0 0 (oneRecord (defaultArgs 2) "s" "ACNGT"))
      !! 0%nat = Some (Some vec)
    ∧ forall i, (i < nbWindows (defaultArgs 2) "ACNGT")%nat ->
        (i <= 2 < i + Z.to_nat (merLen (defaultArgs 2)))%nat ->
        vec !! i = Some 0.
Proof.
  apply (invalid_base_zeroes_its_windows (constCount 7) log10_nonpositive
           undefined_is_zero (defaultArgs 2) 0 0 _ "ACNGT" 2 "N").
  - reflexivity.
  - simpl. lia.
  - unfold fits_size_t. simpl. lia.
  - unfold seqLengthOf. simpl. lia.
  - reflexivity.
  - reflexivity.
Defined.

(** ** The window test of sect.hpp *)

Lemma validKmer_hasN (merstr : string) :
  validKmer merstr = true -> hasN merstr = false.
Proof.
  induction merstr as [|c rest IH]; [done|]. simpl.
  destruct (isACGT c) eqn:Hc; [|done]. intros Hrest. rewrite (IH Hrest).
  destruct (Ascii.eqb_spec c "N") as [->|]; [done|done].
Qed.

Lemma validKmer_dna5 (merstr : string) :
  string_forallb isDna5 merstr = true -> validKmer merstr = negb (hasN merstr).
Proof.
  induction merstr as [|c rest IH]; [done|]. simpl.
  intros [Hc Hrest]%andb_true_iff. rewrite (IH Hrest).
  unfold isDna5 in Hc.
  destruct (Ascii.eqb_spec c "N") as [->|Hne]; [done|].
  simpl in Hc. rewrite orb_false_r in Hc. by rewrite Hc.
Qed.

Lemma validKmer_outside_dna5 (merstr : string) :
  string_forallb isDna5 merstr = false -> validKmer merstr = false.
Proof.
  induction merstr as [|c rest IH]; [done|]. simpl.
  destruct (isACGT c) eqn:Hc; [|done].
  unfold isDna5. rewrite Hc. simpl. exact IH.
Qed.

Lemma window_tests_outside_dna5 (s1 s2 : string) (c : ascii) :
  isDna5 c = false ->
  validKmer (s1 ++ String c s2) = false
  ∧ hasN (s1 ++ String c s2) = hasN (s1 ++ s2).
Proof.
  intros Hc. unfold isDna5 in Hc. apply orb_false_iff in Hc as [Hc HN].
  induction s1 as [|a s1 [IHv IHn]].
  - change (EmptyString ++ String c s2)%string with (String c s2).
    change (EmptyString ++ s2)%string with s2. simpl. by rewrite Hc, HN.
  - change (String a s1 ++ String c s2)%string with (String a (s1 ++ String c s2)).
    change (String a s1 ++ s2)%string with (String a (s1 ++ s2)).
    simpl. rewrite IHv, IHn. split; [by destruct (isACGT a)|done].
Qed.

(** The window test of sect.cc against the one of sect.hpp: a window that
    [validKmer] accepts has no N; on windows over A, C, G, T and N, the
    alphabet of the sequences of sect.hpp, the two tests agree; a character
    outside that alphabet, wherever it stands in the window, makes
    [validKmer] refuse the window and is not seen by the test of sect.hpp,
    whose answer is that for the window without the character. *)
Theorem window_tests_agree_on_dna5 :
  (forall merstr, validKmer merstr = true -> hasN merstr = false)
  ∧ (forall merstr, string_forallb isDna5 merstr = true ->
       validKmer merstr = negb (hasN merstr))
  ∧ (forall merstr, string_forallb isDna5 merstr = false ->
       validKmer merstr = false)
  ∧ (forall s1 s2 c, isDna5 c = false ->
       validKmer (s1 ++ String c s2) = false
       ∧ hasN (s1 ++ String c s2) = hasN (s1 ++ s2)).
Proof.
  split; [exact validKmer_hasN|]. split; [exact validKmer_dna5|].
  split; [exact validKmer_outside_dna5|exact window_tests_outside_dna5].
Qed.

Lemma window_tests_agree_on_dna5_witness :
  validKmer "ACNT" = negb (hasN "ACNT") ∧ hasN "ACGT" = false
  ∧ validKmer ("AC" ++ String "g" "T") = false
  ∧ hasN ("AC" ++ String "g" "T") = hasN ("AC" ++ "T").
Proof.
  split; [|split].
  - apply (proj1 (proj2 window_tests_agree_on_dna5)). reflexivity.
  - apply (proj1 window_tests_agree_on_dna5). reflexivity.
  - apply (proj2 (proj2 (proj2 window_tests_agree_on_dna5))). reflexivity.
Defined.

(** ** The coverage bin of a finite value *)

Lemma uint16_exact_checked : all_bits 16 0 uint16_exact_check = true.
Proof. vm_cast_no_check (eq_refl true). Qed.

Lemma uint16_exact (n : Z) :
  1 <= n < 2 ^ 16 ->
  exists m e,
    Prim2SF (double_of_int n) = S754_finite false m e
    ∧ e <= 0 ∧ Z.pos m = n * 2 ^ (- e) ∧ 2 ^ 52 <= Z.pos m < 2 ^ 53 ∧ (-1074) <= e.
Proof.
  intros Hn.
  pose proof (all_bits_spec 16 0 uint16_exact_check uint16_exact_checked n) as Hcheck.
  unfold uint16_exact_check in Hcheck.
  destruct (Prim2SF (double_of_int n)) as [[|]| | |[|] m e];
    try (discriminate Hcheck; simpl; lia).
  - assert ((n =? 0) = true) by (apply Hcheck; simpl; lia). lia.
  - exists m, e. split; [done|].
    assert (H : (e <=? 0) && (Z.pos m =? n * 2 ^ (- e))
                && (2 ^ 52 <=? Z.pos m) && (Z.pos m <? 2 ^ 53) && (-1074 <=? e) = true)
      by (apply Hcheck; simpl; lia).
    rewrite !andb_true_iff in H. destruct H as [[[[H1 H2] H3] H4] H5].
    lia.
Qed.

Lemma digits2_pos_bounds (m : positive) :
  2 ^ (Z.pos (digits2_pos m) - 1) <= Z.pos m < 2 ^ Z.pos (digits2_pos m).
Proof.
  induction m as [m IH|m IH|]; simpl digits2_pos.
  - rewrite Pos2Z.inj_succ.
    replace (Z.succ (Z.pos (digits2_pos m)) - 1) with (Z.succ (Z.pos (digits2_pos m) - 1))
      by lia.
    rewrite !Z.pow_succ_r by lia. lia.
  - rewrite Pos2Z.inj_succ.
    replace (Z.succ (Z.pos (digits2_pos m)) - 1) with (Z.succ (Z.pos (digits2_pos m) - 1))
      by lia.
    rewrite !Z.pow_succ_r by lia. lia.
  - simpl. lia.
Qed.

(** The mantissa and the exponent of a finite double. *)
Lemma finite_canonical (v : float) (s : bool) (m : positive) (e : Z) :
  Prim2SF v = S754_finite s m e ->
  Z.pos m < 2 ^ 53 ∧ (-1074) <= e ∧ ((-1074) < e -> 2 ^ 52 <= Z.pos m).
Proof.
  intros Hv. pose proof (Prim2SF_valid v) as Hvalid. rewrite Hv in Hvalid.
  unfold SpecFloat.valid_binary, bounded, canonical_mantissa, fexp in Hvalid.
  apply andb_true_iff in Hvalid as [Hcanon _]. apply Z.eqb_eq in Hcanon.
  change (SpecFloat.emin prec emax) with (-1074) in Hcanon.
  change prec with 53 in Hcanon.
  pose proof (digits2_pos_bounds m) as Hd.
  set (d := Z.pos (digits2_pos m)) in *.
  assert (Hmax : Z.max (d + e - 53) (-1074) = e) by exact Hcanon.
  assert (Hdpos : 0 < d) by (unfold d; lia).
  split; [|split].
  - assert (d <= 53) by lia.
    assert (2 ^ d <= 2 ^ 53) by (apply Z.pow_le_mono_r; lia). lia.
  - lia.
  - intros He. assert (d = 53) by lia.
    replace (d - 1) with 52 in Hd by lia. lia.
Qed.

Lemma SFleb_finite (m1 m2 : positive) (e1 e2 : Z) :
  SFleb (S754_finite false m1 e1) (S754_finite false m2 e2)
  = if e1 <? e2 then true
    else if e2 <? e1 then false
    else (Z.pos m1 <=? Z.pos m2).
Proof.
  unfold SFleb, SFcompare.
  destruct (Z.compare_spec e1 e2) as [->|Hlt|Hgt].
  - rewrite Z.ltb_irrefl.
    change (PosDef.Pos.compare_cont Eq m1 m2) with (Pos.compare m1 m2).
    destruct (Pos.compare_spec m1 m2) as [->|Hlt|Hgt];
      symmetry; [apply Z.leb_le|apply Z.leb_le|apply Z.leb_gt]; lia.
  - by rewrite (proj2 (Z.ltb_lt e1 e2)) by done.
  - rewrite (proj2 (Z.ltb_ge e1 e2)) by lia.
    by rewrite (proj2 (Z.ltb_lt e2 e1)) by done.
Qed.

Lemma pow2_split (a b : Z) : 0 <= b <= a -> 2 ^ a = 2 ^ (a - b) * 2 ^ b.
Proof. intros H. rewrite <- Z.pow_add_r by lia. f_equal. lia. Qed.

(** The comparison [cvgBins <= v] of doubles against the integer part of
    [v], for a double [v] that is finite and not negative. *)
Lemma leb_uint16_truncate (n : Z) (v : float) :
  1 <= n < 2 ^ 16 -> is_nonneg_finite v = true ->
  exists z, truncate v = Some z ∧ 0 <= z
            ∧ PrimFloat.leb (double_of_int n) v = (n <=? z).
Proof.
  intros Hn Hv. destruct (uint16_exact n Hn) as (md & ed & Hd & Hed & Hmd & Hnorm & Hmin).
  rewrite leb_spec, Hd. unfold is_nonneg_finite, truncate in *.
  destruct (Prim2SF v) as [s| | |[|] m e] eqn:Hsf; try discriminate.
  - exists 0. split; [done|]. split; [lia|].
    simpl. symmetry. apply Z.leb_gt. lia.
  - destruct (finite_canonical v false m e Hsf) as (Hm & Hemin & Hnormal).
    rewrite SFleb_finite.
    assert (Hpow : forall k, 0 <= k -> 0 < 2 ^ k) by (intros; by apply Z.pow_pos_nonneg).
    destruct (0 <=? e) eqn:Hsign.
    + (* an integer of at least 2^52 *)
      apply Z.leb_le in Hsign. exists (Z.pos m * 2 ^ e).
      split; [done|]. pose proof (Hpow e Hsign).
      split; [nia|].
      assert (Hbig : n <= Z.pos m * 2 ^ e).
      { destruct (decide (e = 0)) as [->|Hne].
        - assert (ed = 0 ∨ ed < 0) as [->|Hneg] by lia.
          + assert (2 ^ 52 <= Z.pos m) by (apply Hnormal; lia). lia.
          + assert (2 ^ 52 <= Z.pos m) by (apply Hnormal; lia). lia.
        - assert (2 ^ 52 <= Z.pos m) by (apply Hnormal; lia). nia. }
      rewrite (proj2 (Z.leb_le n _) Hbig).
      destruct (ed <? e) eqn:H1; [done|]. apply Z.ltb_ge in H1.
      assert (e = 0 ∧ ed = 0) as [-> ->] by lia.
      rewrite Z.ltb_irrefl. simpl in Hmd. apply Z.leb_le. lia.
    + apply Z.leb_gt in Hsign. exists (Z.pos m / 2 ^ (- e)).
      split; [done|]. pose proof (Hpow (- e) ltac:(lia)) as Hk.
      split; [apply Z.div_pos; lia|].
      pose proof (Hpow (- ed) ltac:(lia)) as Hkd.
      destruct (ed <? e) eqn:H1.
      * (* v has the larger exponent, so it is a normal number above n *)
        apply Z.ltb_lt in H1. symmetry. apply Z.leb_le.
        apply Z.div_le_lower_bound; [lia|].
        assert (2 ^ 52 <= Z.pos m) by (apply Hnormal; lia).
        rewrite (pow2_split (- ed) (- e)) in Hmd by lia.
        assert (2 <= 2 ^ (- ed - - e)).
        { change 2 with (2 ^ 1) at 1. apply Z.pow_le_mono_r; lia. }
        nia.
      * apply Z.ltb_ge in H1. destruct (e <? ed) eqn:H2.
        -- (* v has the smaller exponent, so it is below n *)
           apply Z.ltb_lt in H2. symmetry. apply Z.leb_gt.
           apply Z.div_lt_upper_bound; [lia|].
           rewrite (pow2_split (- e) (- ed)) by lia.
           assert (2 <= 2 ^ (- e - - ed)).
           { change 2 with (2 ^ 1) at 1. apply Z.pow_le_mono_r; lia. }
           nia.
        -- apply Z.ltb_ge in H2. assert (e = ed) as -> by lia.
           rewrite Hmd.
           destruct (Z.leb_spec (n * 2 ^ (- ed)) (Z.pos m)) as [Hle|Hgt].
           ++ symmetry. apply Z.leb_le. apply Z.div_le_lower_bound; lia.
           ++ symmetry. apply Z.leb_gt. apply Z.div_lt_upper_bound; lia.
Qed.

Lemma cvgBin_capped (ud : float -> Z) (args : Args) (v : float) :
  1 <= cvgBins args < 2 ^ 16 -> is_nonneg_finite v = true ->
  exists z,
    truncate v = Some z ∧ 0 <= z
    ∧ cvgBin ud args v = Z.min z (cvgBins args - 1).
Proof.
  intros Hn Hv.
  destruct (leb_uint16_truncate (cvgBins args) v Hn Hv) as (z & Hz & Hpos & Hleb).
  exists z. split; [done|]. split; [done|].
  unfold cvgBin. rewrite Hleb.
  destruct (Z.leb_spec (cvgBins args) z) as [Hle|Hgt].
  - rewrite Z.min_r by lia.
    apply uint16_of_double_defined; [|lia].
    apply uint16_double_facts. lia.
  - rewrite Z.min_l by lia. apply uint16_of_double_defined; [done|lia].
Qed.

(** The coverage bin of a value that is finite and not negative is its
    integer part, capped at [cvgBins - 1]: the conversion to [uint16_t] is
    defined, and the bin is a row of the grid. *)
Theorem coverage_bin_is_capped_integer_part
    (uint16_undefined : float -> Z) (args : Args) (v : float) :
  1 <= cvgBins args < 2 ^ 16 -> is_nonneg_finite v = true ->
  exists z,
    truncate v = Some z ∧ 0 <= z
    ∧ cvgBin uint16_undefined args v = Z.min z (cvgBins args - 1)
    ∧ 0 <= cvgBin uint16_undefined args v < cvgBins args.
Proof.
  intros Hn Hv.
  destruct (cvgBin_capped uint16_undefined args v Hn Hv) as (z & Hz & Hpos & Hbin).
  exists z. split; [done|]. split; [done|].
  split; [exact Hbin|]. rewrite Hbin. lia.
Qed.

Lemma coverage_bin_is_capped_integer_part_witness :
  exists z,
    truncate 12345.75%float = Some z ∧ 0 <= z
    ∧ cvgBin undefined_is_zero (defaultArgs 2) 12345.75%float
      = Z.min z (cvgBins (defaultArgs 2) - 1)
    ∧ 0 <= cvgBin undefined_is_zero (defaultArgs 2) 12345.75%float
      < cvgBins (defaultArgs 2).
Proof.
  apply (coverage_bin_is_capped_integer_part undefined_is_zero (defaultArgs 2)).
  - simpl. lia.
  - reflexivity.
Defined.

(** ** The coverage bin on the linear scale *)

Lemma linear_bin_checked : all_bits 16 0 linear_bin_check = true.
Proof. vm_cast_no_check (eq_refl true). Qed.

Lemma linear_bin_facts (m : Z) :
  0 <= m < 2 ^ 16 ->
  truncate (PrimFloat.mul (double_of_int m) tenth) = Some (m / 10)
  ∧ is_nonneg_finite (PrimFloat.mul (double_of_int m) tenth) = true.
Proof.
  intros Hm.
  pose proof (all_bits_spec 16 0 linear_bin_check linear_bin_checked m) as Hcheck.
  unfold linear_bin_check in Hcheck. cbv zeta in Hcheck.
  assert (H : option_Z_eqb (truncate (PrimFloat.mul (double_of_int m) tenth)) (m / 10)
              && is_nonneg_finite (PrimFloat.mul (double_of_int m) tenth) = true)
    by (apply Hcheck; simpl; lia).
  apply andb_true_iff in H as [Htrunc Hfin]. split; [|done].
  unfold option_Z_eqb in Htrunc.
  destruct (truncate _) as [z|]; [|done]. apply Z.eqb_eq in Htrunc. by subst.
Qed.

(** On the linear scale a coverage that is a count [m] below 65536 goes to
    row [m / 10], capped at [cvgBins - 1]: ten counts to a row.  The median
    coverage of a sequence is such a count. *)
Theorem linear_coverage_bin_is_tenth_of_count
    (log10 : float -> float) (uint16_undefined : float -> Z) (args : Args) :
  cvgLogscale args = false -> 1 <= cvgBins args < 2 ^ 16 ->
  (forall m, 0 <= m < 2 ^ 16 ->
     cvgBin uint16_undefined args (compressedCvg log10 args (double_of_int m))
     = Z.min (m / 10) (cvgBins args - 1))
  ∧ (forall vec m,
       sortedSeqCounts vec !! (length (sortedSeqCounts vec) / 2)%nat = Some m ->
       0 <= m < 2 ^ 16 ->
       cvgBin uint16_undefined args (compressedCvg log10 args (medianCvg vec))
       = Z.min (m / 10) (cvgBins args - 1)).
Proof.
  intros Hlin Hbins.
  assert (Hcount : forall m, 0 <= m < 2 ^ 16 ->
            cvgBin uint16_undefined args (compressedCvg log10 args (double_of_int m))
            = Z.min (m / 10) (cvgBins args - 1)).
  { intros m Hm. unfold compressedCvg. rewrite Hlin.
    destruct (linear_bin_facts m Hm) as [Htrunc Hfin].
    destruct (cvgBin_capped uint16_undefined args _ Hbins Hfin) as (z & Hz & _ & ->).
    rewrite Htrunc in Hz. by injection Hz as <-. }
  split; [exact Hcount|].
  intros vec m Hmed Hm. unfold medianCvg. rewrite Hmed. simpl. by apply Hcount.
Qed.

Lemma linear_coverage_bin_is_tenth_of_count_witness :
  cvgBin undefined_is_zero (defaultArgs 2)
    (compressedCvg log10_nonpositive (defaultArgs 2) (double_of_int 12345))
  = Z.min (12345 / 10) (cvgBins (defaultArgs 2) - 1).
Proof.
  apply (proj1 (linear_coverage_bin_is_tenth_of_count log10_nonpositive
                  undefined_is_zero (defaultArgs 2) ltac:(reflexivity)
                  ltac:(simpl; lia))).
  lia.
Defined.

(** ** A sequence shorter than a k-mer in the matrix *)

(** A sequence shorter than a k-mer is binned like any other: on the linear
    scale its length goes to the cell of its GC bin in row 0 of the matrix
    of its worker. *)
Theorem short_sequence_is_binned
    (getCount : bool -> string -> Z) (log10 : float -> float)
    (uint16_undefined : float -> Z) (args : Args)
    (index th_id : nat) (st : Sect) (sq : string) :
  cvgLogscale args = false -> 1 <= cvgBins args < 2 ^ 16 ->
  seqs st !! index = Some sq -> seqLengthOf sq < merLen args ->
  binOf getCount log10 uint16_undefined args sq
  = (gcBin uint16_undefined args (gcPerc sq), 0)
  ∧ contamination_mx (processSeq getCount log10 uint16_undefined args index th_id st)
    = ThreadedSparseMatrix.incTM th_id (gcBin uint16_undefined args (gcPerc sq)) 0
        (seqLengthOf sq) (contamination_mx st).
Proof.
  intros Hlin Hbins Hsq Hshort.
  assert (Hbin : binOf getCount log10 uint16_undefined args sq
                 = (gcBin uint16_undefined args (gcPerc sq), 0)).
  { unfold binOf. f_equal. unfold averageCvgOf.
    rewrite isShort_true by done.
    change 0%float with (double_of_int 0).
    destruct (linear_bin_facts 0 ltac:(lia)) as [Htrunc Hfin].
    unfold compressedCvg. rewrite Hlin.
    destruct (cvgBin_capped uint16_undefined args _ Hbins Hfin) as (z & Hz & _ & ->).
    rewrite Htrunc in Hz. injection Hz as <-. change (0 / 10) with 0. lia. }
  split; [exact Hbin|].
  rewrite processSeq_unfold. cbn [contamination_mx]. rewrite Hsq.
  change (default EmptyString (Some sq)) with sq. by rewrite Hbin.
Qed.

Lemma short_sequence_is_binned_witness :
  binOf (constCount 7) log10_nonpositive undefined_is_zero (defaultArgs 2) "G"
  = (gcBin undefined_is_zero (defaultArgs 2) (gcPerc "G"), 0).
Proof.
  apply (short_sequence_is_binned (constCount 7) log10_nonpositive undefined_is_zero
           (defaultArgs 2) 0 0 (oneRecord (defaultArgs 2) "s" "G") "G").
  - reflexivity.
  - simpl. lia.
  - reflexivity.
  - unfold seqLengthOf. simpl. lia.
Defined.

(** ** What a call leaves alone *)



(** ** The lines of the counts file *)

Lemma string_app_cons (c : ascii) (s1 s2 : string) :
  (String c s1 ++ s2)%string = String c (s1 ++ s2).
Proof. reflexivity. Qed.

Lemma string_app_nil_r (s : string) : (s ++ "")%string = s.
Proof.
  induction s as [|c s IH]; [done|]. by rewrite string_app_cons, IH.
Qed.

Lemma string_app_assoc (s1 s2 s3 : string) :
  ((s1 ++ s2) ++ s3 = s1 ++ (s2 ++ s3))%string.
Proof.
  induction s1 as [|c s1 IH]; [done|]. by rewrite !string_app_cons, IH.
Qed.

Lemma string_of_uint_no_space (d : Decimal.uint) :
  string_forallb (fun c => negb (c =? " ")%char) (NilEmpty.string_of_uint d) = true.
Proof. induction d; simpl; done. Qed.

Lemma show_uint_no_space (z : Z) :
  string_forallb (fun c => negb (c =? " ")%char) (show_uint z) = true.
Proof.
  unfold show_uint, NilZero.string_of_uint.
  destruct (N.to_uint (Z.to_N z)) eqn:Hd; try (rewrite <- Hd; apply string_of_uint_no_space).
  done.
Qed.

Lemma N_to_uint_nonnil (n : N) : N.to_uint n ≠ Decimal.Nil.
Proof. destruct n; [done|]. apply DecimalPos.Unsigned.to_uint_nonnil. Qed.

Lemma show_uint_inj (a b : Z) :
  0 <= a -> 0 <= b -> show_uint a = show_uint b -> a = b.
Proof.
  intros Ha Hb Heq. unfold show_uint in Heq.
  apply (f_equal NilZero.uint_of_string) in Heq.
  rewrite !NilZero.usu in Heq by apply N_to_uint_nonnil.
  injection Heq as Heq. apply DecimalN.Unsigned.to_uint_inj in Heq. lia.
Qed.

Lemma fields_no_space (s : string) :
  string_forallb (fun c => negb (c =? " ")%char) s = true -> fields s = [s].
Proof.
  induction s as [|c s IH]; [done|]. simpl.
  intros [Hc Hs]%andb_true_iff. apply negb_true_iff in Hc.
  by rewrite Hc, (IH Hs).
Qed.

Lemma fields_app_space (s rest : string) :
  string_forallb (fun c => negb (c =? " ")%char) s = true ->
  fields (s ++ String " " rest) = s :: fields rest.
Proof.
  induction s as [|c s IH]; [done|]. rewrite string_app_cons. simpl.
  intros [Hc Hs]%andb_true_iff. apply negb_true_iff in Hc.
  by rewrite Hc, (IH Hs).
Qed.

(** The line of a count vector that is not empty: its counts in decimal,
    with one space between two of them. *)
Lemma countsLine_cons (c0 : Z) (rest : list Z) :
  countsLine (Some (c0 :: rest))
  = (show_uint c0
       ++ foldr (fun c line => String " " (show_uint c ++ line)) EmptyString rest)%string.
Proof.
  unfold countsLine. generalize (show_uint c0) as line.
  induction rest as [|c rest IH]; intros line.
  - simpl. by rewrite string_app_nil_r.
  - cbn [foldl foldr]. rewrite IH.
    rewrite !string_app_assoc. reflexivity.
Qed.

Lemma fields_countsLine (c0 : Z) (rest : list Z) :
  fields (countsLine (Some (c0 :: rest))) = show_uint <$> (c0 :: rest).
Proof.
  rewrite countsLine_cons. revert c0.
  induction rest as [|c rest IH]; intros c0.
  - simpl. rewrite string_app_nil_r.
    apply fields_no_space, show_uint_no_space.
  - cbn [foldr]. rewrite fields_app_space by apply show_uint_no_space.
    rewrite IH. reflexivity.
Qed.

(** The counts file against the count vectors: the line of a vector that
    is not empty has one field per count, its decimal, so two such vectors
    with the same line are the same vector; the line 0 stands for a null
    pointer, for an empty vector and for the vector of one count 0
    alike. *)
Theorem counts_line_determines_counts :
  (forall vec vec' : list Z,
      vec ≠ [] -> vec' ≠ [] ->
      Forall (fun c => 0 <= c) vec -> Forall (fun c => 0 <= c) vec' ->
      countsLine (Some vec) = countsLine (Some vec') -> vec = vec')
  ∧ (forall vec, vec ≠ [] -> fields (countsLine (Some vec)) = show_uint <$> vec)
  ∧ countsLine None = countsLine (Some [0])
  ∧ countsLine (Some []) = countsLine (Some [0]).
Proof.
  split; [|split; [|split; reflexivity]].
  - intros vec vec' Hne Hne' Hpos Hpos' Hline.
    destruct vec as [|c0 rest]; [done|]. destruct vec' as [|c0' rest']; [done|].
    apply (f_equal fields) in Hline. rewrite !fields_countsLine in Hline.
    clear Hne Hne'. revert Hline Hpos Hpos'.
    generalize (c0 :: rest) as l. generalize (c0' :: rest') as l'.
    intros l' l. revert l'.
    induction l as [|c l IH]; intros [|c' l'] Hline Hpos Hpos'; try done.
    rewrite !fmap_cons in Hline. injection Hline as Hc Hl.
    apply Forall_cons in Hpos as [Hc0 Hpos]. apply Forall_cons in Hpos' as [Hc0' Hpos'].
    f_equal; [by apply show_uint_inj|by apply IH].
  - intros [|c0 rest] Hne; [done|]. apply fields_countsLine.
Qed.

Lemma counts_line_determines_counts_witness :
  fields (countsLine (Some [7; 0; 12])) = show_uint <$> [7; 0; 12].
Proof. by apply (proj1 (proj2 counts_line_determines_counts)). Defined.
